(** * finddups: the size index and the duplicate resolver of [finddups.c]

    A shallow embedding of [src/finddups.c] and the properties of its
    two parts:

    - the size index, a left-leaning red-black tree keyed by file size
      ([insertR], [insert], [visit]);
    - the duplicate resolver ([chkForDups]) with its ledger [ar] of
      matched byte counts, and the driver [main].

    Conventions of the embedding.

    - A [next]-linked chain ([struct fe], [struct dupNode]) is a Rocq list
      whose head is the first cell of the chain.
    - [struct Node] is an inductive tree; [NULL] is the null pointer.
    - [long] and [int] values that cannot overflow on files that fit a
      file system ([ar], [maxToSkip], [nri]) are unbounded [Z]; array
      indices and [cnt] are [nat].  The one narrowing conversion of the
      source, the [int size] parameter of [addDupNode], is written out.
    - Memory is not modelled: [malloc]/[calloc] succeed and [free] is a
      no-op.  A failed [assert] or a dereferenced null pointer is the
      outcome [None] (tree code) or [Abort] (process).
    - The file system is an explicit, static environment: the bytes of a
      file do not change during the run, and a [read] that succeeds
      returns all the bytes that are left, up to [BUFSIZE] of them. *)

From stdpp Require Import base numbers list strings sorting.
From Stdlib Require Import ZArith.
From Stdlib.Strings Require Import Byte.

(** ** Data model *)

(** [struct fe {const char *name; struct fe *next; dev_t dev; ino_t inode;}] *)
Record fe := FE { name : string; dev : Z; inode : Z }.

(** The fields of [struct stat] the program reads. *)
Record stat := Stat { st_size : Z; st_dev : Z; st_ino : Z }.

(** [struct dupNode {long size; struct fe *files; struct dupNode *next;}];
    a chain of them is a [list dupNode]. *)
Record dupNode := DupNode { dsize : Z; dfiles : list fe }.

(** [struct Node {long size,c; struct fe *files; struct Node *left, *right;
    int color;}] *)
Inductive Node :=
| NULL
| MkNode (size c : Z) (files : list fe) (l r : Node) (color : Z).

#[global] Instance fe_eq_dec : EqDecision fe.
Proof. solve_decision. Defined.

#[global] Instance byte_eq_dec' : EqDecision byte := Byte.byte_eq_dec.

(** ** The size index *)

Definition color_of (n : Node) : Z :=
  match n with NULL => 0 | MkNode _ _ _ _ _ col => col end.

Definition set_color (k : Z) (n : Node) : Node :=
  match n with NULL => NULL | MkNode s c fs l r _ => MkNode s c fs l r k end.

Definition left_of (n : Node) : Node :=
  match n with NULL => NULL | MkNode _ _ _ l _ _ => l end.

Definition right_of (n : Node) : Node :=
  match n with NULL => NULL | MkNode _ _ _ _ r _ => r end.

(** [isRed]: [n != NULL && n->color]. *)
Definition isRed (n : Node) : bool :=
  match n with NULL => false | MkNode _ _ _ _ _ col => negb (col =? 0)%Z end.

(** [colorFlip]; [None] when one of its three [assert]s fails (or a child
    is null). *)
Definition colorFlip (n : Node) : option Node :=
  match n with
  | MkNode s c fs (MkNode ls lc lfs ll lr lcol) (MkNode rs rc rfs rl rr rcol) col =>
      if ((col =? 0) && (lcol =? 1) && (rcol =? 1))%Z
      then Some (MkNode s c fs (MkNode ls lc lfs ll lr 0) (MkNode rs rc rfs rl rr 0) 1)
      else None
  | _ => None
  end.

Definition rotateLeft (h : Node) : option Node :=
  match h with
  | MkNode s c fs l (MkNode xs xc xfs xl xr xcol) col =>
      Some (MkNode xs xc xfs (MkNode s c fs l xl 1) xr col)
  | _ => None
  end.

Definition rotateRight (h : Node) : option Node :=
  match h with
  | MkNode s c fs (MkNode xs xc xfs xl xr xcol) r col =>
      Some (MkNode xs xc xfs xl (MkNode s c fs xr r 1) col)
  | _ => None
  end.

Definition newFileNode (nm : string) (st : stat) : fe :=
  FE nm (st_dev st) (st_ino st).

Definition copyFileNode (old : fe) : fe :=
  FE (name old) (dev old) (inode old).

(** The [for (fp = node->files; fp; fp = fp->next)] scan of [insertR]:
    [true] when some entry has the device and inode of [st]. *)
Fixpoint sameInode (fp : list fe) (st : stat) : bool :=
  match fp with
  | [] => false
  | f :: next =>
      if ((dev f =? st_dev st) && (inode f =? st_ino st))%Z then true
      else sameInode next st
  end.

(** The two fix-ups at the end of [insertR]. *)
Definition fixUp (node : Node) : option Node :=
  node ← (if isRed (right_of node) && negb (isRed (left_of node))
          then rotateLeft node else Some node);
  if isRed (left_of node) && isRed (left_of (left_of node))
  then rotateRight node else Some node.

(** [insertR].  [colorFlip] recolours the two children in place before the
    recursive call descends into one of them, so the recursion is written
    over the node as it was before the flip, with its current colour
    [col] passed next to it; [insertR_eq] below states the function in the
    shape of the source. *)
Fixpoint insertR_col (col : Z) (node : Node) (nm : string) (st : stat)
  : option Node :=
  match node with
  | NULL => Some (MkNode (st_size st) 1 [newFileNode nm st] NULL NULL 1)
  | MkNode s c fs l r _ =>
      if (st_size st =? s)%Z then
        if sameInode fs st then Some (MkNode s c fs l r col)
        else Some (MkNode s c (newFileNode nm st :: fs) l r col)
      else
        let flip := isRed l && isRed r in
        if flip && negb ((col =? 0) && (color_of l =? 1) && (color_of r =? 1))%Z
        then None
        else
          let col1 := if flip then 1%Z else col in
          let lc := if flip then 0%Z else color_of l in
          let rc := if flip then 0%Z else color_of r in
          node ← (if (st_size st <? s)%Z
                  then l' ← insertR_col lc l nm st;
                       Some (MkNode s c fs l' (set_color rc r) col1)
                  else r' ← insertR_col rc r nm st;
                       Some (MkNode s c fs (set_color lc l) r' col1));
          fixUp node
  end.

Definition insertR (node : Node) (nm : string) (st : stat) : option Node :=
  insertR_col (color_of node) node nm st.

(** [insert]: [root = insertR(root, name, st); root->color = 0;] *)
Definition insert (root : Node) (nm : string) (st : stat) : option Node :=
  set_color 0 <$> insertR root nm st.

(** [visit]: only regular files ([flag == FTW_F]) are inserted. *)
Definition visit (FTW_F : Z) (root : Node) (nm : string) (st : stat) (flag : Z)
  : option Node :=
  if (flag =? FTW_F)%Z then insert root nm st else Some root.

(** A sequence of [insert] calls, as the traversal issues them. *)
Fixpoint insert_all (root : Node) (calls : list (string * stat)) : option Node :=
  match calls with
  | [] => Some root
  | (nm, st) :: rest => root ← insert root nm st; insert_all root rest
  end.

(** The buckets of the tree in ascending key order (an in-order walk),
    and the file list of the bucket of a size found by the search that
    [insertR] performs. *)
Fixpoint buckets (n : Node) : list (Z * list fe) :=
  match n with
  | NULL => []
  | MkNode s _ fs l r _ => buckets l ++ (s, fs) :: buckets r
  end.

Fixpoint bucket_of (n : Node) (sz : Z) : list fe :=
  match n with
  | NULL => []
  | MkNode s _ fs l r _ =>
      if (sz =? s)%Z then fs
      else if (sz <? s)%Z then bucket_of l sz else bucket_of r sz
  end.

(** ** Processes and the file system *)

(** What the process does to the outside: system calls on files, output
    on [stdout] and [stderr] (the [printf]/[fprintf] call with its
    arguments), and [syslog] calls (with the priority and the string
    they are called with; [error_exit] passes its message in the place
    of the format). *)
Inductive arg := ArgLong (z : Z) | ArgStr (s : string).

Inductive event :=
| EvOpen (path : string) (ok : bool)
| EvLseek (path : string) (off : Z) (ok : bool)
| EvRead (path : string) (ret : Z)
| EvClose (path : string)
| EvPrintf (fmt : string) (args : list arg)
| EvStderr (s : string)
| EvSyslog (priority : Z) (msg : string).

(** How a computation ends: it returns, the process exits ([exit]), it is
    killed or left without a defined behaviour ([Abort]: a failed
    [assert], the use of freed memory, an [int] that overflows, a
    conversion in the format of [syslog] with no argument for it), or the
    model has run out of fuel (which [ends_chkForDups] shows never
    happens). *)
Inductive outcome (A : Type) :=
| Ret (a : A)
| Exit (status : Z)
| Abort
| OutOfFuel.
Arguments Ret {A} a.
Arguments Exit {A} status.
Arguments Abort {A}.
Arguments OutOfFuel {A}.

(** A computation: the events it performs, in order, and its outcome. *)
Definition M (A : Type) : Type := list event * outcome A.

#[global] Instance M_ret : MRet M := λ A a, ([], Ret a).
#[global] Instance M_bind : MBind M := λ A B f m,
  match m with
  | (t, Ret a) => let '(t', o) := f a in (t ++ t', o)
  | (t, Exit c) => (t, Exit c)
  | (t, Abort) => (t, Abort)
  | (t, OutOfFuel) => (t, OutOfFuel)
  end.

Definition emit (e : event) : M unit := ([e], Ret tt).

(** [m] with the events [t] before it. *)
Definition before {A} (t : list event) (m : M A) : M A := (t ++ m.1, m.2).
Definition trace {A} (m : M A) : list event := m.1.
Definition result {A} (m : M A) : outcome A := m.2.

(** A regular file: its bytes, and for which offsets [lseek] and [read]
    succeed on it. *)
Record file := File {
  f_data : list byte;
  f_seek_ok : Z → bool;
  f_read_ok : nat → bool
}.

(** An open descriptor: the path it was opened with, the file, the
    current offset. *)
Record fd := Fd { fd_path : string; fd_file : file; fd_pos : nat }.

(** The ledger of one bucket, and what is logged about it.  [notes] is a
    history variable: it has no counterpart in memory and nothing reads
    it.  It logs, newest first,
    - [Inferred i j pr]: the scan of the previous rows for the pair
      [(i, j)] found row [pr] to differ (the [DEBUG_PRINT] before
      [maxToSkip = -1]), so the pair is not compared;
    - [Compared i j maxToSkip]: the scan went through every row below [i]
      and the pair goes on to the two [open] calls;
    - [Wrote i j v off]: [ar[i*cnt + j] += nri] stored [v], both
      descriptors being at offset [off]. *)
Inductive note :=
| Inferred (i j pr : nat)
| Compared (i j : nat) (maxToSkip : Z)
| Wrote (i j : nat) (v : Z) (off : nat).

#[global] Instance note_eq_dec : EqDecision note.
Proof. solve_decision. Defined.

Record bstate := BState {
  fflags : list bool;
  ar : list Z;
  dn : option dupNode;
  notes : list note
}.

Definition set_fflags (f : list bool) (s : bstate) : bstate :=
  BState f (ar s) (dn s) (notes s).
Definition set_ar (a : list Z) (s : bstate) : bstate :=
  BState (fflags s) a (dn s) (notes s).
Definition set_dn (d : option dupNode) (s : bstate) : bstate :=
  BState (fflags s) (ar s) d (notes s).
Definition add_note (n : note) (s : bstate) : bstate :=
  BState (fflags s) (ar s) (dn s) (n :: notes s).

(** [calloc]: flags and ledger start at zero.  The source computes
    [cnt * cnt], and the indices [i*cnt + j] of the ledger, in [int];
    [resolve_bucket] runs the loops only when [cnt * cnt] fits an
    [int], so that none of them wraps.  The two allocations are taken
    to succeed: the source does not test what [calloc] returns. *)
Definition init_bstate (cnt : nat) : bstate :=
  BState (replicate cnt false) (replicate (cnt * cnt) 0%Z) None [].

(** The conversion of a [long] argument to an [int] parameter. *)
Definition int_of_long (z : Z) : Z := ((z + 2 ^ 31) mod 2 ^ 32 - 2 ^ 31)%Z.

(** Whether a string holds the character [%], of code 37. *)
Fixpoint has_percent (s : string) : bool :=
  match s with
  | EmptyString => false
  | String c s => Ascii.eqb c (Ascii.ascii_of_nat 37) || has_percent s
  end.

(** [addDupNode(int size, struct fe *file, struct dupNode *retval)] *)
Definition addDupNode (size : Z) (file : fe) (retval : option dupNode) : dupNode :=
  let size := int_of_long size in
  let fp := copyFileNode file in
  let retval := match retval with Some d => d | None => DupNode size [] end in
  DupNode (dsize retval) (fp :: dfiles retval).

(** [memcmp(a, b, n)], up to the sign of a non-zero result. *)
Definition memcmp (a b : list byte) (n : nat) : Z :=
  if decide (take n a = take n b) then 0%Z else 1%Z.

(** The ledger cell [ar[pr*cnt + a]]. *)
Definition cell (cnt : nat) (ar : list Z) (pr a : nat) : Z := ar !!! (pr * cnt + a).

(** The scan of the previous rows:
    [for (pr = 0; pr < i; ++pr) { ari = ar[pr*cnt + i]; ... }], started
    with [n = i] rows to go at [pr = 0] and [maxToSkip = 0].  Returns
    [maxToSkip] and the value of [pr] when the loop is left. *)
Fixpoint scan_rows (n pr cnt i j : nat) (ar : list Z) (maxToSkip : Z) : Z * nat :=
  match n with
  | O => (maxToSkip, pr)
  | S n =>
      let ari := cell cnt ar pr i in
      let arj := cell cnt ar pr j in
      if negb (ari =? arj)%Z then ((-1)%Z, pr)
      else scan_rows n (S pr) cnt i j ar
             (if (ari >? maxToSkip)%Z then ari else maxToSkip)
  end.

Section Resolver.

(** The read size, [-DBUFSIZE=...], 1024 unless overridden. *)
Variable BUFSIZE : nat.
(** [LOG_USER] of [<syslog.h>]. *)
Variable LOG_USER : Z.
(** The file system: what [open(path, O_RDONLY)] finds. *)
Variable fs : string → option file.

(** [error_exit(errorMsg, parm)] with a non-null [parm]: the message is
    the concatenation, handed to [syslog] as its format,
    [syslog(LOG_USER, msg)]; then [exit(1)].  With a [%] in the
    message the call has no defined behaviour, and [exit] need not be
    reached. *)
Definition error_exit {A} (errorMsg parm : string) : M A :=
  let msg := errorMsg +:+ parm in
  ([EvSyslog LOG_USER msg], if has_percent msg then Abort else Exit 1).

(** [open(path, O_RDONLY)]: a descriptor at offset 0, or failure. *)
Definition do_open (path : string) : option fd :=
  (λ f, Fd path f 0) <$> fs path.

Definition sys_open (path : string) : M (option fd) :=
  let r := do_open path in
  ([EvOpen path (bool_decide (is_Some r))], Ret r).

(** [lseek(fd, off, SEEK_SET)]: the new offset, or -1.  The source
    includes no header that declares [lseek], [read] or [close], so
    each is called as a function that returns an [int]: what the
    program gets is the offset converted to [int]. *)
Definition do_lseek (d : fd) (off : Z) : Z * fd :=
  if f_seek_ok (fd_file d) off
  then (int_of_long off, Fd (fd_path d) (fd_file d) (Z.to_nat off))
  else ((-1)%Z, d).

Definition sys_lseek (d : fd) (off : Z) : M (Z * fd) :=
  let r := do_lseek d off in
  ([EvLseek (fd_path d) off (negb (r.1 <? 0)%Z)], Ret r).

(** [read(fd, buf, BUFSIZE)]: the count as an [int] (or -1), the bytes
    now at the start of the buffer, the descriptor moved on. *)
Definition do_read (d : fd) : Z * list byte * fd :=
  if f_read_ok (fd_file d) (fd_pos d)
  then let buf := take BUFSIZE (drop (fd_pos d) (f_data (fd_file d))) in
       (int_of_long (Z.of_nat (length buf)), buf,
        Fd (fd_path d) (fd_file d) (fd_pos d + length buf))
  else ((-1)%Z, [], d).

Definition sys_read (d : fd) : M (Z * list byte * fd) :=
  let r := do_read d in
  ([EvRead (fd_path d) r.1.1], Ret r).

Definition sys_close (d : fd) : M unit := emit (EvClose (fd_path d)).

(** [ar[i*cnt + j] += nri], the descriptors being at offset [off]. *)
Definition add_matched (cnt i j : nat) (nri : Z) (off : nat) (s : bstate)
  : bstate :=
  let v := (cell cnt (ar s) i j + nri)%Z in
  add_note (Wrote i j v off) (set_ar (<[(i * cnt + j)%nat := v]> (ar s)) s).

(** The files are duplicates:
    [if (!fflags[i]) dn = addDupNode(node->size, fi, dn);
     dn = addDupNode(node->size, fj, dn);
     fflags[i] = fflags[j] = 1;] *)
Definition mark_dups (size : Z) (i j : nat) (fi fj : fe) (s : bstate) : bstate :=
  let d := if (fflags s !!! i : bool) then dn s
           else Some (addDupNode size fi (dn s)) in
  let d := Some (addDupNode size fj d) in
  set_fflags (<[j := true]> (<[i := true]> (fflags s))) (set_dn d s).

(** The [for (;;)] loop of [chkForDups] on the pair [(i, j)]. *)
Fixpoint read_loop (fuel : nat) (size : Z) (cnt i j : nat) (fi fj : fe)
    (fdi fdj : fd) (s : bstate) : M bstate :=
  match fuel with
  | O => ([], OutOfFuel)
  | S fuel =>
      '(nri, ibuff, fdi) ← sys_read fdi;
      '(nrj, jbuff, fdj) ← sys_read fdj;
      if ((nri <? 0) || (nrj <? 0))%Z then
        sys_close fdj;; sys_close fdi;;
        error_exit "Error reading " (if (nri <? 0)%Z then name fi else name fj)
      else if negb (nri =? nrj)%Z then mret s
      else if negb (memcmp ibuff jbuff (Z.to_nat nri) =? 0)%Z then mret s
      else
        let s := add_matched cnt i j nri (fd_pos fdi) s in
        if (nri =? 0)%Z then mret (mark_dups size i j fi fj s)
        else read_loop fuel size cnt i j fi fj fdi fdj s
  end.

(** From the first [open] to the two [close] calls, for a pair that the
    scan did not rule out. *)
Definition compare_pair (size : Z) (cnt i j : nat) (fi fj : fe)
    (maxToSkip : Z) (s : bstate) : M bstate :=
  ofdi ← sys_open (name fi);
  match ofdi with
  | None =>
      emit (EvPrintf "Error opening %s
" [ArgStr (name fi)]);;
      error_exit "Error opening " (name fi)
  | Some fdi =>
      ofdj ← sys_open (name fj);
      match ofdj with
      | None => error_exit "Error opening " (name fj)
      | Some fdj =>
          '(fdi, fdj) ←
            (if (maxToSkip >? 0)%Z then
               '(lsi, fdi') ← sys_lseek fdi maxToSkip;
               '(lsj, fdj') ← sys_lseek fdj maxToSkip;
               if ((lsi <? 0) || (lsj <? 0))%Z then
                 sys_close fdj;; sys_close fdi;;
                 error_exit "Error seeking in "
                   (if (lsi <? 0)%Z then name fi else name fj)
               else mret (fdi', fdj')
             else mret (fdi, fdj));
          s ← read_loop (S (length (f_data (fd_file fdi)))) size cnt i j fi fj fdi fdj s;
          sys_close fdj;; sys_close fdi;;
          mret s
      end
  end.

(** The body of the [j] loop for one [fj]. *)
Definition pair_step (size : Z) (cnt i j : nat) (fi fj : fe) (s : bstate)
  : M bstate :=
  if (fflags s !!! j : bool) then mret s
  else
    let '(maxToSkip, pr) := scan_rows i 0 cnt i j (ar s) 0 in
    if (maxToSkip <? 0)%Z then mret (add_note (Inferred i j pr) s)
    else compare_pair size cnt i j fi fj maxToSkip
           (add_note (Compared i j maxToSkip) s).

(** [for (j = i + 1, fj = fi->next; fj; ++j, fj = fj->next)] *)
Fixpoint loop_j (size : Z) (cnt i j : nat) (fi : fe) (fj : list fe)
    (s : bstate) : M bstate :=
  match fj with
  | [] => mret s
  | f :: next =>
      s ← pair_step size cnt i j fi f s;
      loop_j size cnt i (S j) fi next s
  end.

(** [for (i = 0, fi = node->files; i < cnt - 1; ++i, fi = fi->next)],
    with the chain [retval] that the rows push their groups on. *)
Fixpoint loop_i (size : Z) (cnt i : nat) (fi : list fe)
    (s : bstate) (retval : list dupNode) : M (bstate * list dupNode) :=
  match fi with
  | [] => mret (s, retval)
  | f :: next =>
      if bool_decide (i < cnt - 1) then
        if (fflags s !!! i : bool) then loop_i size cnt (S i) next s retval
        else
          s ← loop_j size cnt i (S i) f next s;
          match dn s with
          | Some d => loop_i size cnt (S i) next (set_dn None s) (d :: retval)
          | None => loop_i size cnt (S i) next s retval
          end
      else mret (s, retval)
  end.

(** What [chkForDups] does at one node, between the two recursive
    calls.
    - [cnt] is an [int]: a chain of [2^31] entries or more overflows
      it.
    - With [cnt < 2] the entries are freed by
      [for (fp = node->files; fp != NULL; fp = fp->next) free(fp);],
      which reads [fp->next] from the entry it has just freed: with an
      entry in the chain the behaviour is not defined.
    - [calloc(cnt * cnt, sizeof(long))] multiplies in [int]: the pair
      loops have a defined behaviour only if [cnt * cnt] fits. *)
Definition resolve_bucket (size : Z) (files : list fe) (retval : list dupNode)
  : M (list dupNode) :=
  let cnt := length files in
  if bool_decide (2 ^ 31 ≤ Z.of_nat cnt)%Z then ([], Abort)
  else if bool_decide (cnt < 2) then
    match files with
    | [] => mret retval
    | _ :: _ => ([], Abort)
    end
  else if negb (size =? 0)%Z then
    if bool_decide (Z.of_nat (cnt * cnt) < 2 ^ 31)%Z then
      '(_, retval) ← loop_i size cnt 0 files (init_bstate cnt) retval;
      mret retval
    else ([], Abort)
  else mret (DupNode 0 files :: retval).

Fixpoint chkForDups (node : Node) (retval : list dupNode) : M (list dupNode) :=
  match node with
  | NULL => mret retval
  | MkNode size _ files l r _ =>
      retval ← chkForDups l retval;
      retval ← resolve_bucket size files retval;
      chkForDups r retval
  end.

(** *** The driver *)

(** [FTW_F] of [<ftw.h>]. *)
Variable FTW_F : Z.
(** [nftw(dir, visit, 64, FTW_PHYS)]: the calls of [visit] it makes, in
    order, and its return value. *)
Variable nftw : string → list (string * stat * Z) * Z.

Fixpoint visit_all (root : Node) (calls : list (string * stat * Z)) : option Node :=
  match calls with
  | [] => Some root
  | (nm, st, flag) :: rest => root ← visit FTW_F root nm st flag; visit_all root rest
  end.

(** [for (i = 1; i < argc; ++i) { j = nftw(argv[i], ...); ... }] *)
Fixpoint scan_dirs (root : Node) (dirs : list string) : option Node :=
  match dirs with
  | [] => Some root
  | dir :: rest =>
      let '(calls, j) := nftw dir in
      root ← visit_all root calls;
      scan_dirs root rest
  end.

Definition print_group (d : dupNode) : list event :=
  EvPrintf "duplicates of size %ld
" [ArgLong (dsize d)]
  :: ((λ fp, EvPrintf "%s
" [ArgStr (name fp)]) <$> dfiles d).

(** [main]; [argv] is the whole vector, [argv[0]] included.  The
    outcome [Ret 0] is [return 0]. *)
Definition main (argv : list string) : M Z :=
  if bool_decide (length argv < 1) then
    ([EvStderr "usage: finddups dir1 [dir2 ... [dirN]]"], Exit 64)
  else
    match scan_dirs NULL (tail argv) with
    | None => ([], Abort)
    | Some root =>
        dups ← chkForDups root [];
        (concat (print_group <$> dups), Ret 0%Z)
    end.

End Resolver.

(** ** Specification-side definitions *)

(** *** The size index *)

(** What one [insert] does to the ascending list of buckets. *)
Fixpoint ins_bucket (nm : string) (st : stat) (bs : list (Z * list fe))
  : list (Z * list fe) :=
  match bs with
  | [] => [(st_size st, [newFileNode nm st])]
  | (s, fs) :: rest =>
      if (st_size st =? s)%Z then
        (s, if sameInode fs st then fs else newFileNode nm st :: fs) :: rest
      else if (st_size st <? s)%Z then (st_size st, [newFileNode nm st]) :: bs
      else (s, fs) :: ins_bucket nm st rest
  end.

(** Lookup of a size in a list of buckets. *)
Fixpoint assoc_bucket (sz : Z) (bs : list (Z * list fe)) : list fe :=
  match bs with
  | [] => []
  | (s, fs) :: rest => if (sz =? s)%Z then fs else assoc_bucket sz rest
  end.

(** The identities of size [sz] among the calls, in arrival order, each
    hard link of an identity already kept being dropped; [acc] is what
    has been kept so far. *)
Fixpoint arrivals (sz : Z) (calls : list (string * stat)) (acc : list fe)
  : list fe :=
  match calls with
  | [] => acc
  | (nm, st) :: rest =>
      if (st_size st =? sz)%Z && negb (sameInode acc st)
      then arrivals sz rest (acc ++ [newFileNode nm st])
      else arrivals sz rest acc
  end.

Definition arrival_order (sz : Z) (calls : list (string * stat)) : list fe :=
  arrivals sz calls [].

(** The key of an identity: device and inode. *)
Definition ident (f : fe) : Z * Z := (dev f, inode f).

(** The invariants of the tree: keys strictly ascending in order
    (a search tree), and the colour discipline of a left-leaning
    red-black tree with 4-nodes. *)
Definition keys_sorted (n : Node) : Prop :=
  StronglySorted Z.lt (fst <$> buckets n).

(** [rb n]: colours are 0 or 1, a red node has no red child, and a red
    right child comes with a red left child. *)
Fixpoint rb (n : Node) : Prop :=
  match n with
  | NULL => True
  | MkNode _ _ _ l r col =>
      (col = 0 ∨ col = 1)%Z ∧
      (col = 1%Z → isRed l = false ∧ isRed r = false) ∧
      (isRed r = true → isRed l = true) ∧
      rb l ∧ rb r
  end.

(** [arb n]: as [rb n], except that a red root may have a red left
    child; what a recursive call of [insertR] hands back to its caller. *)
Definition arb (n : Node) : Prop :=
  match n with
  | NULL => True
  | MkNode _ _ _ l r col =>
      (col = 0 ∨ col = 1)%Z ∧
      (col = 1%Z → isRed r = false) ∧
      (isRed r = true → isRed l = true) ∧
      rb l ∧ rb r
  end.

(** The tree invariant that [insert] maintains. *)
Definition tree_ok (n : Node) : Prop :=
  keys_sorted n ∧ rb n ∧ isRed n = false.

(** *** Runs *)

(** The operation and the path of a failed system call: the two strings
    [error_exit] is called with. *)
Definition failure_of (e : event) : option (string * string) :=
  match e with
  | EvOpen p false => Some ("Error opening "%string, p)
  | EvLseek p _ false => Some ("Error seeking in "%string, p)
  | EvRead p r => if (r <? 0)%Z then Some ("Error reading "%string, p) else None
  | _ => None
  end.

(** The [printf] calls of [main] that print the groups. *)
Definition group_output (e : event) : Prop :=
  match e with
  | EvPrintf fmt _ => fmt = "duplicates of size %ld
"%string ∨ fmt = "%s
"%string
  | _ => False
  end.

(** [reported LOG_USER m msg]: a system call of the run [m] has failed,
    and the last event of the run is the [syslog] call whose message
    [msg] is the operation and the path of a failed call. *)
Definition reported (LOG_USER : Z) {A} (m : M A) (msg : string) : Prop :=
  ∃ e op p t, e ∈ t ∧ failure_of e = Some (op, p) ∧ msg = op +:+ p ∧
              trace m = t ++ [EvSyslog LOG_USER msg].

(** What holds of every run of the resolver: it prints no group; if it
    exits, the status is 1, a failed call has been reported and the
    message holds no [%]; if it is killed, either no call has failed,
    or a failed call has been reported with a [%] in the message;
    otherwise no call has failed. *)
Definition clean_run (LOG_USER : Z) {A} (m : M A) : Prop :=
  Forall (λ e, ¬ group_output e) (trace m) ∧
  match result m with
  | Exit c =>
      c = 1%Z ∧ ∃ msg, reported LOG_USER m msg ∧ has_percent msg = false
  | Abort =>
      Forall (λ e, failure_of e = None) (trace m) ∨
      ∃ msg, reported LOG_USER m msg ∧ has_percent msg = true
  | _ => Forall (λ e, failure_of e = None) (trace m)
  end.

(** [ends m]: the run [m] ends, that is, the fuel of the model is
    enough for it. *)
Definition ends {A} (m : M A) : Prop := result m ≠ OutOfFuel.

(** *** Sizes that fit an [int] *)

Definition fits_int (n : nat) : Prop := (Z.of_nat n < 2 ^ 31)%Z.

(** What the read loop needs of [BUFSIZE]. *)
Definition chunk_ok (BUFSIZE : nat) : Prop := 0 < BUFSIZE ∧ fits_int BUFSIZE.

(** The comparisons of a run, read off its events: a comparison starts
    with the [open] of its first file directly followed by the [open] of
    its second file, and nothing else opens two files in a row. *)
Fixpoint compared_paths (t : list event) : list (string * string) :=
  match t with
  | [] => []
  | EvOpen a true :: t' =>
      match t' with
      | EvOpen b true :: _ => (a, b) :: compared_paths t'
      | _ => compared_paths t'
      end
  | _ :: t' => compared_paths t'
  end.

Definition is_open (e : event) : bool :=
  match e with EvOpen _ _ => true | _ => false end.

(** [starts_quiet t]: [t] is not empty and does not start with an
    [open]. *)
Definition starts_quiet (t : list event) : Prop :=
  match t with [] => False | e :: _ => is_open e = false end.

(** [within R m]: every comparison in the run [m] is of two paths
    related by [R], and if other events follow the run, no comparison
    spans the seam. *)
Definition within (R : string → string → Prop) {A} (m : M A) : Prop :=
  ∀ t a b, (a, b) ∈ compared_paths (trace m ++ t) →
           R a b ∨ (a, b) ∈ compared_paths t.

Definition both (N : string → Prop) (a b : string) : Prop := N a ∧ N b.

(** [same_bucket n a b]: some bucket of [n] has a file named [a] and a
    file named [b]. *)
Definition same_bucket (n : Node) (a b : string) : Prop :=
  ∃ s fs, (s, fs) ∈ buckets n ∧ a ∈ name <$> fs ∧ b ∈ name <$> fs.

(** [filed calls bs]: every file of every bucket of [bs] was inserted by
    one of the [calls], with the size of its bucket. *)
Definition filed (calls : list (string * stat)) (bs : list (Z * list fe)) : Prop :=
  ∀ s fs f, (s, fs) ∈ bs → f ∈ fs →
            ∃ st, (name f, st) ∈ calls ∧ st_size st = s.

(** *** The resolver on one bucket *)

(** The bytes of the file an identity names (none if it cannot be
    opened), and what it takes for the comparison of a file never to
    fail. *)
Definition data_of (fs : string → option file) (f : fe) : list byte :=
  match fs (name f) with Some fl => f_data fl | None => [] end.

Definition readable (fs : string → option file) (f : fe) : Prop :=
  ∃ fl, fs (name f) = Some fl ∧
        (∀ off, f_seek_ok fl off = true) ∧ (∀ pos, f_read_ok fl pos = true).

(** The byte-by-byte baseline: the pair grid of the resolver with its
    flags and its groups, where every surviving pair is compared in full
    and nothing is inferred or skipped. *)
Definition same_content (fs : string → option file) (fi fj : fe) : bool :=
  bool_decide (data_of fs fi = data_of fs fj).

Definition baseline_pair (fs : string → option file) (size : Z) (i j : nat)
    (fi fj : fe) (flags : list bool) (dn : option dupNode)
  : list bool * option dupNode :=
  if (flags !!! j : bool) then (flags, dn)
  else if same_content fs fi fj then
    let d := if (flags !!! i : bool) then dn else Some (addDupNode size fi dn) in
    (<[j := true]> (<[i := true]> flags), Some (addDupNode size fj d))
  else (flags, dn).

Fixpoint baseline_j (fs : string → option file) (size : Z) (i j : nat) (fi : fe)
    (fj : list fe) (flags : list bool) (dn : option dupNode)
  : list bool * option dupNode :=
  match fj with
  | [] => (flags, dn)
  | f :: next =>
      let '(flags, dn) := baseline_pair fs size i j fi f flags dn in
      baseline_j fs size i (S j) fi next flags dn
  end.

Fixpoint baseline_i (fs : string → option file) (size : Z) (cnt i : nat)
    (fi : list fe) (flags : list bool) (retval : list dupNode)
  : list bool * list dupNode :=
  match fi with
  | [] => (flags, retval)
  | f :: next =>
      if bool_decide (i < cnt - 1) then
        if (flags !!! i : bool) then baseline_i fs size cnt (S i) next flags retval
        else
          let '(flags, dn) := baseline_j fs size i (S i) f next flags None in
          match dn with
          | Some d => baseline_i fs size cnt (S i) next flags (d :: retval)
          | None => baseline_i fs size cnt (S i) next flags retval
          end
      else (flags, retval)
  end.

Definition baseline (fs : string → option file) (size : Z) (files : list fe)
    (retval : list dupNode) : list dupNode :=
  (baseline_i fs size (length files) 0 files (replicate (length files) false) retval).2.

(** What the read loop finds on the bytes [x] and [y] that lie ahead of
    the two descriptors: the number of bytes of the chunks that matched,
    and whether the end of both was reached. *)
Fixpoint match_loop (fuel B : nat) (x y : list byte) : nat * bool :=
  match fuel with
  | O => (0, false)
  | S fuel =>
      let cx := take B x in
      let cy := take B y in
      if decide (cx = cy) then
        if decide (cx = []) then (0, true)
        else let '(m, r) := match_loop fuel B (drop B x) (drop B y) in
             (length cx + m, r)
      else (0, false)
  end.

(** What the read loop on the pair [(i, j)], started with both
    descriptors at offset [p] and the bytes [x] and [y] ahead, makes of
    the state [s]: [m] more bytes in the cell, both files grouped if
    [same], and a note for each write. *)
Definition loop_post (size : Z) (cnt i j : nat) (fi fj : fe) (p : nat)
    (m : nat) (same : bool) (s s' : bstate) : Prop :=
  ar s' = <[i * cnt + j := (cell cnt (ar s) i j + Z.of_nat m)%Z]> (ar s) ∧
  fflags s' = (if same then <[j := true]> (<[i := true]> (fflags s)) else fflags s) ∧
  dn s' = (if same
           then Some (addDupNode size fj
                        (if (fflags s !!! i : bool) then dn s
                         else Some (addDupNode size fi (dn s))))
           else dn s) ∧
  ∃ w, notes s' = w ++ notes s ∧
       Forall (λ n, ∃ off, n = Wrote i j (cell cnt (ar s) i j + Z.of_nat (off - p)) off ∧
                           p ≤ off ≤ p + m) w ∧
       (0 < m → Wrote i j (cell cnt (ar s) i j + Z.of_nat m) (p + m) ∈ w).

#[global] Instance fe_inhabited : Inhabited fe := populate (FE EmptyString 0 0).

(** [matched fs B fi fj skip]: what the read loop finds when [fi] and
    [fj] are compared from the offset [skip] on. *)
Definition matched (fs : string → option file) (B : nat) (fi fj : fe) (skip : Z)
  : nat * bool :=
  match_loop (S (length (data_of fs fi))) B
    (drop (Z.to_nat skip) (data_of fs fi)) (drop (Z.to_nat skip) (data_of fs fj)).

Section Invariants.

Variable fs : string → option file.
Variable B : nat.
Variable files : list fe.

(** The bytes of the file of index [k]. *)
Definition dat (k : nat) : list byte := data_of fs (files !!! k).

(** The value that row [i] leaves in its cell of an unflagged column
    [a], given the rows below [i]. *)
Definition row_entry (ar : list Z) (i a : nat) : Z :=
  let '(m, _) := scan_rows i 0 (length files) i a ar 0 in
  if (m <? 0)%Z then 0%Z
  else Z.of_nat (matched fs B (files !!! i) (files !!! a) m).1.

(** The ledger has its size, and a cell [(pr, a)] never exceeds the
    length of the common prefix of the files [pr] and [a]. *)
Definition ledger_ok (s : bstate) : Prop :=
  length (ar s) = length files * length files ∧
  length (fflags s) = length files ∧
  ∀ pr a, pr < a < length files →
    (0 ≤ cell (length files) (ar s) pr a ≤ Z.of_nat (length (dat pr)))%Z ∧
    take (Z.to_nat (cell (length files) (ar s) pr a)) (dat pr)
    = take (Z.to_nat (cell (length files) (ar s) pr a)) (dat a).

(** In the rows below [i], two unflagged columns of equal content have
    equal cells. *)
Definition det_rows (i : nat) (s : bstate) : Prop :=
  ∀ pr a b, pr < i → pr < a < length files → pr < b < length files →
    fflags s !!! a = false → fflags s !!! b = false → dat a = dat b →
    cell (length files) (ar s) pr a = cell (length files) (ar s) pr b.

(** The same, between the file [i] of the current row and an unflagged
    column. *)
Definition det_leader (i : nat) (s : bstate) : Prop :=
  ∀ pr b, pr < i → i < b < length files →
    fflags s !!! b = false → dat i = dat b →
    cell (length files) (ar s) pr i = cell (length files) (ar s) pr b.

(** In row [i], the cells of the unflagged columns below [j] are what
    the row computes. *)
Definition row_spec (i j : nat) (s : bstate) : Prop :=
  ∀ a, i < a < j → a < length files → fflags s !!! a = false →
    cell (length files) (ar s) i a = row_entry (ar s) i a.

(** The cells of row [i] from column [j] on, and of the rows above
    [i], are still zero. *)
Definition zero_from (i j : nat) (s : bstate) : Prop :=
  ∀ pr a, pr < length files → a < length files →
    i < pr ∨ (pr = i ∧ j ≤ a) →
    cell (length files) (ar s) pr a = 0%Z.

(** What the notes say is true of the files. *)
Definition note_ok (ns : list note) (n : note) : Prop :=
  match n with
  | Inferred i j pr =>
      i < j < length files ∧ pr < i ∧ dat i ≠ dat j
  | Compared i j skip =>
      i < j < length files ∧ (0 ≤ skip)%Z ∧
      take (Z.to_nat skip) (dat i) = take (Z.to_nat skip) (dat j)
  | Wrote i j v off =>
      i < j < length files ∧
      ∃ skip, Compared i j skip ∈ ns ∧ (0 ≤ skip)%Z ∧
              v = (Z.of_nat off - skip)%Z ∧
              take off (dat i) = take off (dat j)
  end.

(** Every note is true, and a cell that is not zero holds the value of
    a noted write. *)
Definition notes_ok (s : bstate) : Prop :=
  Forall (note_ok (notes s)) (notes s) ∧
  ∀ pr a, pr < length files → a < length files →
    cell (length files) (ar s) pr a ≠ 0%Z →
    ∃ off, Wrote pr a (cell (length files) (ar s) pr a) off ∈ notes s.

(** The invariant of the [j] loop of row [i], before column [j]. *)
Definition col_inv (i j : nat) (s : bstate) : Prop :=
  ledger_ok s ∧ det_rows i s ∧ det_leader i s ∧ row_spec i j s ∧
  zero_from i j s ∧ notes_ok s.

(** The invariant of the [i] loop, before row [i]. *)
Definition row_inv (i : nat) (s : bstate) : Prop :=
  ledger_ok s ∧ det_rows i s ∧ zero_from i 0 s ∧ notes_ok s ∧ dn s = None.

End Invariants.

(** *** The groups of the baseline *)

Section Groups.

Variable fs : string → option file.
Variable size : Z.
Variable files : list fe.

(** The group made of the files of the indices [I]. *)
Definition mk_group (I : list nat) : dupNode :=
  DupNode (int_of_long size) ((λ k, files !!! k) <$> I).

(** The columns after [i] and before [j] whose file has the content of
    the file [i]. *)
Definition twins (i j : nat) : list nat :=
  filter (λ a, dat fs files a = dat fs files i) (seq (S i) (j - S i)).

(** The groups [new] made by the rows below [i] and the flags they
    left: the groups are whole classes of files of equal content, no
    index is in two of them, the flagged indices are the grouped
    ones, and every index below [i] that has a later file of its
    content is grouped. *)
Definition groups_inv (i : nat) (flags : list bool) (new : list dupNode) : Prop :=
  ∃ Is : list (list nat),
    new = mk_group <$> Is ∧
    length flags = length files ∧
    (∀ k, k < length files → flags !!! k = true ↔ k ∈ concat Is) ∧
    NoDup (concat Is) ∧
    (∀ k, k ∈ concat Is → k < length files) ∧
    (∀ I k k', I ∈ Is → k ∈ I → k' ∈ I → dat fs files k = dat fs files k') ∧
    (∀ I k k', I ∈ Is → k ∈ I → k' < length files →
               dat fs files k' = dat fs files k → k' ∈ I) ∧
    (∀ I, I ∈ Is → 2 ≤ length I) ∧
    (∀ k k', k < i → k < k' < length files →
             dat fs files k = dat fs files k' → k ∈ concat Is).

(** The state of the baseline in row [i], before column [j]; [F0] are
    the flags the row started with. *)
Definition row_state (F0 : list bool) (i j : nat) (flags : list bool)
    (dn : option dupNode) : Prop :=
  length flags = length files ∧
  (∀ k, k < length files →
        flags !!! k = true ↔
        F0 !!! k = true ∨ (twins i j ≠ [] ∧ (k = i ∨ k ∈ twins i j))) ∧
  dn = (if decide (twins i j = []) then None
        else Some (mk_group (reverse (twins i j) ++ [i]))).

End Groups.

(** *** The whole resolver, by the baseline *)

(** A file that can be compared: it can be read, and its length fits
    an [int], so that no offset of an [lseek] is taken for an error. *)
Definition file_ok (fs : string → option file) (f : fe) : Prop :=
  readable fs f ∧ fits_int (length (data_of fs f)).

(** A bucket on which the resolver has a defined behaviour and meets no
    failure: it holds two entries at least, and if its size is not 0,
    the square of their number fits an [int] and its files can be
    compared. *)
Definition bucket_ok (fs : string → option file) (b : Z * list fe) : Prop :=
  2 ≤ length b.2 ∧ fits_int (length b.2) ∧
  (b.1 ≠ 0%Z → fits_int (length b.2 * length b.2) ∧ Forall (file_ok fs) b.2).

(** The groups of one bucket, and of the whole tree in the order
    [chkForDups] chains them: the groups of the larger sizes first. *)
Definition bucket_groups (fs : string → option file) (size : Z) (files : list fe)
  : list dupNode :=
  if bool_decide (length files < 2) then []
  else if negb (size =? 0)%Z then baseline fs size files []
  else [DupNode 0 files].

Fixpoint tree_groups (fs : string → option file) (n : Node) : list dupNode :=
  match n with
  | NULL => []
  | MkNode size _ files l r _ =>
      tree_groups fs r ++ bucket_groups fs size files ++ tree_groups fs l
  end.

(** All the entries of the tree. *)
Definition tree_files (n : Node) : list fe := concat (snd <$> buckets n).

(** *** The claims on the ledger, as stated *)

(** The cells that the scan behind a note has read: the columns [i] and
    [j] of the rows [0 .. pr] if row [pr] stopped it, of every row below
    [i] if it went through. *)
Definition consulted (n : note) : list (nat * nat) :=
  match n with
  | Inferred i j pr => q ← seq 0 (S pr); [(q, i); (q, j)]
  | Compared i j _ => q ← seq 0 i; [(q, i); (q, j)]
  | Wrote _ _ _ _ => []
  end.

(** A cell is recorded when its pair has been compared. *)
Definition recorded (ns : list note) (cell : nat * nat) : bool :=
  existsb (λ n, match n with
                | Compared pr a _ => bool_decide ((pr, a) = cell)
                | _ => false
                end) ns.

(** C1, last part, as stated: the inference consults recorded cells
    only. *)
Definition consults_recorded_only (ns : list note) : bool :=
  forallb (λ n, forallb (recorded ns) (consulted n)) ns.

(** C3, first part, as stated: what is stored in a cell is the number
    of bytes confirmed identical so far, the prefix skipped by the seek
    included, that is, the offset the two descriptors have reached. *)
Definition counts_skipped_prefix (ns : list note) : bool :=
  forallb (λ n, match n with
                | Wrote _ _ v off => (v =? Z.of_nat off)%Z
                | _ => true
                end) ns.

(** ** Example worlds *)

(** A readable file with the given content. *)
Definition plain_file (content : string) : file :=
  File (String.list_byte_of_string content) (λ _, true) (λ _, true).

(** A file system with three five-byte files, two of them equal. *)
Definition ex_fs (path : string) : option file :=
  if decide (path = "a"%string) then Some (plain_file "hello")
  else if decide (path = "b"%string) then Some (plain_file "hello")
  else if decide (path = "c"%string) then Some (plain_file "world")
  else None.

(** A walk of two directories: [nftw] fails on the first one after it
    has visited ["a"], and visits ["b"] and ["c"] in the second. *)
Definition ex_nftw (dir : string) : list (string * stat * Z) * Z :=
  if decide (dir = "d1"%string)
  then ([("a"%string, Stat 5 1 1, 0%Z)], (-1)%Z)
  else ([("b"%string, Stat 5 1 2, 0%Z); ("c"%string, Stat 5 1 3, 0%Z)], 0%Z).

(** A walk that visits two files of one size that cannot be opened. *)
Definition ex_nftw_unreadable (dir : string) : list (string * stat * Z) * Z :=
  ([("x"%string, Stat 9 1 4, 0%Z); ("y"%string, Stat 9 1 5, 0%Z)], 0%Z).

(** A file system for one bucket of five-byte files: ["p"], ["q"] and
    ["r"] hold the same bytes, ["s"] and ["t"] two other contents, which
    differ from the first and from each other within the first chunk;
    and two three-byte files ["u"] and ["v"]. *)
Definition ex_bucket_fs (path : string) : option file :=
  if decide (path ∈ ["p"; "q"; "r"]%string) then Some (plain_file "hello")
  else if decide (path = "s"%string) then Some (plain_file "world")
  else if decide (path = "t"%string) then Some (plain_file "would")
  else if decide (path = "u"%string) then Some (plain_file "abc")
  else if decide (path = "v"%string) then Some (plain_file "abd")
  else None.

(** A bucket whose files 0 and 1 are equal and whose files 2 and 3
    differ from them and from each other. *)
Definition ex_bucket : list fe :=
  [FE "p" 1 1; FE "q" 1 2; FE "s" 1 4; FE "t" 1 5].

(** An index of two buckets; three files of the larger one are equal. *)
Definition ex_tree : Node :=
  MkNode 5 1 [FE "p" 1 1; FE "q" 1 2; FE "r" 1 3; FE "s" 1 4]
    (MkNode 3 1 [FE "u" 1 6; FE "v" 1 7] NULL NULL 1) NULL 0.

(** Files of 2049 bytes, read in chunks of 1024: ["f0"], ["f1"] and
    ["f2"] start with the same chunk, the second chunk of ["f1"] and
    ["f2"] is the same and differs from that of ["f0"], and the last
    byte of each differs from the others; ["f3"] differs from them in
    the first chunk. *)
Definition ex_chunked_fs (path : string) : option file :=
  let chunk b := replicate 1024 b in
  let file_of d := Some (File d (λ _, true) (λ _, true)) in
  if decide (path = "f0"%string) then file_of (chunk x61 ++ chunk x63 ++ [x30])
  else if decide (path = "f1"%string) then file_of (chunk x61 ++ chunk x62 ++ [x31])
  else if decide (path = "f2"%string) then file_of (chunk x61 ++ chunk x62 ++ [x32])
  else if decide (path = "f3"%string) then file_of (chunk x64 ++ chunk x62 ++ [x33])
  else None.

Definition ex_chunked : list fe := [FE "f0" 1 1; FE "f1" 1 2; FE "f2" 1 3].

(** A bucket in which the inference rules a pair out: ["f0"] shares its
    first chunk with ["f1"] and nothing with ["f3"]. *)
Definition ex_inferred : list fe := [FE "f0" 1 1; FE "f1" 1 2; FE "f3" 1 4].

(** ** Further properties: definitions *)

(** The number of nodes on the longest path from [n] down to a null
    pointer. *)
Fixpoint height (n : Node) : nat :=
  match n with
  | NULL => 0
  | MkNode _ _ _ l r _ => S (height l `max` height r)
  end.

(** The number of black nodes on the paths from [n] down to a null
    pointer, if it is the same on all of them. *)
Fixpoint black_height (n : Node) : option nat :=
  match n with
  | NULL => Some 0
  | MkNode _ _ _ l r col =>
      hl ← black_height l;
      hr ← black_height r;
      if decide (hl = hr) then Some (if (col =? 0)%Z then S hl else hl)
      else None
  end.

(** The calls of [visit] that report a regular file. *)
Definition regular (FTW_F : Z) (calls : list (string * stat * Z))
  : list (string * stat) :=
  omap (λ c, if (c.2 =? FTW_F)%Z then Some c.1 else None) calls.

(** The path of a system call on a file. *)
Definition path_of (e : event) : option string :=
  match e with
  | EvOpen p _ | EvLseek p _ _ | EvRead p _ | EvClose p => Some p
  | _ => None
  end.

(** The number of [open] calls among the events [t]. *)
Definition opens (t : list event) : nat :=
  length (filter (λ e, is_open e = true) t).

(** The descriptors open after the events [t], [d] of them being open
    before; [None] if at some point a third file is opened, a [close]
    comes with no file open, or an [lseek] or a [read] with fewer than
    two files open. *)
Fixpoint fd_depth (d : nat) (t : list event) : option nat :=
  match t with
  | [] => Some d
  | EvOpen _ true :: t => if decide (d < 2) then fd_depth (S d) t else None
  | EvClose _ :: t => match d with O => None | S d => fd_depth d t end
  | EvLseek _ _ _ :: t | EvRead _ _ :: t =>
      if decide (d = 2) then fd_depth d t else None
  | _ :: t => fd_depth d t
  end.

(** The files of a bucket that the pair loops are run on. *)
Definition compared_bucket (b : Z * list fe) : Prop :=
  b.1 ≠ 0%Z ∧ 2 ≤ length b.2.

(** [moves d d' m]: started with [d] descriptors open, the run [m]
    keeps to the discipline of [fd_depth], and has [d'] of them open
    if it returns. *)
Definition moves (d d' : nat) {A} (m : M A) : Prop :=
  ∃ e, fd_depth d (trace m) = Some e ∧ ∀ a, result m = Ret a → e = d'.

(** [on_paths N m]: every system call of the run [m] is on a path in
    [N]. *)
Definition on_paths (N : string → Prop) {A} (m : M A) : Prop :=
  Forall (λ e, ∀ p, path_of e = Some p → N p) (trace m).

(** A walk that visits the three files of [ex_fs] and, with another
    flag, a directory. *)
Definition ex_nftw_plain (dir : string) : list (string * stat * Z) * Z :=
  ([("sub"%string, Stat 4096 1 9, 1%Z); ("a"%string, Stat 5 1 1, 0%Z);
    ("b"%string, Stat 5 1 2, 0%Z); ("c"%string, Stat 5 1 3, 0%Z)], 0%Z).

(** Files of two sizes: ["p"] and ["q"] hold the same five bytes, ["u"]
    and ["u2"] the same three, ["v"] three others; the calls that file
    them, and the tree these calls build. *)
Definition ex_sizes_fs (path : string) : option file :=
  if decide (path = "u2"%string) then ex_bucket_fs "u" else ex_bucket_fs path.

Definition ex_sizes_calls : list (string * stat) :=
  [("u"%string, Stat 3 1 6); ("p"%string, Stat 5 1 1); ("v"%string, Stat 3 1 7);
   ("q"%string, Stat 5 1 2); ("u2"%string, Stat 3 1 8)].

Definition ex_sizes_tree : Node :=
  Eval cbv in default NULL (insert_all NULL ex_sizes_calls).

(** Two names of one file, and a second file of the same content. *)
Definition ex_links_calls : list (string * stat) :=
  [("p"%string, Stat 5 1 1); ("q"%string, Stat 5 1 2); ("r"%string, Stat 5 1 1)].

Definition ex_links_tree : Node :=
  Eval cbv in default NULL (insert_all NULL ex_links_calls).

(** The tree of the files that the walk [ex_nftw_plain] visits. *)
Definition ex_plain_tree : Node :=
  Eval cbv in default NULL
    (insert_all NULL [("a"%string, Stat 5 1 1); ("b"%string, Stat 5 1 2);
                      ("c"%string, Stat 5 1 3)]).

(** * Properties of the size index *)

Section Tree.

Local Open Scope Z_scope.

Implicit Types (n : Node) (nm : string) (st : stat) (bs : list (Z * list fe)).

Lemma buckets_set_color k n : buckets (set_color k n) = buckets n.
Proof. by destruct n. Qed.

Lemma rotateLeft_buckets h h' : rotateLeft h = Some h' → buckets h' = buckets h.
Proof.
  destruct h as [|s c fs l [|xs xc xfs xl xr xcol] col]; simpl; intros [= <-].
  simpl. by rewrite <- app_assoc.
Qed.

Lemma rotateRight_buckets h h' : rotateRight h = Some h' → buckets h' = buckets h.
Proof.
  destruct h as [|s c fs [|xs xc xfs xl xr xcol] r col]; simpl; intros [= <-].
  simpl. by rewrite <- app_assoc.
Qed.

Lemma fixUp_buckets n n' : fixUp n = Some n' → buckets n' = buckets n.
Proof.
  unfold fixUp. intros H.
  destruct (isRed (right_of n) && negb (isRed (left_of n))) eqn:E1; simpl in H.
  - destruct (rotateLeft n) as [n1|] eqn:E2; simpl in H; [|done].
    apply rotateLeft_buckets in E2. rewrite <- E2.
    destruct (isRed (left_of n1) && isRed (left_of (left_of n1))).
    + by apply rotateRight_buckets.
    + by injection H as <-.
  - destruct (isRed (left_of n) && isRed (left_of (left_of n))).
    + by apply rotateRight_buckets.
    + by injection H as <-.
Qed.

(** [ins_bucket] on a list split around a key. *)
Lemma ins_bucket_app_lt nm st bs1 s fs bs2 :
  Forall (λ k, k < s) (fst <$> bs1) → st_size st < s →
  ins_bucket nm st (bs1 ++ (s, fs) :: bs2) = ins_bucket nm st bs1 ++ (s, fs) :: bs2.
Proof.
  induction bs1 as [|[s1 fs1] bs1 IH]; simpl; intros Hall Hlt.
  - destruct (Z.eqb_spec (st_size st) s); [lia|].
    destruct (Z.ltb_spec (st_size st) s); [done|lia].
  - inversion Hall; subst.
    destruct (Z.eqb_spec (st_size st) s1); [done|].
    destruct (Z.ltb_spec (st_size st) s1); [done|].
    simpl. by rewrite IH.
Qed.

Lemma ins_bucket_app_gt nm st bs1 s fs bs2 :
  Forall (λ k, k < s) (fst <$> bs1) → s < st_size st →
  ins_bucket nm st (bs1 ++ (s, fs) :: bs2) = bs1 ++ (s, fs) :: ins_bucket nm st bs2.
Proof.
  induction bs1 as [|[s1 fs1] bs1 IH]; simpl; intros Hall Hlt.
  - destruct (Z.eqb_spec (st_size st) s); [lia|].
    destruct (Z.ltb_spec (st_size st) s); [lia|done].
  - inversion Hall; subst. simpl in *.
    destruct (Z.eqb_spec (st_size st) s1); [lia|].
    destruct (Z.ltb_spec (st_size st) s1); [lia|].
    by rewrite IH.
Qed.

Lemma ins_bucket_app_eq nm st bs1 fs bs2 :
  Forall (λ k, k < st_size st) (fst <$> bs1) →
  ins_bucket nm st (bs1 ++ (st_size st, fs) :: bs2)
  = bs1 ++ (st_size st, if sameInode fs st then fs else newFileNode nm st :: fs) :: bs2.
Proof.
  induction bs1 as [|[s1 fs1] bs1 IH]; simpl; intros Hall.
  - by rewrite Z.eqb_refl.
  - inversion Hall; subst. simpl in *.
    destruct (Z.eqb_spec (st_size st) s1); [lia|].
    destruct (Z.ltb_spec (st_size st) s1); [lia|].
    by rewrite IH.
Qed.

Lemma sorted_app_inv (l1 l2 : list Z) x :
  StronglySorted Z.lt (l1 ++ x :: l2) →
  StronglySorted Z.lt l1 ∧ StronglySorted Z.lt l2 ∧
  Forall (λ k, k < x) l1 ∧ Forall (λ k, x < k) l2.
Proof.
  induction l1 as [|a l1 IH]; simpl; intros H.
  - inversion H; subst. repeat split; auto. constructor.
  - inversion H as [|? ? Hs Hf]; subst.
    destruct (IH Hs) as (H1 & H2 & H3 & H4).
    repeat split; auto.
    + constructor; auto. rewrite Forall_app in Hf. tauto.
    + constructor; auto. rewrite Forall_app, Forall_cons in Hf. tauto.
Qed.

Lemma keys_sorted_inv s c fs l r col :
  keys_sorted (MkNode s c fs l r col) →
  keys_sorted l ∧ keys_sorted r ∧
  Forall (λ k, k < s) (fst <$> buckets l) ∧
  Forall (λ k, s < k) (fst <$> buckets r).
Proof.
  unfold keys_sorted. simpl. rewrite fmap_app. simpl. apply sorted_app_inv.
Qed.

Lemma keys_sorted_set_color k n : keys_sorted (set_color k n) ↔ keys_sorted n.
Proof. unfold keys_sorted. by rewrite buckets_set_color. Qed.

(** In order, [insertR] is [ins_bucket]. *)
Lemma insertR_col_buckets n : ∀ col nm st n',
  keys_sorted n → insertR_col col n nm st = Some n' →
  buckets n' = ins_bucket nm st (buckets n).
Proof.
  induction n as [|s c fs l IHl r IHr col0]; intros col nm st n' Hs H.
  - simpl in H. by injection H as <-.
  - destruct (keys_sorted_inv _ _ _ _ _ _ Hs) as (Hsl & Hsr & Hl & Hr).
    simpl in H. cbn [buckets]. destruct (Z.eqb_spec (st_size st) s) as [<-|Hne].
    + rewrite ins_bucket_app_eq by done.
      destruct (sameInode fs st); by injection H as <-.
    + destruct (isRed l && isRed r &&
                negb ((col =? 0) && (color_of l =? 1) && (color_of r =? 1))); [done|].
      destruct (Z.ltb_spec (st_size st) s) as [Hlt|Hge].
      * destruct (insertR_col _ l nm st) as [l'|] eqn:El; simpl in H; [|done].
        apply fixUp_buckets in H. rewrite H. simpl.
        rewrite buckets_set_color, (IHl _ _ _ _ Hsl El).
        by rewrite ins_bucket_app_lt.
      * destruct (insertR_col _ r nm st) as [r'|] eqn:Er; simpl in H; [|done].
        apply fixUp_buckets in H. rewrite H. simpl.
        rewrite buckets_set_color, (IHr _ _ _ _ Hsr Er).
        rewrite ins_bucket_app_gt; [done|done|lia].
Qed.

Lemma ins_bucket_keys nm st bs k :
  k ∈ fst <$> ins_bucket nm st bs → k = st_size st ∨ k ∈ fst <$> bs.
Proof.
  induction bs as [|[s fs] bs IH]; simpl.
  - rewrite list_elem_of_singleton. auto.
  - destruct (Z.eqb_spec (st_size st) s); simpl.
    + rewrite !elem_of_cons. tauto.
    + destruct (Z.ltb_spec (st_size st) s); simpl.
      * rewrite !elem_of_cons. tauto.
      * rewrite !elem_of_cons. tauto.
Qed.

Lemma ins_bucket_sorted nm st bs :
  StronglySorted Z.lt (fst <$> bs) →
  StronglySorted Z.lt (fst <$> ins_bucket nm st bs).
Proof.
  induction bs as [|[s fs] bs IH]; simpl; intros H.
  - repeat constructor.
  - inversion H as [|? ? Hs Hf]; subst.
    destruct (Z.eqb_spec (st_size st) s); simpl; [done|].
    destruct (Z.ltb_spec (st_size st) s); simpl.
    + constructor; [done|]. constructor; [done|].
      eapply Forall_impl; [exact Hf|]. simpl. intros; lia.
    + constructor; [by apply IH|].
      rewrite Forall_forall. intros k Hk.
      apply ins_bucket_keys in Hk as [->|Hk]; [lia|].
      rewrite Forall_forall in Hf. by apply Hf.
Qed.

Lemma insertR_keys_sorted n nm st n' :
  keys_sorted n → insertR n nm st = Some n' → keys_sorted n'.
Proof.
  intros Hs H. unfold keys_sorted.
  rewrite (insertR_col_buckets _ _ _ _ _ Hs H). by apply ins_bucket_sorted.
Qed.

Lemma insert_buckets root nm st root' :
  keys_sorted root → insert root nm st = Some root' →
  buckets root' = ins_bucket nm st (buckets root).
Proof.
  unfold insert. intros Hs H.
  destruct (insertR root nm st) as [n'|] eqn:E; simpl in H; [|done].
  injection H as <-. rewrite buckets_set_color.
  by apply (insertR_col_buckets _ _ _ _ _ Hs E).
Qed.

Lemma insert_keys_sorted root nm st root' :
  keys_sorted root → insert root nm st = Some root' → keys_sorted root'.
Proof.
  intros Hs H. unfold keys_sorted.
  rewrite (insert_buckets _ _ _ _ Hs H). by apply ins_bucket_sorted.
Qed.

(** The search of [insertR] finds what the ordered list holds. *)
Lemma assoc_bucket_notin sz bs : sz ∉ fst <$> bs → assoc_bucket sz bs = [].
Proof.
  induction bs as [|[s fs] bs IH]; simpl; [done|].
  rewrite not_elem_of_cons. intros [Hne Hnin].
  destruct (Z.eqb_spec sz s); [done|]. by apply IH.
Qed.

Lemma assoc_bucket_app_l sz bs1 bs2 :
  sz ∉ fst <$> bs1 → assoc_bucket sz (bs1 ++ bs2) = assoc_bucket sz bs2.
Proof.
  induction bs1 as [|[s fs] bs1 IH]; simpl; [done|].
  rewrite not_elem_of_cons. intros [Hne Hnin].
  destruct (Z.eqb_spec sz s); [done|]. by apply IH.
Qed.

Lemma assoc_bucket_app_r sz bs1 bs2 :
  sz ∉ fst <$> bs2 → assoc_bucket sz (bs1 ++ bs2) = assoc_bucket sz bs1.
Proof.
  intros Hnin. induction bs1 as [|[s fs] bs1 IH]; simpl.
  - by apply assoc_bucket_notin.
  - by rewrite IH.
Qed.

Lemma Forall_lt_notin (l : list Z) x y :
  Forall (λ k, k < x) l → x ≤ y → y ∉ l.
Proof.
  rewrite Forall_forall. intros H Hle Hin. specialize (H _ Hin). simpl in H. lia.
Qed.

Lemma Forall_gt_notin (l : list Z) x y :
  Forall (λ k, x < k) l → y ≤ x → y ∉ l.
Proof.
  rewrite Forall_forall. intros H Hle Hin. specialize (H _ Hin). simpl in H. lia.
Qed.

Lemma bucket_of_assoc n sz :
  keys_sorted n → bucket_of n sz = assoc_bucket sz (buckets n).
Proof.
  induction n as [|s c fs l IHl r IHr col]; intros Hs; [done|].
  destruct (keys_sorted_inv _ _ _ _ _ _ Hs) as (Hsl & Hsr & Hl & Hr).
  simpl. destruct (Z.eqb_spec sz s) as [->|Hne].
  - rewrite assoc_bucket_app_l by (eapply Forall_lt_notin; [done|lia]).
    simpl. by rewrite Z.eqb_refl.
  - destruct (Z.ltb_spec sz s).
    + rewrite assoc_bucket_app_r; [by apply IHl|].
      simpl. rewrite not_elem_of_cons. split; [done|].
      eapply Forall_gt_notin; [done|lia].
    + rewrite assoc_bucket_app_l by (eapply Forall_lt_notin; [done|lia]).
      simpl. destruct (Z.eqb_spec sz s); [done|]. by apply IHr.
Qed.

Lemma assoc_ins_bucket sz nm st bs :
  StronglySorted Z.lt (fst <$> bs) →
  assoc_bucket sz (ins_bucket nm st bs)
  = if sz =? st_size st
    then if sameInode (assoc_bucket sz bs) st then assoc_bucket sz bs
         else newFileNode nm st :: assoc_bucket sz bs
    else assoc_bucket sz bs.
Proof.
  induction bs as [|[s fs] bs IH]; simpl; intros Hs.
  - by destruct (Z.eqb_spec sz (st_size st)).
  - inversion Hs as [|? ? Hs' Hf]; subst.
    destruct (Z.eqb_spec (st_size st) s) as [<-|Hne]; simpl.
    + by destruct (Z.eqb_spec sz (st_size st)).
    + destruct (Z.ltb_spec (st_size st) s); simpl.
      * destruct (Z.eqb_spec sz (st_size st)) as [->|]; [|done].
        destruct (Z.eqb_spec (st_size st) s); [done|].
        rewrite assoc_bucket_notin; [done|].
        eapply Forall_gt_notin; [done|lia].
      * rewrite IH by done. destruct (Z.eqb_spec sz s) as [->|]; [|done].
        by destruct (Z.eqb_spec s (st_size st)).
Qed.

(** One [insert], seen from the bucket of a size. *)
Lemma insert_bucket_of root nm st root' sz :
  keys_sorted root → insert root nm st = Some root' →
  bucket_of root' sz
  = if sz =? st_size st
    then if sameInode (bucket_of root sz) st then bucket_of root sz
         else newFileNode nm st :: bucket_of root sz
    else bucket_of root sz.
Proof.
  intros Hs H.
  rewrite !bucket_of_assoc by eauto using insert_keys_sorted.
  rewrite (insert_buckets _ _ _ _ Hs H). by apply assoc_ins_bucket.
Qed.

Lemma sameInode_spec fs st :
  sameInode fs st = true ↔ (st_dev st, st_ino st) ∈ ident <$> fs.
Proof.
  induction fs as [|f fs IH]; simpl.
  - split; [done|]. intros H. by apply elem_of_nil in H.
  - rewrite elem_of_cons. unfold ident at 1.
    destruct (Z.eqb_spec (dev f) (st_dev st)), (Z.eqb_spec (inode f) (st_ino st)); simpl;
      rewrite ?IH; split; auto; try (intros [[= ? ?]|?]; [lia|done]).
    intros _. left. congruence.
Qed.

Lemma sameInode_reverse fs st : sameInode (reverse fs) st = sameInode fs st.
Proof.
  apply eq_true_iff_eq. rewrite !sameInode_spec, fmap_reverse.
  apply elem_of_reverse.
Qed.

(** *** The colour discipline: no [assert] of [colorFlip] fails *)

Lemma isRed_color n : rb n → isRed n = true → color_of n = 1.
Proof.
  destruct n as [|s c fs l r col]; simpl; [done|].
  intros ([->| ->] & _); simpl; done.
Qed.

Lemma isRed_false_color n : arb n → isRed n = false → color_of n = 0.
Proof.
  destruct n as [|s c fs l r col]; simpl; [done|].
  intros ([->| ->] & _); simpl; done.
Qed.

Lemma rb_arb n : rb n → arb n.
Proof. destruct n; simpl; [done|]. tauto. Qed.

Lemma arb_rb n :
  arb n → isRed n && isRed (left_of n) = false → rb n.
Proof.
  destruct n as [|s c fs l r col]; simpl; [done|].
  intros ([->| ->] & H1 & H2 & H3 & H4); simpl; intros H; repeat split; auto; try done.
Qed.

Lemma rb_set_color_0 n : rb n → rb (set_color 0 n).
Proof. destruct n; simpl; [done|]. intros (_ & _ & ? & ? & ?). repeat split; auto; done. Qed.

Lemma arb_set_color_0 n : arb n → rb (set_color 0 n).
Proof. destruct n; simpl; [done|]. intros (_ & _ & ? & ? & ?). repeat split; auto; done. Qed.

Lemma set_color_id n : set_color (color_of n) n = n.
Proof. by destruct n. Qed.

Lemma isRed_set_color_0 n : isRed (set_color 0 n) = false.
Proof. by destruct n. Qed.

End Tree.

Section TreeColours.

Local Open Scope Z_scope.

(** The fix-ups after an insertion into the left child. *)
Lemma fixUp_left_black s c fs l' r0 :
  arb l' → rb r0 → isRed r0 = false →
  ∃ n', fixUp (MkNode s c fs l' r0 0) = Some n' ∧ rb n' ∧ isRed n' = false.
Proof.
  intros Hl' Hr0 Hb. unfold fixUp. simpl. rewrite Hb. simpl.
  destruct (isRed l' && isRed (left_of l')) eqn:E.
  - destruct l' as [|xs xc xfs xl xr xcol]; [done|]. simpl in *.
    eexists. split; [reflexivity|]. simpl.
    destruct Hl' as ([->| ->] & H1 & H2 & H3 & H4); [done|]. simpl in E.
    rewrite Hb, (H1 eq_refl), E. repeat split; auto; done.
  - eexists. split; [reflexivity|]. simpl. rewrite Hb.
    pose proof (arb_rb _ Hl' E). repeat split; auto; done.
Qed.

Lemma fixUp_left_red s c fs l' r0 :
  rb l' → rb r0 → isRed r0 = false →
  ∃ n', fixUp (MkNode s c fs l' r0 1) = Some n' ∧ arb n' ∧
        (isRed l' = false → rb n').
Proof.
  intros Hl' Hr0 Hb. unfold fixUp. simpl. rewrite Hb. simpl.
  assert (isRed l' && isRed (left_of l') = false) as ->.
  { destruct l' as [|xs xc xfs xl xr xcol]; [done|]. simpl in *.
    destruct Hl' as ([->| ->] & H1 & _); [done|]. by destruct (H1 eq_refl) as [-> _]. }
  eexists. split; [reflexivity|]. simpl. rewrite Hb. repeat split; auto; done.
Qed.

(** The fix-ups after an insertion into the right child. *)
Lemma fixUp_right_black s c fs l0 r' :
  rb l0 → rb r' →
  ∃ n', fixUp (MkNode s c fs l0 r' 0) = Some n' ∧ rb n' ∧ isRed n' = false.
Proof.
  intros Hl0 Hr'. unfold fixUp. simpl.
  destruct (isRed r' && negb (isRed l0)) eqn:E.
  - destruct r' as [|xs xc xfs xl xr xcol]; [done|]. simpl in *.
    apply andb_true_iff in E as [E1 E2]. apply negb_true_iff in E2. rewrite E2. simpl.
    eexists. split; [reflexivity|]. simpl.
    destruct Hr' as ([->| ->] & H1 & H2 & H3 & H4); [done|].
    destruct (H1 eq_refl) as [Hxl Hxr]. rewrite E2, Hxl, Hxr.
    repeat split; auto; done.
  - simpl.
    assert (isRed l0 && isRed (left_of l0) = false) as ->.
    { destruct l0 as [|xs xc xfs xl xr xcol]; [done|]. simpl in *.
      destruct Hl0 as ([->| ->] & H1 & _); [done|]. by destruct (H1 eq_refl) as [-> _]. }
    eexists. split; [reflexivity|]. simpl. repeat split; auto; try done.
    intros Hr. rewrite Hr in E. by destruct (isRed l0).
Qed.

Lemma fixUp_right_red s c fs l0 r' :
  rb l0 → isRed l0 = false → rb r' →
  ∃ n', fixUp (MkNode s c fs l0 r' 1) = Some n' ∧ arb n' ∧
        (isRed r' = false → rb n').
Proof.
  intros Hl0 Hb Hr'. unfold fixUp. simpl. rewrite Hb. simpl.
  rewrite andb_true_r. destruct (isRed r') eqn:E.
  - destruct r' as [|xs xc xfs xl xr xcol]; [done|]. simpl. rewrite Hb. simpl.
    eexists. split; [reflexivity|]. simpl.
    simpl in Hr'. destruct Hr' as ([->| ->] & H1 & H2 & H3 & H4); [done|].
    destruct (H1 eq_refl) as [Hxl Hxr]. rewrite Hb, Hxl, Hxr.
    repeat split; auto; done.
  - simpl. rewrite Hb. simpl. eexists. split; [reflexivity|]. simpl. rewrite Hb, E.
    repeat split; auto; done.
Qed.

Lemma rb_red_children n :
  rb n → isRed n = true →
  isRed (left_of n) = false ∧ isRed (right_of n) = false.
Proof.
  destruct n as [|s c fs l r col]; [done|]. simpl.
  intros ([->| ->] & H & _); [done|]. intros _. by apply H.
Qed.

(** [insertR] on a node that satisfies [rb] once it carries the colour
    [col]: no [assert] fails, and the result is [arb]; it is [rb] when
    the node was black or null, and then red only if the node was null
    or a 4-node. *)
Lemma insertR_col_rb nm st n : ∀ col,
  rb (set_color col n) →
  ∃ n', insertR_col col n nm st = Some n' ∧ arb n' ∧
        (n = NULL → rb n') ∧
        (n ≠ NULL → col = 0 →
         rb n' ∧ (isRed n' = true →
                  isRed (left_of n) = true ∧ isRed (right_of n) = true)).
Proof.
  induction n as [|s c fs l IHl r IHr col0]; intros col Hrb.
  - eexists. split; [reflexivity|]. simpl. repeat split; auto; done.
  - simpl in Hrb. destruct Hrb as (Hcol & Hred & Hlean & Hl & Hr).
    cbn [insertR_col left_of right_of].
    destruct (Z.eqb_spec (st_size st) s) as [Heq|Hne].
    { assert (∀ fs', arb (MkNode s c fs' l r col)) as Ha by (intros; simpl; tauto).
      assert (∀ fs', col = 0 → rb (MkNode s c fs' l r col) ∧
                (isRed (MkNode s c fs' l r col) = true →
                 isRed l = true ∧ isRed r = true)) as Hb.
      { intros fs' ->. simpl. split; [|done]. tauto. }
      destruct (sameInode fs st); eexists; (split; [reflexivity|]);
        (split; [apply Ha|]); (split; [done|]); intros _; apply Hb. }
    destruct (isRed l && isRed r) eqn:Eflip; cbn [andb].
    + (* a 4-node: the colour flip *)
      apply andb_true_iff in Eflip as [Erl Err].
      assert (col = 0) as ->.
      { destruct Hcol as [->| ->]; [done|]. destruct (Hred eq_refl). congruence. }
      rewrite (isRed_color l), (isRed_color r) by done. cbn.
      destruct (Z.ltb_spec (st_size st) s).
      * destruct (IHl 0 (rb_set_color_0 _ Hl)) as (l' & -> & Hal' & _ & Hpost).
        destruct Hpost as (Hrl' & Hbl'); [by destruct l|done|].
        assert (isRed l' = false) as Hl'b.
        { destruct (isRed l') eqn:E; [|done]. destruct (Hbl' eq_refl) as [H1 H2].
          destruct (rb_red_children _ Hl Erl). congruence. }
        cbn.
        destruct (fixUp_left_red s c fs l' (set_color 0 r)) as (n' & -> & Han' & Hrn');
          auto using rb_set_color_0, isRed_set_color_0.
        exists n'. repeat split; auto; done.
      * destruct (IHr 0 (rb_set_color_0 _ Hr)) as (r' & -> & Har' & _ & Hpost).
        destruct Hpost as (Hrr' & Hbr'); [by destruct r|done|].
        assert (isRed r' = false) as Hr'b.
        { destruct (isRed r') eqn:E; [|done]. destruct (Hbr' eq_refl) as [H1 H2].
          destruct (rb_red_children _ Hr Err). congruence. }
        cbn.
        destruct (fixUp_right_red s c fs (set_color 0 l) r') as (n' & -> & Han' & Hrn');
          auto using rb_set_color_0, isRed_set_color_0.
        exists n'. repeat split; auto; done.
    + (* no flip *)
      rewrite !set_color_id.
      assert (isRed r = false) as Err.
      { destruct (isRed r) eqn:E; [|done]. rewrite (Hlean eq_refl) in Eflip. done. }
      destruct (Z.ltb_spec (st_size st) s).
      * assert (rb (set_color (color_of l) l)) as Hl0 by (by rewrite set_color_id).
        destruct (IHl _ Hl0) as (l' & -> & Hal' & Hnull & Hpost). cbn.
        destruct Hcol as [->| ->].
        -- destruct (fixUp_left_black s c fs l' r) as (n' & -> & Hrn' & Hbn'); auto.
           exists n'. split; [done|]. split; [by apply rb_arb|].
           split; [done|]. intros _ _. split; [done|]. congruence.
        -- destruct (Hred eq_refl) as [Erl _].
           assert (rb l') as Hrl'.
           { destruct l as [|ls lc lfs ll lr lcol]; [by apply Hnull|].
             apply Hpost; [done|]. by apply isRed_false_color; [apply rb_arb|]. }
           destruct (fixUp_left_red s c fs l' r) as (n' & -> & Han' & _); auto.
           exists n'. repeat split; auto; done.
      * assert (rb (set_color (color_of r) r)) as Hr0 by (by rewrite set_color_id).
        destruct (IHr _ Hr0) as (r' & -> & Har' & Hnull & Hpost). cbn.
        assert (rb r') as Hrr'.
        { destruct r as [|rs rc rfs rl rr rcol]; [by apply Hnull|].
          apply Hpost; [done|]. by apply isRed_false_color; [apply rb_arb|]. }
        destruct Hcol as [->| ->].
        -- destruct (fixUp_right_black s c fs l r') as (n' & -> & Hrn' & Hbn'); auto.
           exists n'. split; [done|]. split; [by apply rb_arb|].
           split; [done|]. intros _ _. split; [done|]. congruence.
        -- destruct (Hred eq_refl) as [Erl _].
           destruct (fixUp_right_red s c fs l r') as (n' & -> & Han' & _); auto.
           exists n'. repeat split; auto; done.
Qed.

(** [insert] keeps the tree invariant and never fails. *)
Lemma insert_tree_ok root nm st :
  tree_ok root → ∃ root', insert root nm st = Some root' ∧ tree_ok root'.
Proof.
  intros (Hs & Hrb & Hblack). unfold insert, insertR.
  assert (rb (set_color (color_of root) root)) as H0 by (by rewrite set_color_id).
  destruct (insertR_col_rb nm st root _ H0) as (n' & Hn' & Han' & _).
  rewrite Hn'. simpl. eexists. split; [reflexivity|].
  split; [|split].
  - apply keys_sorted_set_color. eapply insertR_keys_sorted; [exact Hs|exact Hn'].
  - by apply arb_set_color_0.
  - apply isRed_set_color_0.
Qed.

Lemma tree_ok_NULL : tree_ok NULL.
Proof. repeat split. constructor. Qed.

Lemma insert_all_tree_ok calls : ∀ root,
  tree_ok root → ∃ root', insert_all root calls = Some root' ∧ tree_ok root'.
Proof.
  induction calls as [|[nm st] calls IH]; intros root Hok; simpl.
  - eauto.
  - destruct (insert_tree_ok root nm st Hok) as (root1 & -> & Hok1). simpl.
    by apply IH.
Qed.

End TreeColours.

Section TreeClaims.

Local Open Scope Z_scope.

(** [insertR] in the shape of the source: the flip on the way down, the
    recursive call on the child of the (possibly flipped) node, the two
    fix-ups on the way up. *)
Lemma insertR_eq node nm st :
  insertR node nm st =
  match node with
  | NULL => Some (MkNode (st_size st) 1 [newFileNode nm st] NULL NULL 1)
  | MkNode s c fs l r col =>
      if st_size st =? s then
        if sameInode fs st then Some node
        else Some (MkNode s c (newFileNode nm st :: fs) l r col)
      else
        node ← (if isRed l && isRed r then colorFlip node else Some node);
        node ← (if st_size st <? s
                then l' ← insertR (left_of node) nm st;
                     Some (MkNode s c fs l' (right_of node) (color_of node))
                else r' ← insertR (right_of node) nm st;
                     Some (MkNode s c fs (left_of node) r' (color_of node)));
        fixUp node
  end.
Proof.
  destruct node as [|s c fs l r col]; [done|].
  unfold insertR. cbn [insertR_col color_of].
  destruct (st_size st =? s); [done|].
  destruct (isRed l && isRed r) eqn:Eflip; cbn [andb].
  - destruct l as [|ls lc lfs ll lr lcol]; [done|].
    destruct r as [|rs rc rfs rl rr rcol]; [by rewrite andb_false_r in Eflip|].
    cbn [colorFlip color_of].
    destruct ((col =? 0) && (lcol =? 1) && (rcol =? 1)); [|done].
    cbn. by destruct (st_size st <? s).
  - cbn. rewrite !set_color_id. by destruct (st_size st <? s).
Qed.

Lemma ins_bucket_NoDup nm st bs :
  Forall (λ b, NoDup (ident <$> b.2)) bs →
  Forall (λ b, NoDup (ident <$> b.2)) (ins_bucket nm st bs).
Proof.
  induction bs as [|[s fs] bs IH]; simpl; intros H.
  - repeat constructor. simpl. apply not_elem_of_nil.
  - inversion H as [|? ? Hfs Hbs]; subst. simpl in Hfs.
    destruct (st_size st =? s).
    + constructor; [|done]. simpl.
      destruct (sameInode fs st) eqn:E; [done|].
      rewrite fmap_cons. apply NoDup_cons. split; [|done].
      intros Hin. apply sameInode_spec in Hin. congruence.
    + destruct (st_size st <? s).
      * constructor; [|done]. simpl. repeat constructor. apply not_elem_of_nil.
      * constructor; [done|]. by apply IH.
Qed.

Lemma insert_all_buckets_NoDup calls : ∀ root root',
  tree_ok root → Forall (λ b, NoDup (ident <$> b.2)) (buckets root) →
  insert_all root calls = Some root' →
  Forall (λ b, NoDup (ident <$> b.2)) (buckets root').
Proof.
  induction calls as [|[nm st] calls IH]; simpl; intros root root' Hok Hnd H.
  - by injection H as <-.
  - destruct (insert_tree_ok root nm st Hok) as (root1 & E & Hok1).
    rewrite E in H. simpl in H.
    apply (IH root1); [done| |done].
    rewrite (insert_buckets _ _ _ _ (proj1 Hok) E). by apply ins_bucket_NoDup.
Qed.

Lemma insert_all_arrivals calls : ∀ root root' (acc : Z → list fe),
  tree_ok root → (∀ sz, bucket_of root sz = reverse (acc sz)) →
  insert_all root calls = Some root' →
  ∀ sz, bucket_of root' sz = reverse (arrivals sz calls (acc sz)).
Proof.
  induction calls as [|[nm st] calls IH]; simpl; intros root root' acc Hok Hacc H sz.
  - injection H as <-. apply Hacc.
  - destruct (insert_tree_ok root nm st Hok) as (root1 & E & Hok1).
    rewrite E in H. simpl in H.
    pose (acc1 := λ z, if (st_size st =? z) && negb (sameInode (acc z) st)
                       then acc z ++ [newFileNode nm st] else acc z).
    assert (∀ z, bucket_of root1 z = reverse (acc1 z)) as Hacc1.
    { intros z. rewrite (insert_bucket_of _ _ _ _ z (proj1 Hok) E), Hacc.
      unfold acc1. rewrite sameInode_reverse, (Z.eqb_sym (st_size st) z).
      destruct (z =? st_size st); [|done].
      destruct (sameInode (acc z) st); [done|]. simpl. by rewrite reverse_snoc. }
    rewrite (IH root1 root' acc1 Hok1 Hacc1 H sz). unfold acc1.
    by destruct ((st_size st =? sz) && negb (sameInode (acc sz) st)).
Qed.

Lemma ins_bucket_hard_link nm st bs :
  StronglySorted Z.lt (fst <$> bs) →
  sameInode (assoc_bucket (st_size st) bs) st = true → ins_bucket nm st bs = bs.
Proof.
  induction bs as [|[s fs] bs IH]; simpl; [done|]. intros Hs.
  inversion Hs as [|? ? Hs' Hf]; subst.
  destruct (Z.eqb_spec (st_size st) s) as [<-|Hne].
  - by intros ->.
  - intros H. destruct (Z.ltb_spec (st_size st) s).
    + rewrite assoc_bucket_notin in H; [done|].
      eapply Forall_gt_notin; [done|lia].
    + by rewrite IH.
Qed.

Lemma assoc_bucket_elem sz files bs :
  StronglySorted Z.lt (fst <$> bs) → (sz, files) ∈ bs → assoc_bucket sz bs = files.
Proof.
  induction bs as [|[s fs] bs IH]; simpl; [by intros _ ?%elem_of_nil|].
  intros Hs. inversion Hs as [|? ? Hs' Hf]; subst.
  rewrite elem_of_cons. intros [[= <- <-]|Hin].
  - by rewrite Z.eqb_refl.
  - destruct (Z.eqb_spec sz s) as [->|Hne]; [|by apply IH].
    rewrite Forall_forall in Hf.
    assert (s < s)%Z; [|lia]. apply Hf.
    apply list_elem_of_fmap. by exists (s, files).
Qed.

(** C2, as stated, fails: of two identities of one size, the one that
    arrived second is first in the bucket. *)
Lemma C2_counterexample :
  ∃ root,
    insert_all NULL [("a"%string, Stat 7 1 1); ("b"%string, Stat 7 1 2)] = Some root ∧
    arrival_order 7 [("a"%string, Stat 7 1 1); ("b"%string, Stat 7 1 2)]
      = [FE "a" 1 1; FE "b" 1 2] ∧
    bucket_of root 7 = [FE "b" 1 2; FE "a" 1 1] ∧
    bucket_of root 7
      ≠ arrival_order 7 [("a"%string, Stat 7 1 1); ("b"%string, Stat 7 1 2)].
Proof. eexists. repeat split. done. Qed.

(** C2 (amended): [insert] puts each new identity, unless it is a hard
    link of one already there, at the head of the chain of its size
    bucket; after any sequence of [insert] calls the files of every
    bucket are in reverse arrival order, the most recent first.  That
    chain is the list [chkForDups] walks from its head with the indices
    [0..cnt-1], so the indices of the resolver follow the reverse of
    the arrival order. *)
Theorem C2_bucket_is_reverse_arrival_order (calls : list (string * stat)) :
  ∃ root, insert_all NULL calls = Some root ∧
          (∀ sz, bucket_of root sz = reverse (arrival_order sz calls)) ∧
          (∀ sz files, (sz, files) ∈ buckets root →
                       files = reverse (arrival_order sz calls)).
Proof.
  destruct (insert_all_tree_ok calls NULL tree_ok_NULL) as (root & E & Hok).
  exists root. split; [done|].
  assert (∀ sz, bucket_of root sz = reverse (arrival_order sz calls)) as Hb.
  { intros sz. by apply (insert_all_arrivals calls NULL root (λ _, []) tree_ok_NULL). }
  split; [done|]. intros sz files Hin.
  rewrite <- Hb, bucket_of_assoc by apply Hok.
  symmetry. apply assoc_bucket_elem; [apply Hok|done].
Qed.

(** C7: after any sequence of [insert] calls (none of which fails), no
    bucket holds two entries of equal device and inode; and an [insert]
    of an identity whose device and inode are those of an entry of the
    bucket of its size leaves every bucket as it was. *)
Theorem C7_no_two_entries_share_device_and_inode (calls : list (string * stat)) :
  ∃ root, insert_all NULL calls = Some root ∧
          Forall (λ b, NoDup (ident <$> b.2)) (buckets root) ∧
          ∀ nm st,
            (st_dev st, st_ino st) ∈ ident <$> bucket_of root (st_size st) →
            ∃ root', insert root nm st = Some root' ∧ buckets root' = buckets root.
Proof.
  destruct (insert_all_tree_ok calls NULL tree_ok_NULL) as (root & E & Hok).
  exists root. split; [done|]. split.
  - apply (insert_all_buckets_NoDup calls NULL root tree_ok_NULL); [constructor|done].
  - intros nm st Hin.
    destruct (insert_tree_ok root nm st Hok) as (root' & E' & Hok').
    exists root'. split; [done|].
    rewrite (insert_buckets _ _ _ _ (proj1 Hok) E').
    apply ins_bucket_hard_link; [apply Hok|].
    apply sameInode_spec. by rewrite <- bucket_of_assoc by apply Hok.
Qed.

End TreeClaims.

(** * Runs of the resolver *)

Section Runs.

Context {A B : Type}.
Implicit Types (m : M A) (f : A → M B).

Lemma bind_Ret t a f : ((t, Ret a) : M A) ≫= f = before t (f a).
Proof. unfold mbind, M_bind, before. by destruct (f a). Qed.

Lemma bind_mret a f : mret a ≫= f = f a.
Proof. unfold mret, M_ret. rewrite bind_Ret. unfold before. by destruct (f a). Qed.

Lemma bind_before t m f : before t m ≫= f = before t (m ≫= f).
Proof.
  destruct m as [t' [a|c| |]]; try done.
  unfold before. cbn [fst snd]. rewrite !bind_Ret. unfold before.
  cbn [fst snd]. by rewrite app_assoc.
Qed.

Lemma before_before t1 t2 m : before t1 (before t2 m) = before (t1 ++ t2) m.
Proof. unfold before. cbn [fst snd]. by rewrite app_assoc. Qed.

Lemma bind_Exit t c f : ((t, Exit c) : M A) ≫= f = (t, Exit c).
Proof. done. Qed.

Lemma bind_result_Ret m f b :
  result (m ≫= f) = Ret b →
  ∃ a, result m = Ret a ∧ result (f a) = Ret b ∧
       trace (m ≫= f) = trace m ++ trace (f a).
Proof.
  destruct m as [t [a|c| |]]; try done.
  rewrite bind_Ret. simpl. eauto.
Qed.

Lemma bind_trace_Ret m f a :
  result m = Ret a →
  trace (m ≫= f) = trace m ++ trace (f a) ∧ result (m ≫= f) = result (f a).
Proof.
  destruct m as [t o]. unfold result at 1. cbn [snd]. intros ->.
  by rewrite bind_Ret.
Qed.

Lemma bind_not_Ret m f :
  (∀ a, result m ≠ Ret a) →
  trace (m ≫= f) = trace m ∧
  match result m with
  | Exit c => result (m ≫= f) = Exit c
  | Abort => result (m ≫= f) = Abort
  | OutOfFuel => result (m ≫= f) = OutOfFuel
  | Ret a => False
  end.
Proof. destruct m as [t [a|c| |]]; simpl; intros H; try done. by destruct (H a). Qed.

End Runs.

Section CleanRuns.

Variable BUFSIZE : nat.
Variable LOG_USER : Z.
Variable fs : string → option file.

Local Abbreviation clean := (clean_run LOG_USER).

Lemma bind_emit {B} e (g : unit → M B) : emit e ≫= g = before [e] (g tt).
Proof. unfold emit. by rewrite bind_Ret. Qed.

Lemma clean_mret {A} (a : A) : clean (mret a).
Proof. split; simpl; constructor. Qed.

Lemma reported_before {A} t (m : M A) msg :
  reported LOG_USER m msg → reported LOG_USER (before t m) msg.
Proof.
  intros (e & op & p & t' & He & Hf & Hmsg & Ht).
  exists e, op, p, (t ++ t'). unfold before, trace in *. cbn [fst snd] in *.
  rewrite Ht, elem_of_app, app_assoc. auto.
Qed.

Lemma clean_before {A} t (m : M A) :
  Forall (λ e, ¬ group_output e) t → Forall (λ e, failure_of e = None) t →
  clean m → clean (before t m).
Proof.
  intros Hg Hf [Hg' Hm]. split.
  - unfold before, trace in *. cbn [fst snd] in *. by apply Forall_app.
  - assert (Forall (λ e, failure_of e = None) (trace m) →
            Forall (λ e, failure_of e = None) (trace (before t m))) as Hq.
    { intros H. unfold before, trace in *. cbn [fst snd] in *. by apply Forall_app. }
    change (result (before t m)) with (result m).
    destruct (result m) as [b|c| |]; auto.
    + destruct Hm as (-> & msg & Hr & Hp). split; [done|].
      exists msg. split; [by apply reported_before|done].
    + destruct Hm as [Hm|(msg & Hr & Hp)]; [left; auto|right].
      exists msg. split; [by apply reported_before|done].
Qed.

Lemma clean_bind {A B} (m : M A) (f : A → M B) :
  clean m → (∀ a, clean (f a)) → clean (m ≫= f).
Proof.
  intros [Hg Hm] Hf. destruct m as [t [a|c| |]]; try (split; [exact Hg|exact Hm]).
  rewrite bind_Ret. by apply clean_before.
Qed.

(** A failed call is reported and the process exits, or is killed in
    [syslog]. *)
Lemma clean_error_exit {A} t e op p :
  Forall (λ e, ¬ group_output e) t → e ∈ t → failure_of e = Some (op, p) →
  clean (before t (error_exit LOG_USER op p : M A)).
Proof.
  intros Hg He Hf.
  assert (reported LOG_USER (before t (error_exit LOG_USER op p : M A)) (op +:+ p)) as Hr.
  { by exists e, op, p, t. }
  split.
  - unfold before, error_exit, trace. cbn [fst snd].
    apply Forall_app. split; [done|]. apply Forall_singleton. simpl. tauto.
  - change (result (before t (error_exit LOG_USER op p : M A)))
      with (if has_percent (op +:+ p) then Abort else Exit 1 : outcome A).
    destruct (has_percent (op +:+ p)) eqn:Hp.
    + right. by exists (op +:+ p).
    + split; [done|]. by exists (op +:+ p).
Qed.

Lemma bind_error_exit {A B} op p (g : A → M B) :
  error_exit LOG_USER op p ≫= g = error_exit LOG_USER op p.
Proof. unfold error_exit. by destruct (has_percent _). Qed.

Lemma do_read_path d : fd_path (do_read BUFSIZE d).2 = fd_path d.
Proof. unfold do_read. by destruct (f_read_ok _ _). Qed.

Local Ltac clean_events :=
  repeat constructor; simpl; try tauto;
  try (intros [H|H]; discriminate H).

(** The events before a call of [error_exit], in one list. *)
Local Ltac gather :=
  unfold sys_close;
  rewrite ?bind_emit, ?before_before, ?bind_before, ?bind_error_exit;
  cbn [app fd_path].

Lemma clean_read_loop fuel size cnt i j fi fj : ∀ fdi fdj s,
  fd_path fdi = name fi → fd_path fdj = name fj →
  clean (read_loop BUFSIZE LOG_USER fuel size cnt i j fi fj fdi fdj s).
Proof.
  induction fuel as [|fuel IH]; intros fdi fdj s Hi Hj.
  - split; simpl; constructor.
  - cbn [read_loop]. unfold sys_read. rewrite bind_Ret.
    pose proof (do_read_path fdi) as Hpi.
    destruct (do_read BUFSIZE fdi) as [[nri ibuff] fdi'].
    rewrite bind_Ret.
    pose proof (do_read_path fdj) as Hpj.
    destruct (do_read BUFSIZE fdj) as [[nrj jbuff] fdj'].
    cbn [fst snd] in *.
    destruct (Z.ltb_spec nri 0) as [Hni|Hni]; cbn [orb].
    { gather.
      apply (clean_error_exit _ (EvRead (fd_path fdi) nri) "Error reading " (name fi)).
      - clean_events.
      - apply list_elem_of_here.
      - simpl. rewrite Hi. by destruct (Z.ltb_spec nri 0); [|lia]. }
    destruct (Z.ltb_spec nrj 0) as [Hnj|Hnj]; cbn [orb].
    { gather.
      apply (clean_error_exit _ (EvRead (fd_path fdj) nrj) "Error reading " (name fj)).
      - clean_events.
      - apply list_elem_of_further, list_elem_of_here.
      - simpl. rewrite Hj. by destruct (Z.ltb_spec nrj 0); [|lia]. }
    assert (failure_of (EvRead (fd_path fdi) nri) = None) as Hfi
      by (simpl; by destruct (Z.ltb_spec nri 0); [lia|]).
    assert (failure_of (EvRead (fd_path fdj) nrj) = None) as Hfj
      by (simpl; by destruct (Z.ltb_spec nrj 0); [lia|]).
    do 2 (apply clean_before; [clean_events|by apply Forall_singleton|]).
    destruct (negb (nri =? nrj)%Z); [apply clean_mret|].
    destruct (negb (memcmp ibuff jbuff (Z.to_nat nri) =? 0)%Z); [apply clean_mret|].
    destruct (nri =? 0)%Z; [apply clean_mret|].
    apply IH; congruence.
Qed.

Lemma clean_closes {A} (fdi fdj : fd) (a : A) :
  clean (sys_close fdj;; sys_close fdi;; mret a).
Proof.
  gather. apply clean_before; [clean_events..|]. apply clean_mret.
Qed.

Lemma clean_compare_pair size cnt i j fi fj maxToSkip s :
  clean (compare_pair BUFSIZE LOG_USER fs size cnt i j fi fj maxToSkip s).
Proof.
  unfold compare_pair, sys_open, do_open. rewrite bind_Ret.
  destruct (fs (name fi)) as [fli|] eqn:Ei; cbn [fmap option_fmap option_map].
  2:{ gather.
      apply (clean_error_exit _ (EvOpen (name fi) false) "Error opening " (name fi));
        [clean_events|apply list_elem_of_here|done]. }
  rewrite bind_Ret.
  destruct (fs (name fj)) as [flj|] eqn:Ej; cbn [fmap option_fmap option_map].
  2:{ gather.
      apply (clean_error_exit _ (EvOpen (name fj) false) "Error opening " (name fj));
        [clean_events|apply list_elem_of_further, list_elem_of_here|done]. }
  apply clean_before; [clean_events..|].
  apply clean_before; [clean_events..|].
  destruct (Z.gtb_spec maxToSkip 0) as [Hpos|Hnpos].
  - unfold sys_lseek. rewrite bind_Ret.
    assert (∀ d, fd_path (do_lseek d maxToSkip).2 = fd_path d) as Hpath.
    { intros d. unfold do_lseek. by destruct (f_seek_ok _ _). }
    pose proof (Hpath (Fd (name fi) fli 0)) as Hpi.
    destruct (do_lseek (Fd (name fi) fli 0) maxToSkip) as [lsi fdi'].
    rewrite bind_Ret.
    pose proof (Hpath (Fd (name fj) flj 0)) as Hpj.
    destruct (do_lseek (Fd (name fj) flj 0) maxToSkip) as [lsj fdj'].
    cbn [fst snd fd_path] in *.
    destruct (Z.ltb_spec lsi 0) as [Hli|Hli]; cbn [orb negb].
    { gather.
      apply (clean_error_exit _ (EvLseek (name fi) maxToSkip false)
               "Error seeking in " (name fi));
        [clean_events|apply list_elem_of_here|done]. }
    destruct (Z.ltb_spec lsj 0) as [Hlj|Hlj]; cbn [orb negb].
    { gather.
      apply (clean_error_exit _ (EvLseek (name fj) maxToSkip false)
               "Error seeking in " (name fj));
        [clean_events|apply list_elem_of_further, list_elem_of_here|done]. }
    rewrite ?bind_before, bind_mret.
    apply clean_before; [clean_events..|].
    apply clean_before; [clean_events..|].
    apply clean_bind; [apply clean_read_loop; congruence|]. intros s'.
    apply clean_closes.
  - rewrite bind_mret.
    apply clean_bind; [by apply clean_read_loop|]. intros s'.
    apply clean_closes.
Qed.

Lemma clean_pair_step size cnt i j fi fj s :
  clean (pair_step BUFSIZE LOG_USER fs size cnt i j fi fj s).
Proof.
  unfold pair_step. destruct (fflags s !!! j); [apply clean_mret|].
  destruct (scan_rows _ _ _ _ _ _ _) as [maxToSkip pr].
  destruct (maxToSkip <? 0)%Z; [apply clean_mret|apply clean_compare_pair].
Qed.

Lemma clean_loop_j size cnt i fi fj : ∀ j s,
  clean (loop_j BUFSIZE LOG_USER fs size cnt i j fi fj s).
Proof.
  induction fj as [|f next IH]; intros j s; cbn [loop_j].
  - apply clean_mret.
  - apply clean_bind; [apply clean_pair_step|]. intros s'. apply IH.
Qed.

Lemma clean_loop_i size cnt fi : ∀ i s retval,
  clean (loop_i BUFSIZE LOG_USER fs size cnt i fi s retval).
Proof.
  induction fi as [|f next IH]; intros i s retval; cbn [loop_i].
  - apply clean_mret.
  - case_bool_decide; [|apply clean_mret].
    destruct (fflags s !!! i); [apply IH|].
    apply clean_bind; [apply clean_loop_j|]. intros s'.
    destruct (dn s'); apply IH.
Qed.

(** A run that is killed before any system call. *)
Lemma clean_killed {A} : clean (([], Abort) : M A).
Proof. split; [constructor|]. left. constructor. Qed.

Lemma clean_resolve_bucket size files retval :
  clean (resolve_bucket BUFSIZE LOG_USER fs size files retval).
Proof.
  unfold resolve_bucket. case_bool_decide; [apply clean_killed|].
  case_bool_decide; [destruct files; [apply clean_mret|apply clean_killed]|].
  destruct (negb (size =? 0)%Z); [|apply clean_mret].
  case_bool_decide; [|apply clean_killed].
  apply clean_bind; [apply clean_loop_i|]. intros [s' r]. apply clean_mret.
Qed.

Lemma clean_chkForDups node : ∀ retval,
  clean (chkForDups BUFSIZE LOG_USER fs node retval).
Proof.
  induction node as [|size c files l IHl r IHr col]; intros retval; cbn [chkForDups].
  - apply clean_mret.
  - apply clean_bind; [apply IHl|]. intros r1.
    apply clean_bind; [apply clean_resolve_bucket|]. intros r2. apply IHr.
Qed.

End CleanRuns.

(** * Every run ends *)

Section Ends.

Variable BUFSIZE : nat.
Variable LOG_USER : Z.
Variable fs : string → option file.

Lemma of_nat_ltb_0 n : (Z.of_nat n <? 0)%Z = false.
Proof. apply Z.ltb_ge. lia. Qed.

Lemma ends_mret {A} (a : A) : ends (mret a : M A).
Proof. done. Qed.

Lemma ends_bind {A B} (m : M A) (f : A → M B) :
  ends m → (∀ a, ends (f a)) → ends (m ≫= f).
Proof.
  destruct m as [t [a|c| |]]; try done. intros _ Hf.
  rewrite bind_Ret. exact (Hf a).
Qed.

Lemma ends_before {A} t (m : M A) : ends m → ends (before t m).
Proof. done. Qed.

Lemma ends_error_exit {A} op p : ends (error_exit LOG_USER op p : M A).
Proof. unfold ends, error_exit, result. cbn [snd]. by destruct (has_percent _). Qed.

(** The read loop ends: a turn that goes round again has read at least
    one byte of the first file, and the fuel is more than what is left
    of it. *)
Lemma ends_read_loop fuel size cnt i j fi fj : ∀ fdi fdj s,
  length (f_data (fd_file fdi)) - fd_pos fdi < fuel →
  ends (read_loop BUFSIZE LOG_USER fuel size cnt i j fi fj fdi fdj s).
Proof.
  induction fuel as [|fuel IH]; intros fdi fdj s Hfuel; [lia|].
  cbn [read_loop]. unfold sys_read. rewrite !bind_Ret.
  assert (∀ d1 d2 p, ends (sys_close d1;; sys_close d2;;
            (error_exit LOG_USER "Error reading " p : M bstate))) as Hexit.
  { intros d1 d2 p. unfold sys_close, emit. rewrite !bind_Ret.
    do 2 apply ends_before. apply ends_error_exit. }
  unfold do_read.
  destruct (f_read_ok (fd_file fdi) (fd_pos fdi)),
           (f_read_ok (fd_file fdj) (fd_pos fdj));
    rewrite ?bind_Ret; cbn [fst snd]; do 2 apply ends_before.
  - destruct (_ || _); [apply Hexit|].
    destruct (negb (_ =? _)%Z); [done|].
    destruct (negb (memcmp _ _ _ =? 0)%Z); [done|].
    set (buf := take BUFSIZE (drop (fd_pos fdi) (f_data (fd_file fdi)))).
    destruct (Z.eqb_spec (int_of_long (Z.of_nat (length buf))) 0) as [|Hne]; [done|].
    apply IH. cbn [fd_file fd_pos].
    assert (length buf ≠ 0) by (intros E; by rewrite E in Hne).
    assert (length buf ≤ length (f_data (fd_file fdi)) - fd_pos fdi).
    { unfold buf. rewrite length_take, length_drop. lia. }
    lia.
  - change (-1 <? 0)%Z with true. rewrite orb_true_r. apply Hexit.
  - change (-1 <? 0)%Z with true. cbn [orb]. apply Hexit.
  - change (-1 <? 0)%Z with true. cbn [orb]. apply Hexit.
Qed.

Lemma ends_compare_pair size cnt i j fi fj maxToSkip s :
  ends (compare_pair BUFSIZE LOG_USER fs size cnt i j fi fj maxToSkip s).
Proof.
  unfold compare_pair, sys_open, do_open. rewrite bind_Ret.
  destruct (fs (name fi)) as [fli|]; cbn [fmap option_fmap option_map].
  2:{ unfold emit. rewrite bind_Ret. do 2 apply ends_before. apply ends_error_exit. }
  rewrite bind_Ret.
  destruct (fs (name fj)) as [flj|]; cbn [fmap option_fmap option_map].
  2:{ do 2 apply ends_before. apply ends_error_exit. }
  do 2 apply ends_before.
  assert (∀ fdi fdj,
    ends (s' ← read_loop BUFSIZE LOG_USER (S (length (f_data (fd_file fdi))))
                 size cnt i j fi fj fdi fdj s;
          sys_close fdj;; sys_close fdi;; mret s')) as Hloop.
  { intros fdi fdj. apply ends_bind; [apply ends_read_loop; lia|]. by intros s'. }
  destruct (maxToSkip >? 0)%Z; [|rewrite bind_mret; apply Hloop].
  unfold sys_lseek. rewrite bind_Ret.
  destruct (do_lseek _ _) as [lsi fdi']. rewrite bind_Ret.
  destruct (do_lseek _ _) as [lsj fdj']. cbn [fst snd].
  rewrite !bind_before. do 2 apply ends_before.
  destruct (_ || _); [|rewrite bind_mret; apply Hloop].
  apply ends_bind; [|intros [fdi fdj]; apply Hloop].
  unfold sys_close, emit. rewrite !bind_Ret. do 2 apply ends_before.
  apply ends_error_exit.
Qed.

Lemma ends_pair_step size cnt i j fi fj s :
  ends (pair_step BUFSIZE LOG_USER fs size cnt i j fi fj s).
Proof.
  unfold pair_step. destruct (fflags s !!! j); [done|].
  destruct (scan_rows _ _ _ _ _ _ _) as [maxToSkip pr].
  destruct (maxToSkip <? 0)%Z; [done|apply ends_compare_pair].
Qed.

Lemma ends_loop_j size cnt i fi fj : ∀ j s,
  ends (loop_j BUFSIZE LOG_USER fs size cnt i j fi fj s).
Proof.
  induction fj as [|f next IH]; intros j s; cbn [loop_j]; [done|].
  apply ends_bind; [apply ends_pair_step|]. intros s'. apply IH.
Qed.

Lemma ends_loop_i size cnt fi : ∀ i s retval,
  ends (loop_i BUFSIZE LOG_USER fs size cnt i fi s retval).
Proof.
  induction fi as [|f next IH]; intros i s retval; cbn [loop_i]; [done|].
  case_bool_decide; [|done].
  destruct (fflags s !!! i); [apply IH|].
  apply ends_bind; [apply ends_loop_j|]. intros s'.
  destruct (dn s'); apply IH.
Qed.

Lemma ends_resolve_bucket size files retval :
  ends (resolve_bucket BUFSIZE LOG_USER fs size files retval).
Proof.
  unfold resolve_bucket. case_bool_decide; [done|].
  case_bool_decide; [by destruct files|].
  destruct (negb (size =? 0)%Z); [|done].
  case_bool_decide; [|done].
  apply ends_bind; [apply ends_loop_i|]. by intros [s' r].
Qed.

(** The resolver never runs out of fuel, whatever the file system. *)
Lemma ends_chkForDups node : ∀ retval,
  ends (chkForDups BUFSIZE LOG_USER fs node retval).
Proof.
  induction node as [|size c files l IHl r IHr col]; intros retval;
    cbn [chkForDups]; [done|].
  apply ends_bind; [apply IHl|]. intros r1.
  apply ends_bind; [apply ends_resolve_bucket|]. intros r2. apply IHr.
Qed.

End Ends.

(** * The driver and the degenerate buckets *)

Section Main.

Variable BUFSIZE : nat.
Variable LOG_USER : Z.
Variable fs : string → option file.
Variable FTW_F : Z.
Variable nftw : string → list (string * stat * Z) * Z.

Lemma visit_all_tree_ok calls : ∀ root,
  tree_ok root → ∃ root', visit_all FTW_F root calls = Some root' ∧ tree_ok root'.
Proof.
  induction calls as [|[[nm st] flag] calls IH]; intros root Hok; cbn [visit_all].
  - eauto.
  - unfold visit. destruct (flag =? FTW_F)%Z.
    + destruct (insert_tree_ok root nm st Hok) as (root1 & -> & Hok1). by apply IH.
    + by apply IH.
Qed.

Lemma visit_all_app calls1 calls2 root :
  visit_all FTW_F root (calls1 ++ calls2)
  = visit_all FTW_F root calls1 ≫= λ root, visit_all FTW_F root calls2.
Proof.
  revert root. induction calls1 as [|[[nm st] flag] calls1 IH]; intros root; [done|].
  cbn [app visit_all]. destruct (visit FTW_F root nm st flag); [apply IH|done].
Qed.

(** Every directory is walked, whatever [nftw] returned for the ones
    before it. *)
Lemma scan_dirs_visit_all dirs : ∀ root,
  scan_dirs FTW_F nftw root dirs
  = visit_all FTW_F root (concat ((λ d, (nftw d).1) <$> dirs)).
Proof.
  induction dirs as [|d dirs IH]; intros root; [done|].
  cbn [scan_dirs fmap list_fmap concat]. rewrite visit_all_app.
  destruct (nftw d) as [calls j]. cbn [fst].
  destruct (visit_all FTW_F root calls); [apply IH|done].
Qed.

Local Abbreviation main' := (main BUFSIZE LOG_USER fs FTW_F nftw).

Lemma result_bind_not_Ret {A B} (m : M A) (f : A → M B) :
  (∀ a, result m ≠ Ret a) → ∀ b, result (m ≫= f) ≠ Ret b.
Proof. destruct m as [t [a|c| |]]; try done. intros H. by destruct (H a). Qed.

Lemma result_bind_not_Ret_r {A B} (m : M A) (f : A → M B) :
  (∀ a b, result (f a) ≠ Ret b) → ∀ b, result (m ≫= f) ≠ Ret b.
Proof.
  intros H. destruct m as [t [a|c| |]]; try done.
  rewrite bind_Ret. exact (H a).
Qed.

(** C6 (the defect): a bucket of one file is not passed over.  Its
    entry is freed and [fp->next] is then read from it, so a run of
    [chkForDups] on a tree with such a bucket never returns: it is
    killed there, if it has not exited on a failed call before.  A
    single bucket of size 0 with two files or more does yield, without
    a system call, the one group of size 0 that holds all its files. *)
Theorem C6_one_file_bucket_is_read_after_free (node : Node) (retval : list dupNode) :
  ((∃ size f, (size, [f]) ∈ buckets node) →
   ∀ r, result (chkForDups BUFSIZE LOG_USER fs node retval) ≠ Ret r) ∧
  (∀ c files col,
     node = MkNode 0 c files NULL NULL col → 2 ≤ length files → fits_int (length files) →
     chkForDups BUFSIZE LOG_USER fs node retval
     = ([], Ret (DupNode 0 files :: retval))).
Proof.
  split.
  - revert retval. induction node as [|size c files l IHl r IHr col]; intros retval.
    { by intros (? & ? & ?%elem_of_nil). }
    cbn [buckets chkForDups]. intros (sz & f & Hin).
    apply elem_of_app in Hin as [Hin|Hin].
    { apply result_bind_not_Ret, IHl. eauto. }
    apply result_bind_not_Ret_r. intros r1.
    apply elem_of_cons in Hin as [[= <- <-]|Hin].
    + apply result_bind_not_Ret. intros a. unfold resolve_bucket. cbn [length].
      case_bool_decide; [done|]. case_bool_decide; [done|lia].
    + apply result_bind_not_Ret_r. intros r2. apply IHr. eauto.
  - intros c files col -> Hlen Hfit. cbn [chkForDups]. rewrite bind_mret.
    unfold resolve_bucket, fits_int in *.
    case_bool_decide; [lia|]. case_bool_decide; [lia|].
    change (negb (0 =? 0)%Z) with false. cbn iota. by rewrite bind_mret.
Qed.

Lemma has_percent_app s1 s2 :
  has_percent (s1 +:+ s2) = has_percent s1 || has_percent s2.
Proof.
  induction s1 as [|c s1 IH]; simpl; [done|]. by rewrite IH, orb_assoc.
Qed.

Lemma failure_of_path e op p :
  failure_of e = Some (op, p) → path_of e = Some p ∧ has_percent op = false.
Proof.
  destruct e as [q [|]|q off [|]|q r|q|fmt args|s|pri msg]; cbn; try done.
  - by intros [= <- <-].
  - by intros [= <- <-].
  - destruct (r <? 0)%Z; [|done]. by intros [= <- <-].
Qed.

(** C9: if an [open], an [lseek] or a [read] fails during a run of
    [main], and no path that the run makes a system call on holds a
    [%], the process exits with status 1, the last thing it does is
    the [syslog] call whose message is the operation and the path of a
    failed call, and it prints no group.  (The message is passed as
    the format of [syslog]: with a [%] in the path the call has no
    defined behaviour.) *)
Theorem C9_io_failure_aborts_the_run (argv : list string) (e : event) (op p : string) :
  e ∈ trace (main' argv) → failure_of e = Some (op, p) →
  (∀ e' p', e' ∈ trace (main' argv) → path_of e' = Some p' → has_percent p' = false) →
  result (main' argv) = Exit 1 ∧
  (∃ e' op' p' t,
      e' ∈ t ∧ failure_of e' = Some (op', p') ∧
      trace (main' argv) = t ++ [EvSyslog LOG_USER (op' +:+ p')]) ∧
  Forall (λ e, ¬ group_output e) (trace (main' argv)).
Proof.
  unfold main. case_bool_decide.
  { cbn. intros He. apply list_elem_of_singleton in He as ->. done. }
  destruct (scan_dirs FTW_F nftw NULL (tail argv)) as [root|].
  2:{ cbn. intros He. by apply elem_of_nil in He. }
  destruct (clean_chkForDups BUFSIZE LOG_USER fs root []) as [Hg Hm].
  destruct (chkForDups BUFSIZE LOG_USER fs root []) as [t [dups|c| |]];
    unfold trace, result in *; cbn [fst snd] in *.
  - rewrite bind_Ret. unfold before. cbn [fst snd].
    intros He Hfail. exfalso. apply elem_of_app in He as [He|He].
    + rewrite Forall_forall in Hm. rewrite (Hm _ He) in Hfail. done.
    + apply list_elem_of_In, in_concat in He as (g & Hg' & He).
      apply list_elem_of_In in He, Hg'.
      apply list_elem_of_fmap in Hg' as (d & -> & _).
      unfold print_group in He. apply elem_of_cons in He as [->|He]; [done|].
      apply list_elem_of_fmap in He as (fp & -> & _). done.
  - intros _ _ _. destruct Hm as (-> & msg & (e' & op' & p' & t' & He' & Hf' & -> & Ht) & _).
    split; [done|]. split; [|done]. exists e', op', p', t'. unfold trace in Ht. auto.
  - intros He Hfail Hpaths. exfalso.
    destruct Hm as [Hm|(msg & (e' & op' & p' & t' & He' & Hf' & -> & Ht) & Hp)].
    + rewrite Forall_forall in Hm. rewrite (Hm _ He) in Hfail. done.
    + destruct (failure_of_path _ _ _ Hf') as [Hpath Hop].
      rewrite has_percent_app, Hop in Hp. cbn [orb] in Hp.
      rewrite (Hpaths e' p') in Hp; [done| |done].
      unfold trace in Ht. cbn [fst] in Ht. cbn. rewrite Ht, elem_of_app. auto.
  - intros He Hfail. exfalso.
    rewrite Forall_forall in Hm. rewrite (Hm _ He) in Hfail. done.
Qed.

End Main.

(** The two properties on the example worlds. *)

Lemma C6_one_file_bucket_is_read_after_free_witness :
  (∀ r, result (chkForDups 1024 8 ex_fs (MkNode 5 1 [FE "a" 1 1] NULL NULL 0) []) ≠ Ret r) ∧
  chkForDups 1024 8 ex_fs (MkNode 0 1 [FE "p" 1 1; FE "q" 1 2] NULL NULL 0) []
  = ([], Ret [DupNode 0 [FE "p" 1 1; FE "q" 1 2]]).
Proof.
  split.
  - apply (proj1 (C6_one_file_bucket_is_read_after_free 1024 8 ex_fs
                    (MkNode 5 1 [FE "a" 1 1] NULL NULL 0) [])).
    exists 5%Z, (FE "a" 1 1). cbn. apply list_elem_of_here.
  - apply (proj2 (C6_one_file_bucket_is_read_after_free 1024 8 ex_fs
                    (MkNode 0 1 [FE "p" 1 1; FE "q" 1 2] NULL NULL 0) [])
             1%Z [FE "p" 1 1; FE "q" 1 2] 0%Z); [reflexivity|simpl; lia|].
    unfold fits_int. simpl. lia.
Defined.

(** The run on the tree that one [insert] leaves: killed, before any
    system call. *)
Example one_file_is_read_after_free :
  ∃ root, insert_all NULL [("a"%string, Stat 5 1 1)] = Some root ∧
          chkForDups 1024 8 ex_fs root [] = ([], Abort).
Proof. eexists. split; reflexivity. Qed.

Lemma C9_io_failure_aborts_the_run_witness :
  result (main 1024 8 ex_fs 0 ex_nftw_unreadable ["finddups"; "d"]%string) = Exit 1 ∧
  (∃ e' op' p' t,
      e' ∈ t ∧ failure_of e' = Some (op', p') ∧
      trace (main 1024 8 ex_fs 0 ex_nftw_unreadable ["finddups"; "d"]%string)
      = t ++ [EvSyslog 8 (op' +:+ p')]) ∧
  Forall (λ e, ¬ group_output e)
    (trace (main 1024 8 ex_fs 0 ex_nftw_unreadable ["finddups"; "d"]%string)).
Proof.
  apply (C9_io_failure_aborts_the_run 1024 8 ex_fs 0 ex_nftw_unreadable
           ["finddups"; "d"]%string (EvOpen "y" false) "Error opening " "y").
  - vm_compute. apply list_elem_of_here.
  - reflexivity.
  - intros e' p' He. vm_compute in He.
    repeat (apply elem_of_cons in He as [->|He]); try (by intros [= <-]); try done.
    by apply elem_of_nil in He.
Defined.

(** A run in which a failed call is reported in full: the events, and
    the status. *)
Example failed_open_is_reported :
  main 1024 8 ex_fs 0 ex_nftw_unreadable ["finddups"; "d"]%string
  = ([EvOpen "y" false;
      EvPrintf "Error opening %s
" [ArgStr "y"];
      EvSyslog 8 "Error opening y"], Exit 1).
Proof. vm_compute. reflexivity. Qed.

(** The run of the example: the walk of ["d1"] fails after ["a"] was
    visited; ["a"] is still compared with the files of ["d2"], the
    group is printed and [main] returns 0. *)
Example main_after_failed_walk :
  main 1024 8 ex_fs 0 ex_nftw ["finddups"; "d1"; "d2"]%string
  = ([EvOpen "c" true; EvOpen "b" true; EvRead "c" 5; EvRead "b" 5;
      EvClose "b"; EvClose "c";
      EvOpen "c" true; EvOpen "a" true; EvRead "c" 5; EvRead "a" 5;
      EvClose "a"; EvClose "c";
      EvOpen "b" true; EvOpen "a" true; EvRead "b" 5; EvRead "a" 5;
      EvRead "b" 0; EvRead "a" 0; EvClose "a"; EvClose "b";
      EvPrintf "duplicates of size %ld
" [ArgLong 5];
      EvPrintf "%s
" [ArgStr "a"];
      EvPrintf "%s
" [ArgStr "b"]], Ret 0%Z).
Proof. vm_compute. reflexivity. Qed.

(** * Comparisons stay inside a bucket *)

Section Partition.

Variable BUFSIZE : nat.
Variable LOG_USER : Z.
Variable fs : string → option file.

(** [quiet t]: no [open] in [t]. *)
Local Abbreviation quiet := (Forall (λ e, is_open e = false)).

Lemma compared_paths_quiet t : quiet t → compared_paths t = [].
Proof.
  induction 1 as [|e t He Ht IH]; [done|].
  destruct e as [p [|]| | | | | |]; try done.
Qed.

Lemma compared_paths_quiet_app t1 t2 :
  quiet t1 → compared_paths (t1 ++ t2) = compared_paths t2.
Proof.
  induction 1 as [|e t He Ht IH]; [done|].
  destruct e as [p [|]| | | | | |]; try done.
Qed.

Lemma within_mret R {A} (a : A) : within R (mret a).
Proof. intros t x y H. by right. Qed.

Lemma within_bind R {A B} (m : M A) (f : A → M B) :
  within R m → (∀ a, within R (f a)) → within R (m ≫= f).
Proof.
  intros Hm Hf t x y. destruct m as [t1 [a|c| |]]; try apply Hm.
  rewrite bind_Ret. unfold before, trace. cbn [fst]. rewrite <- app_assoc.
  intros H. apply (Hm (_ ++ t)) in H as [H|H]; [by left|].
  by apply (Hf a t).
Qed.

Lemma within_quiet R {A} (t0 : list event) (o : outcome A) :
  quiet t0 → within R ((t0, o) : M A).
Proof. intros Hq t x y. unfold trace. cbn [fst]. rewrite compared_paths_quiet_app by done. auto. Qed.

Lemma within_before_quiet R {A} t0 (m : M A) :
  quiet t0 → within R m → within R (before t0 m).
Proof.
  intros Hq Hm t x y. unfold before, trace. cbn [fst]. rewrite <- app_assoc.
  rewrite compared_paths_quiet_app by done. apply Hm.
Qed.

Lemma quiet_read_loop fuel size cnt i j fi fj : ∀ fdi fdj s,
  quiet (trace (read_loop BUFSIZE LOG_USER fuel size cnt i j fi fj fdi fdj s)).
Proof.
  induction fuel as [|fuel IH]; intros fdi fdj s; [constructor|].
  cbn [read_loop]. unfold sys_read. rewrite bind_Ret.
  destruct (do_read BUFSIZE fdi) as [[nri ibuff] fdi'].
  rewrite bind_Ret.
  destruct (do_read BUFSIZE fdj) as [[nrj jbuff] fdj'].
  unfold before, trace. cbn [fst snd].
  constructor; [done|]. constructor; [done|].
  destruct ((nri <? 0)%Z || (nrj <? 0)%Z); [by repeat constructor|].
  destruct (negb (nri =? nrj)%Z); [constructor|].
  destruct (negb (memcmp ibuff jbuff (Z.to_nat nri) =? 0)%Z); [constructor|].
  destruct (nri =? 0)%Z; [constructor|]. apply IH.
Qed.

Lemma quiet_bind {A B} (m : M A) (f : A → M B) :
  quiet (trace m) → (∀ a, quiet (trace (f a))) → quiet (trace (m ≫= f)).
Proof.
  intros Hm Hf. destruct m as [t1 [a|c| |]]; try apply Hm.
  rewrite bind_Ret. unfold before, trace. cbn [fst]. apply Forall_app. split; [done|apply Hf].
Qed.

Lemma starts_quiet_bind {A B} (m : M A) (f : A → M B) :
  starts_quiet (trace m) → starts_quiet (trace (m ≫= f)).
Proof.
  destruct m as [t1 [a|c| |]]; try done.
  rewrite bind_Ret. unfold before, trace. cbn [fst]. by destruct t1.
Qed.

Lemma starts_quiet_read_loop fuel size cnt i j fi fj fdi fdj s :
  starts_quiet (trace (read_loop BUFSIZE LOG_USER (S fuel) size cnt i j fi fj fdi fdj s)).
Proof.
  cbn [read_loop]. unfold sys_read. rewrite bind_Ret. done.
Qed.

Lemma compared_paths_open_then_quiet a t1 t2 :
  starts_quiet t1 → quiet t1 →
  compared_paths (EvOpen a true :: t1 ++ t2) = compared_paths t2.
Proof.
  intros Hs Hq. destruct t1 as [|e t1]; [done|].
  rewrite <- (compared_paths_quiet_app (e :: t1) t2 Hq).
  destruct e as [p [|]| | | | | |]; done.
Qed.

Lemma compared_paths_two_opens a b t :
  compared_paths (EvOpen a true :: EvOpen b true :: t)
  = (a, b) :: compared_paths (EvOpen b true :: t).
Proof. done. Qed.

Lemma within_compare_pair (N : string → Prop) size cnt i j fi fj maxToSkip s :
  N (name fi) → N (name fj) →
  within (both N) (compare_pair BUFSIZE LOG_USER fs size cnt i j fi fj maxToSkip s).
Proof.
  intros Hi Hj t x y.
  unfold compare_pair, sys_open, do_open. rewrite bind_Ret.
  destruct (fs (name fi)) as [fli|] eqn:Ei; cbn [fmap option_fmap option_map].
  2:{ cbn. auto. }
  rewrite bind_Ret.
  destruct (fs (name fj)) as [flj|] eqn:Ej; cbn [fmap option_fmap option_map].
  2:{ cbn. auto. }
  match goal with
  | |- context [before _ (before _ ?X)] => set (rest := X)
  end.
  assert (quiet (trace rest) ∧ starts_quiet (trace rest)) as [Hq Hs].
  { subst rest. split.
    - apply quiet_bind.
      + destruct (maxToSkip >? 0)%Z; [|constructor].
        unfold sys_lseek. rewrite bind_Ret.
        destruct (do_lseek _ _) as [lsi fdi']. rewrite bind_Ret.
        destruct (do_lseek _ _) as [lsj fdj'].
        unfold before, trace. cbn [fst snd].
        repeat (constructor; [done|]).
        destruct ((lsi <? 0)%Z || (lsj <? 0)%Z); cbn; by repeat constructor.
      + intros [fdi fdj]. apply quiet_bind; [apply quiet_read_loop|].
        intros s'. cbn. by repeat constructor.
    - destruct (maxToSkip >? 0)%Z.
      + apply starts_quiet_bind. unfold sys_lseek. rewrite !bind_Ret. done.
      + rewrite bind_mret. apply starts_quiet_bind, starts_quiet_read_loop. }
  unfold before at 1 2. unfold trace at 1. cbn [fst snd].
  change (bool_decide (is_Some (Some ?x))) with true.
  cbn [app]. fold (trace rest).
  rewrite compared_paths_two_opens, compared_paths_open_then_quiet by done.
  rewrite elem_of_cons. intros [[= -> ->]|H]; [by left|by right].
Qed.

Lemma within_pair_step (N : string → Prop) size cnt i j fi fj s :
  N (name fi) → N (name fj) →
  within (both N) (pair_step BUFSIZE LOG_USER fs size cnt i j fi fj s).
Proof.
  intros Hi Hj. unfold pair_step. destruct (fflags s !!! j); [apply within_mret|].
  destruct (scan_rows _ _ _ _ _ _ _) as [maxToSkip pr].
  destruct (maxToSkip <? 0)%Z; [apply within_mret|by apply within_compare_pair].
Qed.

Lemma within_loop_j (N : string → Prop) size cnt i fi fj : ∀ j s,
  N (name fi) → Forall (λ f, N (name f)) fj →
  within (both N) (loop_j BUFSIZE LOG_USER fs size cnt i j fi fj s).
Proof.
  induction fj as [|f next IH]; intros j s Hi Hall; cbn [loop_j].
  - apply within_mret.
  - inversion Hall; subst.
    apply within_bind; [by apply within_pair_step|]. intros s'. by apply IH.
Qed.

Lemma within_loop_i (N : string → Prop) size cnt fi : ∀ i s retval,
  Forall (λ f, N (name f)) fi →
  within (both N) (loop_i BUFSIZE LOG_USER fs size cnt i fi s retval).
Proof.
  induction fi as [|f next IH]; intros i s retval Hall; cbn [loop_i].
  - apply within_mret.
  - inversion Hall; subst.
    case_bool_decide; [|apply within_mret].
    destruct (fflags s !!! i); [by apply IH|].
    apply within_bind; [by apply within_loop_j|]. intros s'.
    destruct (dn s'); by apply IH.
Qed.

(** The comparisons of the run on one bucket are between files of the
    bucket. *)
Lemma within_resolve_bucket size files retval :
  within (both (λ p, p ∈ name <$> files))
    (resolve_bucket BUFSIZE LOG_USER fs size files retval).
Proof.
  assert (∀ A, within (both (λ p, p ∈ name <$> files)) (([], Abort) : M A)) as Hk.
  { intros A. apply within_quiet. constructor. }
  unfold resolve_bucket. case_bool_decide; [apply Hk|].
  case_bool_decide; [destruct files; [apply within_mret|apply Hk]|].
  destruct (negb (size =? 0)%Z); [|apply within_mret].
  case_bool_decide; [|apply Hk].
  apply within_bind; [|intros [s' r]; apply within_mret].
  apply within_loop_i. apply Forall_forall. intros f Hf.
  by apply list_elem_of_fmap_2.
Qed.

Lemma within_weaken (R R' : string → string → Prop) {A} (m : M A) :
  (∀ a b, R a b → R' a b) → within R m → within R' m.
Proof. intros HR Hm t x y H. apply Hm in H as [?|?]; auto. Qed.

Lemma within_chkForDups node : ∀ retval,
  within (same_bucket node) (chkForDups BUFSIZE LOG_USER fs node retval).
Proof.
  induction node as [|size c files l IHl r IHr col]; intros retval; cbn [chkForDups].
  - apply within_mret.
  - apply within_bind; [|intros r1; apply within_bind; [|intros r2]].
    + eapply within_weaken; [|apply IHl].
      intros a b (s & fs' & Hin & Ha & Hb). exists s, fs'.
      cbn [buckets]. rewrite elem_of_app. auto.
    + eapply within_weaken; [|apply within_resolve_bucket].
      intros a b [Ha Hb]. exists size, files.
      cbn [buckets]. rewrite elem_of_app, elem_of_cons. auto.
    + eapply within_weaken; [|apply IHr].
      intros a b (s & fs' & Hin & Ha & Hb). exists s, fs'.
      cbn [buckets]. rewrite elem_of_app, elem_of_cons. auto.
Qed.

Lemma filed_ins_bucket calls nm st bs :
  filed calls bs → filed (calls ++ [(nm, st)]) (ins_bucket nm st bs).
Proof.
  intros Hf.
  assert (∀ s fs f, (s, fs) ∈ bs → f ∈ fs →
            ∃ st0, (name f, st0) ∈ calls ++ [(nm, st)] ∧ st_size st0 = s) as Hold.
  { intros s fs' f Hin Hfin. destruct (Hf s fs' f Hin Hfin) as (st0 & ? & ?).
    exists st0. rewrite elem_of_app. auto. }
  assert (∃ st0, (name (newFileNode nm st), st0) ∈ calls ++ [(nm, st)] ∧
                 st_size st0 = st_size st) as Hnew.
  { exists st. rewrite elem_of_app, list_elem_of_singleton. auto. }
  clear Hf. induction bs as [|[s0 fs0] bs IH]; intros s fs' f; cbn [ins_bucket].
  - rewrite list_elem_of_singleton. intros [= -> ->].
    rewrite list_elem_of_singleton. by intros ->.
  - destruct (Z.eqb_spec (st_size st) s0) as [Heq|Hne].
    + rewrite elem_of_cons. intros [[= -> ->]|Hin] Hfin.
      * destruct (sameInode fs0 st).
        -- apply (Hold s0 fs0); [apply list_elem_of_here|done].
        -- apply elem_of_cons in Hfin as [->|Hfin]; [by rewrite <- Heq|].
           apply (Hold s0 fs0); [apply list_elem_of_here|done].
      * apply (Hold s fs'); [by apply list_elem_of_further|done].
    + destruct (st_size st <? s0)%Z.
      * rewrite elem_of_cons. intros [[= -> ->]|Hin] Hfin.
        -- by apply list_elem_of_singleton in Hfin as ->.
        -- by apply (Hold s fs').
      * rewrite elem_of_cons. intros [[= -> ->]|Hin] Hfin.
        -- apply (Hold s0 fs0); [apply list_elem_of_here|done].
        -- apply (IH (λ s fs f Hin, Hold s fs f (list_elem_of_further _ _ _ Hin)) s fs' f);
             done.
Qed.

Lemma insert_all_filed calls : ∀ pre root root',
  tree_ok root → filed pre (buckets root) →
  insert_all root calls = Some root' → filed (pre ++ calls) (buckets root').
Proof.
  induction calls as [|[nm st] calls IH]; cbn [insert_all]; intros pre root root' Hok Hf H.
  - injection H as <-. by rewrite app_nil_r.
  - destruct (insert_tree_ok root nm st Hok) as (root1 & E & Hok1).
    rewrite E in H. cbn in H.
    replace (pre ++ (nm, st) :: calls) with ((pre ++ [(nm, st)]) ++ calls)
      by (by rewrite <- app_assoc).
    apply (IH _ root1); [done| |done].
    rewrite (insert_buckets _ _ _ _ (proj1 Hok) E). by apply filed_ins_bucket.
Qed.

(** C8: in a run of the resolver over the tree built by any sequence
    of [insert] calls, whenever the contents of two files are compared,
    the two files are in one bucket of the tree, and both were inserted
    with one and the same size: files inserted with different sizes
    only are never compared. *)
Theorem C8_only_same_size_files_are_compared (calls : list (string * stat)) :
  ∃ root,
    insert_all NULL calls = Some root ∧
    ∀ retval a b,
      (a, b) ∈ compared_paths (trace (chkForDups BUFSIZE LOG_USER fs root retval)) →
      same_bucket root a b ∧
      ∃ sta stb, (a, sta) ∈ calls ∧ (b, stb) ∈ calls ∧ st_size sta = st_size stb.
Proof.
  destruct (insert_all_tree_ok calls NULL tree_ok_NULL) as (root & E & Hok).
  exists root. split; [done|]. intros retval a b Hcmp.
  assert (filed calls (buckets root)) as Hf.
  { apply (insert_all_filed calls [] NULL root tree_ok_NULL); [|done].
    intros s fs' f Hin. by apply elem_of_nil in Hin. }
  destruct (within_chkForDups root retval [] a b) as [Hsame|Hnil].
  - by rewrite app_nil_r.
  - split; [done|]. destruct Hsame as (s & fs' & Hin & Ha & Hb).
    apply list_elem_of_fmap in Ha as (fa & -> & Ha).
    apply list_elem_of_fmap in Hb as (fb & -> & Hb).
    destruct (Hf s fs' fa Hin Ha) as (sta & ? & ?).
    destruct (Hf s fs' fb Hin Hb) as (stb & ? & ?).
    exists sta, stb. repeat split; auto; congruence.
  - by apply elem_of_nil in Hnil.
Qed.

End Partition.

(** The comparisons of the example run: the three pairs of the bucket
    of size 5. *)
Example compared_paths_of_example_run :
  compared_paths (trace (main 1024 8 ex_fs 0 ex_nftw ["finddups"; "d1"; "d2"]%string))
  = [("c", "b"); ("c", "a"); ("b", "a")]%string.
Proof. vm_compute. reflexivity. Qed.

(** * The ledger and the inference *)

Section MatchLoop.

Implicit Types (x y : list byte).

Lemma int_of_long_small z : (- 2 ^ 31 ≤ z < 2 ^ 31)%Z → int_of_long z = z.
Proof. intros Hz. unfold int_of_long. rewrite Z.mod_small; lia. Qed.

(** A chunk of at most [B] bytes has a length that fits an [int]. *)
Lemma int_of_long_chunk B x :
  fits_int B →
  int_of_long (Z.of_nat (length (take B x))) = Z.of_nat (length (take B x)).
Proof.
  unfold fits_int. intros HB. apply int_of_long_small.
  rewrite length_take. lia.
Qed.

Lemma match_loop_le fuel B : ∀ x y, (match_loop fuel B x y).1 ≤ length x.
Proof.
  induction fuel as [|fuel IH]; intros x y; cbn [match_loop]; [cbn; lia|].
  destruct (decide (take B x = take B y)) as [E|]; [|cbn; lia].
  destruct (decide (take B x = [])); [cbn; lia|].
  specialize (IH (drop B x) (drop B y)).
  destruct (match_loop fuel B (drop B x) (drop B y)) as [m r]. cbn [fst] in *.
  rewrite length_take, length_drop in *. lia.
Qed.

Lemma take_length_take_add B m x :
  take (length (take B x) + m) x = take B x ++ take m (drop B x).
Proof.
  destruct (decide (B ≤ length x)).
  - rewrite length_take_le by done. by rewrite take_take_drop.
  - rewrite (take_ge x B), (drop_ge x B), take_nil, app_nil_r by lia.
    apply take_ge. lia.
Qed.

Lemma match_loop_take fuel B : ∀ x y,
  take (match_loop fuel B x y).1 x = take (match_loop fuel B x y).1 y.
Proof.
  induction fuel as [|fuel IH]; intros x y; cbn [match_loop]; [by rewrite !take_0|].
  destruct (decide (take B x = take B y)) as [E|]; [|by rewrite !take_0].
  destruct (decide (take B x = [])); [by rewrite !take_0|].
  specialize (IH (drop B x) (drop B y)).
  destruct (match_loop fuel B (drop B x) (drop B y)) as [m r]. cbn [fst] in *.
  assert (length (take B x) = length (take B y)) as El by (by rewrite E).
  by rewrite (take_length_take_add B m x), El, (take_length_take_add B m y), IH, E.
Qed.

Lemma match_loop_same fuel B : ∀ x y,
  0 < B → length x < fuel →
  (match_loop fuel B x y).2 = true ↔ x = y.
Proof.
  induction fuel as [|fuel IH]; intros x y HB Hlen; [lia|].
  cbn [match_loop].
  destruct (decide (take B x = take B y)) as [E|NE].
  - destruct (decide (take B x = [])) as [E0|NE0].
    + cbn [snd]. split; [intros _|done].
      rewrite E0 in E. symmetry in E.
      destruct (take_nil_inv _ _ E0) as [ ? | -> ]; [lia|].
      destruct (take_nil_inv _ _ E) as [ ? | -> ]; [lia|done].
    + assert (length (drop B x) < fuel) as Hlen'.
      { rewrite length_drop. destruct x; [by rewrite take_nil in NE0|].
        simpl in *. lia. }
      specialize (IH (drop B x) (drop B y) HB Hlen').
      destruct (match_loop fuel B (drop B x) (drop B y)) as [m r]. cbn [snd] in *.
      rewrite IH. split.
      * intros Hd. by rewrite <- (take_drop B x), <- (take_drop B y), E, Hd.
      * by intros ->.
  - cbn [snd]. split; [done|]. intros ->. done.
Qed.

End MatchLoop.

Section ReadLoop.

Variable BUFSIZE : nat.
Variable LOG_USER : Z.
Hypothesis BUFSIZE_fits : fits_int BUFSIZE.

Lemma drop_length_take B (x : list byte) : drop (length (take B x)) x = drop B x.
Proof.
  destruct (decide (B ≤ length x)).
  - by rewrite length_take_le.
  - rewrite length_take_ge, drop_all, drop_ge by lia. done.
Qed.

Lemma memcmp_chunks (cx cy : list byte) :
  length cx = length cy →
  (memcmp cx cy (Z.to_nat (Z.of_nat (length cx))) =? 0)%Z = bool_decide (cx = cy).
Proof.
  intros Hl. unfold memcmp. rewrite Nat2Z.id.
  rewrite (take_ge cx), (take_ge cy) by lia.
  by destruct (decide (cx = cy)); [rewrite bool_decide_eq_true_2|rewrite bool_decide_eq_false_2].
Qed.

Lemma cell_insert_eq cnt (a : list Z) i j v :
  i * cnt + j < length a → cell cnt (<[i * cnt + j := v]> a) i j = v.
Proof. intros H. unfold cell. by rewrite list_lookup_total_insert_eq. Qed.

Lemma insert_cell_id cnt (a : list Z) i j :
  i * cnt + j < length a → <[i * cnt + j := cell cnt a i j]> a = a.
Proof.
  intros H. apply list_insert_id. unfold cell.
  by apply list_lookup_lookup_total_lt.
Qed.

Lemma read_loop_spec size cnt i j fi fj pi pj fli flj fuel : ∀ p s,
  (∀ pos, f_read_ok fli pos = true) → (∀ pos, f_read_ok flj pos = true) →
  length (f_data fli) - p < fuel →
  i * cnt + j < length (ar s) →
  ∃ t s',
    read_loop BUFSIZE LOG_USER fuel size cnt i j fi fj (Fd pi fli p) (Fd pj flj p) s
    = (t, Ret s') ∧
    loop_post size cnt i j fi fj p
      (match_loop fuel BUFSIZE (drop p (f_data fli)) (drop p (f_data flj))).1
      (match_loop fuel BUFSIZE (drop p (f_data fli)) (drop p (f_data flj))).2
      s s'.
Proof.
  induction fuel as [|fuel IH]; intros p s Hri Hrj Hfuel Hk; [lia|].
  cbn [read_loop match_loop]. unfold sys_read, do_read. cbn [fd_file fd_pos fd_path].
  rewrite Hri, Hrj. rewrite !bind_Ret.
  rewrite !int_of_long_chunk by done.
  set (x := drop p (f_data fli)). set (y := drop p (f_data flj)).
  set (cx := take BUFSIZE x). set (cy := take BUFSIZE y).
  cbn [fst snd].
  rewrite !of_nat_ltb_0.
  cbn [orb].
  assert (loop_post size cnt i j fi fj p 0 false s s) as Hstop.
  { unfold loop_post. rewrite Z.add_0_r, insert_cell_id by done.
    repeat split; try done. exists []. split; [done|]. split; [constructor|lia]. }
  destruct (Z.eqb_spec (Z.of_nat (length cx)) (Z.of_nat (length cy))) as [Hl|Hl]; cbn [negb].
  2:{ destruct (decide (cx = cy)) as [E|_]; [by rewrite E in Hl|].
      eexists _, s. split; [reflexivity|done]. }
  apply Nat2Z.inj in Hl. rewrite memcmp_chunks by done.
  destruct (decide (cx = cy)) as [E|NE];
    [rewrite bool_decide_eq_true_2 by done|rewrite bool_decide_eq_false_2 by done];
    cbn [negb].
  2:{ eexists _, s. split; [reflexivity|done]. }
  destruct (decide (cx = [])) as [E0|NE0].
  - (* the end of both files *)
    rewrite E0. cbn [length]. cbn [Z.of_nat Z.eqb].
    eexists _, _. split; [reflexivity|].
    unfold loop_post, mark_dups, add_matched.
    cbn [ar fflags dn notes set_fflags set_dn set_ar add_note fst snd fd_pos].
    rewrite Z.add_0_r, Nat.add_0_r, insert_cell_id by done.
    repeat split; try done.
    eexists [_]. split; [done|]. split; [|lia]. apply Forall_singleton.
    exists p. rewrite Nat.sub_diag, Z.add_0_r. split; [done|lia].
  - assert (0 < length cx) as Hpos by (destruct cx; [done|simpl; lia]).
    rewrite <- Hl. cbn [fd_pos].
    assert ((Z.of_nat (length cx) =? 0)%Z = false) as -> by (apply Z.eqb_neq; lia).
    set (s1 := add_matched cnt i j (Z.of_nat (length cx)) (p + length cx) s).
    destruct (IH (p + length cx) s1 Hri Hrj) as (t & s' & Hrun & Hpost).
    { assert (length cx ≤ length (f_data fli) - p).
      { unfold cx, x. rewrite length_take, length_drop. lia. }
      lia. }
    { unfold s1, add_matched. cbn [ar set_ar add_note]. by rewrite length_insert. }
    rewrite Hrun.
    assert (drop (p + length cx) (f_data fli) = drop BUFSIZE x) as Hdx.
    { unfold x. rewrite <- drop_drop. fold x. apply drop_length_take. }
    assert (drop (p + length cx) (f_data flj) = drop BUFSIZE y) as Hdy.
    { unfold y. rewrite <- drop_drop. fold y. rewrite Hl. apply drop_length_take. }
    rewrite Hdx, Hdy in Hpost.
    destruct (match_loop fuel BUFSIZE (drop BUFSIZE x) (drop BUFSIZE y)) as [m same].
    cbn [fst snd] in *.
    eexists _, s'. split; [reflexivity|].
    destruct Hpost as (Har & Hfl & Hdn & w & Hn & Hw & Hlast).
    assert (cell cnt (ar s1) i j = (cell cnt (ar s) i j + Z.of_nat (length cx))%Z) as Hc.
    { unfold s1, add_matched. cbn [ar set_ar add_note]. by rewrite cell_insert_eq. }
    unfold loop_post. rewrite Har, Hfl, Hdn, Hn, Hc.
    split; [|split; [done|split; [done|]]].
    + unfold s1, add_matched. cbn [ar set_ar add_note]. rewrite list_insert_insert_eq.
      f_equal. lia.
    + exists (w ++ [Wrote i j (cell cnt (ar s) i j + Z.of_nat (length cx))%Z (p + length cx)]).
      split; [by rewrite <- app_assoc|]. split.
      * apply Forall_app. split.
        -- eapply Forall_impl; [exact Hw|]. cbv beta. intros n (off & -> & Hoff).
           exists off. split; [|lia]. rewrite Hc. f_equal. lia.
        -- apply Forall_singleton. exists (p + length cx). split; [|lia].
           f_equal. f_equal. lia.
      * intros _. rewrite elem_of_app, list_elem_of_singleton.
        destruct (decide (m = 0)) as [->|Hm0].
        -- right. f_equal; [|lia]. f_equal. lia.
        -- left. rewrite Hc in Hlast.
           replace (cell cnt (ar s) i j + Z.of_nat (length cx + m))%Z
             with (cell cnt (ar s) i j + Z.of_nat (length cx) + Z.of_nat m)%Z by lia.
           replace (p + (length cx + m)) with (p + length cx + m) by lia.
           apply Hlast. lia.
Qed.

End ReadLoop.

Section ScanRows.

Implicit Types (ar : list Z).

(** The scan reads the cells of the columns [i] and [j] in the rows
    [pr .. pr + n - 1] and nothing else. *)
Lemma scan_rows_ext n cnt : ∀ pr i j i' j' ar ar' acc,
  (∀ q, pr ≤ q < pr + n →
        cell cnt ar q i = cell cnt ar' q i' ∧ cell cnt ar q j = cell cnt ar' q j') →
  scan_rows n pr cnt i j ar acc = scan_rows n pr cnt i' j' ar' acc.
Proof.
  induction n as [|n IH]; intros pr i j i' j' ar ar' acc H; [done|].
  cbn [scan_rows]. destruct (H pr) as [-> ->]; [lia|].
  destruct (negb _); [done|]. apply IH. intros q Hq. apply H. lia.
Qed.

(** A scan that ends below zero has met a row whose two cells differ. *)
Lemma scan_rows_neg n cnt i j ar : ∀ pr acc,
  (0 ≤ acc)%Z → ((scan_rows n pr cnt i j ar acc).1 < 0)%Z →
  pr ≤ (scan_rows n pr cnt i j ar acc).2 < pr + n ∧
  cell cnt ar (scan_rows n pr cnt i j ar acc).2 i
  ≠ cell cnt ar (scan_rows n pr cnt i j ar acc).2 j.
Proof.
  induction n as [|n IH]; intros pr acc Hacc; cbn [scan_rows fst snd]; [lia|].
  destruct (Z.eqb_spec (cell cnt ar pr i) (cell cnt ar pr j)) as [E|NE]; cbn [negb fst snd].
  - intros H. apply IH in H as [H1 H2]; [split; [lia|done]|].
    destruct (Z.gtb_spec (cell cnt ar pr i) acc); lia.
  - intros _. split; [lia|done].
Qed.

(** A scan that does not end below zero has found every row to agree
    and returns the largest cell of column [i], or the bound it
    started with. *)
Lemma scan_rows_nonneg n cnt i j ar : ∀ pr acc,
  (0 ≤ (scan_rows n pr cnt i j ar acc).1)%Z →
  (∀ q, pr ≤ q < pr + n → cell cnt ar q i = cell cnt ar q j) ∧
  ((scan_rows n pr cnt i j ar acc).1 = acc ∨
   ∃ q, pr ≤ q < pr + n ∧ (scan_rows n pr cnt i j ar acc).1 = cell cnt ar q i).
Proof.
  induction n as [|n IH]; intros pr acc; cbn [scan_rows fst snd].
  - intros _. split; [lia|by left].
  - destruct (Z.eqb_spec (cell cnt ar pr i) (cell cnt ar pr j)) as [E|NE]; cbn [negb fst snd].
    + intros H. apply IH in H as [H1 H2]. split.
      * intros q Hq. destruct (decide (q = pr)) as [->|]; [done|]. apply H1. lia.
      * destruct H2 as [H2|(q & Hq & H2)].
        -- destruct (Z.gtb_spec (cell cnt ar pr i) acc); [|by left].
           right. exists pr. split; [lia|done].
        -- right. exists q. split; [lia|done].
    + lia.
Qed.

Lemma scan_rows_agree n cnt i j ar : ∀ pr acc,
  (0 ≤ acc)%Z →
  (∀ q, pr ≤ q < pr + n → cell cnt ar q i = cell cnt ar q j) →
  (0 ≤ (scan_rows n pr cnt i j ar acc).1)%Z.
Proof.
  induction n as [|n IH]; intros pr acc Hacc H; cbn [scan_rows fst snd]; [done|].
  rewrite (H pr) by lia. rewrite Z.eqb_refl. cbn [negb].
  apply IH.
  - destruct (Z.gtb_spec (cell cnt ar pr j) acc); lia.
  - intros q Hq. apply H. lia.
Qed.

End ScanRows.

Section Ledger.

Variable BUFSIZE : nat.
Variable LOG_USER : Z.
Variable fs : string → option file.
Variable size : Z.
Variable files : list fe.
Hypothesis BUFSIZE_ok : chunk_ok BUFSIZE.
Hypothesis files_ok : Forall (file_ok fs) files.

Local Abbreviation cnt := (length files).
Local Abbreviation D := (dat fs files).
Local Abbreviation cel := (cell (length files)).

Lemma BUFSIZE_pos : 0 < BUFSIZE.
Proof. apply BUFSIZE_ok. Qed.

Lemma files_readable : Forall (readable fs) files.
Proof. eapply Forall_impl; [exact files_ok|]. by intros f [? _]. Qed.

Lemma dat_fits k : k < cnt → (Z.of_nat (length (D k)) < 2 ^ 31)%Z.
Proof.
  intros Hk. unfold dat. pose proof files_ok as H. rewrite Forall_forall in H.
  apply (H (files !!! k)). by apply list_elem_of_lookup_total_2.
Qed.

Lemma index_lt i j : i < cnt → j < cnt → i * cnt + j < cnt * cnt.
Proof.
  generalize cnt. intros n Hi Hj.
  assert (S i * n ≤ n * n) by (apply Nat.mul_le_mono_r; lia). lia.
Qed.

Lemma index_inj i j i' j' :
  j < cnt → j' < cnt → i * cnt + j = i' * cnt + j' → i = i' ∧ j = j'.
Proof.
  generalize cnt. intros n Hj Hj' Heq.
  destruct (Nat.lt_trichotomy i i') as [Hlt|[->|Hlt]]; [|lia|].
  - assert (S i * n ≤ i' * n) by (apply Nat.mul_le_mono_r; lia). lia.
  - assert (S i' * n ≤ i * n) by (apply Nat.mul_le_mono_r; lia). lia.
Qed.

Lemma cell_insert_ne (a : list Z) i j pr c v :
  j < cnt → c < cnt → (pr, c) ≠ (i, j) →
  cel (<[i * cnt + j := v]> a) pr c = cel a pr c.
Proof.
  intros Hj Hc Hne. unfold cell. apply list_lookup_total_insert_ne.
  intros Heq. apply index_inj in Heq as [-> ->]; done.
Qed.

Lemma readable_lookup k :
  k < cnt → readable fs (files !!! k).
Proof.
  intros Hk. pose proof files_readable as H. rewrite Forall_forall in H. apply H.
  apply list_elem_of_lookup_total_2. done.
Qed.

Lemma compare_pair_spec i j m s :
  i < cnt → j < cnt → (0 ≤ m < 2 ^ 31)%Z → length (ar s) = cnt * cnt →
  ∃ t s',
    compare_pair BUFSIZE LOG_USER fs size cnt i j (files !!! i) (files !!! j) m s
    = (t, Ret s') ∧
    loop_post size cnt i j (files !!! i) (files !!! j) (Z.to_nat m)
      (matched fs BUFSIZE (files !!! i) (files !!! j) m).1
      (matched fs BUFSIZE (files !!! i) (files !!! j) m).2 s s'.
Proof.
  intros Hi Hj Hm Hlen.
  destruct (readable_lookup i Hi) as (fli & Ei & Hsi & Hri).
  destruct (readable_lookup j Hj) as (flj & Ej & Hsj & Hrj).
  unfold matched, data_of. rewrite Ei, Ej.
  destruct (read_loop_spec BUFSIZE LOG_USER (proj2 BUFSIZE_ok) size cnt i j
              (files !!! i) (files !!! j)
              (name (files !!! i)) (name (files !!! j)) fli flj
              (S (length (f_data fli))) (Z.to_nat m) s Hri Hrj)
    as (t & s' & Hrun & Hpost); [lia|rewrite Hlen; by apply index_lt|].
  exists ([EvOpen (name (files !!! i)) true; EvOpen (name (files !!! j)) true]
          ++ (if (m >? 0)%Z
              then [EvLseek (name (files !!! i)) m true; EvLseek (name (files !!! j)) m true]
              else [])
          ++ t ++ [EvClose (name (files !!! j)); EvClose (name (files !!! i))]), s'.
  split; [|done].
  unfold compare_pair, sys_open, do_open. rewrite Ei, Ej. cbn [fmap option_fmap option_map].
  rewrite !bind_Ret.
  destruct (Z.gtb_spec m 0) as [Hpos|Hnpos].
  - unfold sys_lseek, do_lseek. cbn [fd_file fd_path]. rewrite Hsi, Hsj.
    repeat (rewrite ?bind_Ret, ?bind_before; cbn [fst snd]).
    rewrite !int_of_long_small by lia.
    assert ((m <? 0)%Z = false) as -> by (apply Z.ltb_ge; lia). cbn [orb negb].
    rewrite bind_mret. cbn [fd_file].
    rewrite Hrun, bind_Ret. unfold sys_close, emit. rewrite !bind_Ret.
    reflexivity.
  - rewrite bind_mret. cbn [fd_file].
    assert (m = 0%Z) as -> by lia. change (Z.to_nat 0) with 0 in Hrun.
    rewrite Hrun, bind_Ret. unfold sys_close, emit. rewrite !bind_Ret.
    reflexivity.
Qed.

(** *** What a scan that lets the pair through has established *)

Lemma scan_pass i j s m pr :
  i < j < cnt → ledger_ok fs files s →
  scan_rows i 0 cnt i j (ar s) 0 = (m, pr) → (0 ≤ m)%Z →
  (∀ q, q < i → cel (ar s) q i = cel (ar s) q j) ∧
  take (Z.to_nat m) (D i) = take (Z.to_nat m) (D j).
Proof.
  intros Hij (_ & _ & Hpre) Hscan Hm.
  pose proof (scan_rows_nonneg i cnt i j (ar s) 0 0) as Hnn.
  rewrite Hscan in Hnn. cbn [fst] in Hnn. destruct (Hnn Hm) as [Hall Hmax].
  split; [intros q Hq; apply Hall; lia|].
  destruct Hmax as [->|(q & Hq & ->)]; [done|].
  destruct (Hpre q i) as [_ Hqi]; [lia|].
  destruct (Hpre q j) as [_ Hqj]; [lia|].
  rewrite <- Hqi. rewrite (Hall q) by lia. by rewrite <- Hqj.
Qed.

Lemma matched_same fi fj m :
  take (Z.to_nat m) (data_of fs fi) = take (Z.to_nat m) (data_of fs fj) →
  (matched fs BUFSIZE fi fj m).2 = true ↔ data_of fs fi = data_of fs fj.
Proof.
  intros Htake. unfold matched.
  rewrite match_loop_same; [|apply BUFSIZE_pos|rewrite length_drop; lia]. split.
  - intros Hd.
    by rewrite <- (take_drop (Z.to_nat m) (data_of fs fi)),
               <- (take_drop (Z.to_nat m) (data_of fs fj)), Htake, Hd.
  - by intros ->.
Qed.

Lemma matched_le fi fj m :
  (matched fs BUFSIZE fi fj m).1 ≤ length (data_of fs fi).
Proof.
  unfold matched. etrans; [apply match_loop_le|]. rewrite length_drop. lia.
Qed.

Lemma matched_take fi fj m off :
  take (Z.to_nat m) (data_of fs fi) = take (Z.to_nat m) (data_of fs fj) →
  off ≤ Z.to_nat m + (matched fs BUFSIZE fi fj m).1 →
  take off (data_of fs fi) = take off (data_of fs fj).
Proof.
  intros Htake Hoff. unfold matched in *.
  pose proof (match_loop_take (S (length (data_of fs fi))) BUFSIZE
                (drop (Z.to_nat m) (data_of fs fi))
                (drop (Z.to_nat m) (data_of fs fj))) as Hm.
  set (k := (match_loop _ _ _ _).1) in *.
  assert (take (Z.to_nat m + k) (data_of fs fi)
          = take (Z.to_nat m + k) (data_of fs fj)) as Hall.
  { by rewrite <- !take_take_drop, Htake, Hm. }
  rewrite <- (Nat.min_l off (Z.to_nat m + k)) by done.
  by rewrite <- !take_take, Hall.
Qed.

Lemma note_ok_mono ns ns' n :
  (∀ x, x ∈ ns → x ∈ ns') → note_ok fs files ns n → note_ok fs files ns' n.
Proof.
  intros Hsub. destruct n as [i j pr|i j skip|i j v off]; cbn; try done.
  intros (Hij & skip & Hin & ?). split; [done|]. exists skip. split; [auto|done].
Qed.

Lemma notes_ok_add n s :
  notes_ok fs files s → note_ok fs files (n :: notes s) n →
  notes_ok fs files (add_note n s).
Proof.
  intros [Hs Hcells] Hn. unfold notes_ok, add_note. cbn [notes ar]. split.
  - constructor; [done|].
    eapply Forall_impl; [exact Hs|]. intros x. apply note_ok_mono.
    intros y. apply list_elem_of_further.
  - intros pr a Hpr Ha Hne. destruct (Hcells pr a Hpr Ha Hne) as [off Hoff].
    exists off. by apply list_elem_of_further.
Qed.

(** Setting flags only shrinks the set of unflagged columns. *)
Lemma flag_insert_false (fl : list bool) k a :
  <[k := true]> fl !!! a = false → fl !!! a = false.
Proof.
  destruct (decide (k = a)) as [->|Hne].
  - destruct (decide (a < length fl)).
    + by rewrite list_lookup_total_insert_eq.
    + by rewrite list_insert_ge by lia.
  - by rewrite list_lookup_total_insert_ne.
Qed.

Lemma flag_insert_self (fl : list bool) k :
  k < length fl → <[k := true]> fl !!! k = true.
Proof. intros. by rewrite list_lookup_total_insert_eq. Qed.

(** *** One pair *)

Lemma col_inv_flagged i j s :
  col_inv fs BUFSIZE files i j s → fflags s !!! j = true →
  col_inv fs BUFSIZE files i (S j) s.
Proof.
  intros (Hl & Hd & Hdl & Hrs & Hz & Hn) Hf. unfold col_inv. split_and!; try done.
  - intros a Ha Hac Hfa. destruct (decide (a = j)) as [->|]; [congruence|].
    apply Hrs; [lia|done..].
  - intros pr a Hpr Ha Hcase. apply Hz; [done..|lia].
Qed.

Lemma col_inv_inferred i j s m pr :
  i < j < cnt → col_inv fs BUFSIZE files i j s → fflags s !!! j = false →
  scan_rows i 0 cnt i j (ar s) 0 = (m, pr) → (m < 0)%Z →
  D i ≠ D j ∧ col_inv fs BUFSIZE files i (S j) (add_note (Inferred i j pr) s).
Proof.
  intros Hij (Hl & Hd & Hdl & Hrs & Hz & Hn) Hf Hscan Hm.
  pose proof (scan_rows_neg i cnt i j (ar s) 0 0) as Hneg.
  rewrite Hscan in Hneg. cbn [fst snd] in Hneg.
  destruct Hneg as [Hpr Hne]; [done..|].
  assert (D i ≠ D j) as Hdiff.
  { intros Heq. apply Hne. apply Hdl; [lia|lia|done..]. }
  split; [done|]. unfold col_inv. split_and!; try done.
  - intros a Ha Hac Hfa. cbn [ar add_note] in *.
    destruct (decide (a = j)) as [->|]; [|apply Hrs; [lia|done..]].
    rewrite Hz by (try lia; right; lia).
    unfold row_entry. rewrite Hscan.
    by assert ((m <? 0)%Z = true) as -> by (apply Z.ltb_lt; lia).
  - intros q a Hq Ha Hcase. apply Hz; [done..|lia].
  - apply notes_ok_add; [done|]. cbn. repeat split; try lia. done.
Qed.

Lemma row_entry_frozen i a ar1 ar2 :
  (∀ q, q < i → cel ar1 q i = cel ar2 q i ∧ cel ar1 q a = cel ar2 q a) →
  row_entry fs BUFSIZE files ar1 i a = row_entry fs BUFSIZE files ar2 i a.
Proof.
  intros H. unfold row_entry.
  rewrite (scan_rows_ext i cnt 0 i a i a ar1 ar2 0); [done|].
  intros q Hq. apply H. lia.
Qed.

Local Ltac pair_ne :=
  let H := fresh in
  intros H; injection H; intros; first [lia | congruence].

Lemma col_inv_compared i j s m pr s' :
  i < j < cnt → col_inv fs BUFSIZE files i j s → fflags s !!! j = false →
  scan_rows i 0 cnt i j (ar s) 0 = (m, pr) → (0 ≤ m)%Z →
  loop_post size cnt i j (files !!! i) (files !!! j) (Z.to_nat m)
    (matched fs BUFSIZE (files !!! i) (files !!! j) m).1
    (matched fs BUFSIZE (files !!! i) (files !!! j) m).2
    (add_note (Compared i j m) s) s' →
  (matched fs BUFSIZE (files !!! i) (files !!! j) m).2
    = same_content fs (files !!! i) (files !!! j) ∧
  col_inv fs BUFSIZE files i (S j) s'.
Proof.
  intros Hij Hinv Hf Hscan Hm (Har & Hfl & Hdn & w & Hnotes & Hw & Hlast).
  pose proof Hinv as (Hl & Hd & Hdl & Hrs & Hz & Hn).
  destruct (scan_pass i j s m pr Hij Hl Hscan Hm) as [Hagree Htake].
  pose proof (matched_same (files !!! i) (files !!! j) m Htake) as Hsame.
  pose proof (λ off, matched_take (files !!! i) (files !!! j) m off Htake) as Hupto.
  pose proof (matched_le (files !!! i) (files !!! j) m) as Hkle.
  destruct (matched fs BUFSIZE (files !!! i) (files !!! j) m) as [k same] eqn:Emt.
  cbn [fst snd] in *.
  cbn [ar fflags dn notes add_note] in *.
  assert (cel (ar s) i j = 0%Z) as Hzero by (apply Hz; [lia|lia|right; lia]).
  rewrite Hzero, Z.add_0_l in Har.
  assert (∀ q c, c < cnt → (q, c) ≠ (i, j) → cel (ar s') q c = cel (ar s) q c) as Hother.
  { intros q c Hc Hne. rewrite Har. apply cell_insert_ne; [lia|done..]. }
  assert (cel (ar s') i j = Z.of_nat k) as Hnew.
  { rewrite Har. apply cell_insert_eq. destruct Hl as [-> _]. apply index_lt; lia. }
  assert (∀ a, fflags s' !!! a = false → fflags s !!! a = false) as Hmono.
  { intros a. rewrite Hfl. destruct same; [|done].
    intros H. by apply flag_insert_false, flag_insert_false in H. }
  split.
  { unfold same_content. destruct same eqn:E.
    - symmetry. apply bool_decide_eq_true_2. by apply Hsame.
    - symmetry. apply bool_decide_eq_false_2. intros Heq. apply Hsame in Heq. congruence. }
  unfold col_inv. split_and!.
  - (* ledger_ok *)
    destruct Hl as (Hlen & Hflen & Hpre). unfold ledger_ok. split_and!.
    + by rewrite Har, length_insert.
    + rewrite Hfl. destruct same; [|done]. by rewrite !length_insert.
    + intros q a Hqa. destruct (decide ((q, a) = (i, j))) as [[= -> ->]|Hne].
      * rewrite Hnew. split; [unfold dat; lia|]. rewrite Nat2Z.id.
        apply Hupto. lia.
      * rewrite Hother by (done || lia). by apply Hpre.
  - (* det_rows *)
    intros q a b Hq Ha Hb Hfa Hfb Hab.
    rewrite !Hother by (try lia; pair_ne).
    apply Hd; auto.
  - (* det_leader *)
    intros q b Hq Hb Hfb Hib.
    rewrite !Hother by (try lia; pair_ne).
    apply Hdl; auto.
  - (* row_spec *)
    intros a Ha Hac Hfa.
    assert (∀ q, q < i → cel (ar s') q i = cel (ar s) q i ∧
                             cel (ar s') q a = cel (ar s) q a) as Hfrozen.
    { intros q Hq. split; apply Hother; try lia; pair_ne. }
    rewrite (row_entry_frozen i a (ar s') (ar s) Hfrozen).
    destruct (decide (a = j)) as [->|Hne].
    + rewrite Hnew. unfold row_entry. rewrite Hscan, Emt.
      by assert ((m <? 0)%Z = false) as -> by (apply Z.ltb_ge; lia).
    + rewrite Hother by (try lia; pair_ne).
      apply Hrs; [lia|done|auto].
  - (* zero_from *)
    intros q a Hq Ha Hcase.
    rewrite Hother by (try lia; pair_ne).
    apply Hz; [done..|lia].
  - (* notes_ok *)
    destruct Hn as [Hn Hcells]. unfold notes_ok. rewrite Hnotes. split.
    + assert (note_ok fs files (w ++ Compared i j m :: notes s) (Compared i j m)) as Hc.
      { cbn. split; [lia|]. split; [done|]. exact Htake. }
      apply Forall_app. split; [|constructor; [done|]].
      * eapply Forall_impl; [exact Hw|]. cbv beta. intros n (off & -> & Hoff).
        cbn. split; [lia|]. exists m. split_and!.
        -- rewrite elem_of_app, elem_of_cons. auto.
        -- done.
        -- rewrite Hzero. lia.
        -- apply Hupto. lia.
      * eapply Forall_impl; [exact Hn|]. intros x. apply note_ok_mono.
        intros y Hy. rewrite elem_of_app, elem_of_cons. auto.
    + intros q a Hq Ha. destruct (decide ((q, a) = (i, j))) as [[= -> ->]|Hne].
      * rewrite Hnew. intros Hk. exists (Z.to_nat m + k).
        rewrite elem_of_app. left. rewrite Hzero, Z.add_0_l in Hlast.
        apply Hlast. lia.
      * rewrite Hother by done. intros Hc.
        destruct (Hcells q a Hq Ha Hc) as [off Hoff]. exists off.
        rewrite elem_of_app, elem_of_cons. auto.
Qed.

Lemma pair_step_spec i j s :
  i < j < cnt → col_inv fs BUFSIZE files i j s →
  ∃ t s',
    pair_step BUFSIZE LOG_USER fs size cnt i j (files !!! i) (files !!! j) s
    = (t, Ret s') ∧
    col_inv fs BUFSIZE files i (S j) s' ∧
    (fflags s', dn s')
    = baseline_pair fs size i j (files !!! i) (files !!! j) (fflags s) (dn s).
Proof.
  intros Hij Hinv. unfold pair_step, baseline_pair.
  destruct (fflags s !!! j) eqn:Hf.
  { exists [], s. split; [done|]. split; [by apply col_inv_flagged|done]. }
  destruct (scan_rows i 0 cnt i j (ar s) 0) as [m pr] eqn:Hscan.
  destruct (Z.ltb_spec m 0) as [Hneg|Hpos].
  - destruct (col_inv_inferred i j s m pr Hij Hinv Hf Hscan Hneg) as [Hdiff Hinv'].
    exists [], (add_note (Inferred i j pr) s). split; [done|]. split; [done|].
    unfold same_content. by rewrite bool_decide_eq_false_2.
  - assert (m < 2 ^ 31)%Z as Hfit.
    { pose proof (scan_rows_nonneg i cnt i j (ar s) 0 0) as Hnn.
      rewrite Hscan in Hnn. cbn [fst] in Hnn.
      destruct (Hnn Hpos) as [_ [->|(q & Hq & ->)]]; [done|].
      destruct Hinv as [(_ & _ & Hpre) _].
      destruct (Hpre q i) as [Hqi _]; [lia|].
      pose proof (dat_fits q ltac:(lia)). lia. }
    destruct (compare_pair_spec i j m (add_note (Compared i j m) s))
      as (t & s' & Hrun & Hpost); [lia|lia|done|apply Hinv|].
    destruct (col_inv_compared i j s m pr s' Hij Hinv Hf Hscan Hpos Hpost)
      as [Hsame Hinv'].
    exists t, s'. split; [done|]. split; [done|].
    destruct Hpost as (_ & Hfl & Hdn & _). cbn [fflags dn add_note] in Hfl, Hdn.
    rewrite Hfl, Hdn, <- Hsame.
    by destruct (matched fs BUFSIZE (files !!! i) (files !!! j) m).2.
Qed.

Lemma drop_lookup_total j : j < cnt → drop j files = files !!! j :: drop (S j) files.
Proof.
  intros Hj. apply drop_S. by apply list_lookup_lookup_total_lt.
Qed.

(** *** One row *)

Lemma loop_j_spec i n : ∀ j s,
  cnt - j = n → i < j → col_inv fs BUFSIZE files i j s →
  ∃ t s',
    loop_j BUFSIZE LOG_USER fs size cnt i j (files !!! i) (drop j files) s
    = (t, Ret s') ∧
    col_inv fs BUFSIZE files i cnt s' ∧
    (fflags s', dn s')
    = baseline_j fs size i j (files !!! i) (drop j files) (fflags s) (dn s).
Proof.
  induction n as [|n IH]; intros j s Hn Hij Hinv.
  - rewrite drop_ge by lia. exists [], s. split; [done|]. split; [|done].
    destruct Hinv as (Hl & Hd & Hdl & Hrs & Hz & Hno). unfold col_inv. split_and!; try done.
    + intros a Ha Hac Hfa. apply Hrs; [lia|done..].
    + intros q a Hq Ha Hcase. apply Hz; [done..|lia].
  - rewrite drop_lookup_total by lia. cbn [loop_j baseline_j].
    destruct (pair_step_spec i j s) as (t1 & s1 & Hrun1 & Hinv1 & Hbase1); [lia|done|].
    rewrite Hrun1, bind_Ret, <- Hbase1.
    destruct (IH (S j) s1) as (t2 & s2 & Hrun2 & Hinv2 & Hbase2); [lia|lia|done|].
    rewrite Hrun2. exists (t1 ++ t2), s2. split; [done|]. split; [done|].
    by rewrite Hbase2.
Qed.

Lemma row_start i s :
  i < cnt → row_inv fs files i s → fflags s !!! i = false →
  col_inv fs BUFSIZE files i (S i) s.
Proof.
  intros Hi (Hl & Hd & Hz & Hn & _) Hf. unfold col_inv. split_and!; try done.
  - intros q b Hq Hb Hfb Hib. apply Hd; auto; lia.
  - intros a Ha. lia.
  - intros q a Hq Ha Hcase. apply Hz; [done..|lia].
Qed.

Lemma matched_congr fi fa fb m :
  data_of fs fa = data_of fs fb →
  matched fs BUFSIZE fi fa m = matched fs BUFSIZE fi fb m.
Proof. intros H. unfold matched. by rewrite H. Qed.

Lemma row_end i s :
  i < cnt → col_inv fs BUFSIZE files i cnt s →
  row_inv fs files (S i) (set_dn None s).
Proof.
  intros Hi (Hl & Hd & Hdl & Hrs & Hz & Hn). unfold row_inv. split_and!; try done.
  - intros q a b Hq Ha Hb Hfa Hfb Hab. cbn [ar fflags set_dn] in *.
    destruct (decide (q = i)) as [->|Hne]; [|apply Hd; auto; lia].
    rewrite Hrs, (Hrs b) by (done || lia).
    unfold row_entry.
    rewrite (scan_rows_ext i cnt 0 i a i b (ar s) (ar s) 0).
    + destruct (scan_rows i 0 cnt i b (ar s) 0) as [m pr].
      destruct (m <? 0)%Z; [done|].
      by rewrite (matched_congr (files !!! i) (files !!! a) (files !!! b) m Hab).
    + intros q Hq'. split; [done|]. apply Hd; auto; lia.
  - intros q a Hq Ha Hcase. apply Hz; [done..|lia].
Qed.

Lemma row_skip i s :
  i < cnt → row_inv fs files i s → row_inv fs files (S i) s.
Proof.
  intros Hi (Hl & Hd & Hz & Hn & Hdn). unfold row_inv. split_and!; try done.
  - intros q a b Hq Ha Hb Hfa Hfb Hab.
    destruct (decide (q = i)) as [->|Hne]; [|apply Hd; auto; lia].
    rewrite !Hz by (lia || (right; lia)). done.
  - intros q a Hq Ha Hcase. apply Hz; [done..|lia].
Qed.

Lemma set_dn_None_id s : dn s = None → set_dn None s = s.
Proof. destruct s. cbn. by intros ->. Qed.

(** *** The bucket *)

Lemma loop_i_spec n : ∀ i s retval,
  cnt - i = n → row_inv fs files i s →
  ∃ t s' r',
    loop_i BUFSIZE LOG_USER fs size cnt i (drop i files) s retval
    = (t, Ret (s', r')) ∧
    ledger_ok fs files s' ∧ notes_ok fs files s' ∧
    (fflags s', r') = baseline_i fs size cnt i (drop i files) (fflags s) retval.
Proof.
  induction n as [|n IH]; intros i s retval Hn Hinv.
  - rewrite drop_ge by lia. exists [], s, retval. split; [done|].
    destruct Hinv as (Hl & _ & _ & Hno & _). done.
  - rewrite drop_lookup_total by lia. cbn [loop_i baseline_i].
    case_bool_decide as Hlast.
    2:{ exists [], s, retval. split; [done|].
        destruct Hinv as (Hl & _ & _ & Hno & _). done. }
    destruct (fflags s !!! i) eqn:Hf.
    { apply IH; [lia|]. apply row_skip; [lia|done]. }
    destruct (loop_j_spec i (cnt - S i) (S i) s) as (t1 & s1 & Hrun1 & Hinv1 & Hbase1);
      [done|lia|apply row_start; [lia|done..]|].
    rewrite Hrun1, bind_Ret.
    assert (dn s = None) as Hdn by apply Hinv. rewrite Hdn in Hbase1.
    rewrite <- Hbase1.
    pose proof (row_end i s1 ltac:(lia) Hinv1) as Hinv2.
    destruct (dn s1) as [d|] eqn:Hd1.
    + destruct (IH (S i) (set_dn None s1) (d :: retval)) as (t2 & s2 & r2 & Hrun2 & H2);
        [lia|done|].
      rewrite Hrun2. exists (t1 ++ t2), s2, r2. split; [done|]. exact H2.
    + rewrite (set_dn_None_id s1 Hd1) in Hinv2.
      destruct (IH (S i) s1 retval) as (t2 & s2 & r2 & Hrun2 & H2); [lia|done|].
      rewrite Hrun2. exists (t1 ++ t2), s2, r2. split; [done|]. exact H2.
Qed.

Lemma cell_replicate_0 pr a :
  pr < cnt → a < cnt → cel (replicate (cnt * cnt) 0%Z) pr a = 0%Z.
Proof.
  intros Hpr Ha. unfold cell. apply lookup_total_replicate_2. by apply index_lt.
Qed.

Lemma row_inv_init : row_inv fs files 0 (init_bstate cnt).
Proof.
  unfold row_inv, init_bstate. split_and!; cbn [ar fflags dn notes].
  - unfold ledger_ok. cbn [ar fflags]. rewrite !length_replicate. split_and!; try done.
    intros pr a Hpa. rewrite cell_replicate_0 by lia. split; [lia|done].
  - intros q a b Hq. lia.
  - intros q a Hq Ha _. cbn [ar]. by apply cell_replicate_0.
  - split; [constructor|]. cbn [ar]. intros pr a Hpr Ha. by rewrite cell_replicate_0.
  - done.
Qed.

(** The resolver on the bucket: it returns, the groups are those of the
    byte-by-byte baseline, and ledger and notes are sound. *)
Lemma bucket_spec retval :
  ∃ t s groups,
    loop_i BUFSIZE LOG_USER fs size cnt 0 files (init_bstate cnt) retval
    = (t, Ret (s, groups)) ∧
    ledger_ok fs files s ∧ notes_ok fs files s ∧
    groups = baseline fs size files retval.
Proof.
  destruct (loop_i_spec cnt 0 (init_bstate cnt) retval) as (t & s & r & Hrun & Hl & Hn & Hb);
    [lia|apply row_inv_init|].
  rewrite drop_0 in Hrun, Hb. exists t, s, r. split; [done|]. split; [done|].
  split; [done|]. unfold baseline. cbn [fflags init_bstate] in Hb. by rewrite <- Hb.
Qed.

End Ledger.

(** * The groups of the byte-by-byte baseline *)

Section Baseline.

Variable fs : string → option file.
Variable size : Z.
Variable files : list fe.

Local Abbreviation cnt := (length files).
Local Abbreviation D := (dat fs files).
Local Abbreviation mk := (mk_group size files).

Lemma copyFileNode_id f : copyFileNode f = f.
Proof. by destruct f. Qed.

Lemma same_content_dat i j :
  same_content fs (files !!! i) (files !!! j) = bool_decide (D i = D j).
Proof. done. Qed.

Lemma twins_S i j :
  i < j →
  twins fs files i (S j)
  = twins fs files i j ++ (if decide (D j = D i) then [j] else []).
Proof.
  intros Hij. unfold twins.
  replace (S j - S i) with (S (j - S i)) by lia.
  rewrite seq_S, filter_app. f_equal.
  replace (S i + (j - S i)) with j by lia.
  rewrite filter_cons, filter_nil. by destruct (decide (D j = D i)).
Qed.

Lemma twins_self i : twins fs files i (S i) = [].
Proof. unfold twins. by rewrite Nat.sub_diag. Qed.

Lemma elem_of_twins i j a :
  a ∈ twins fs files i j ↔ i < a < j ∧ D a = D i.
Proof.
  unfold twins. rewrite list_elem_of_filter, elem_of_seq. split.
  - intros [? ?]. split; [lia|done].
  - intros [? ?]. split; [done|lia].
Qed.

Lemma NoDup_twins i j : NoDup (twins fs files i j).
Proof. apply NoDup_filter, NoDup_seq. Qed.

Lemma flag_insert_true (fl : list bool) k a :
  k < length fl → <[k := true]> fl !!! a = true ↔ a = k ∨ fl !!! a = true.
Proof.
  intros Hk. destruct (decide (k = a)) as [->|Hne].
  - rewrite list_lookup_total_insert_eq by done. tauto.
  - rewrite list_lookup_total_insert_ne by done. split; [tauto|].
    intros [->|?]; done.
Qed.

Section Row.

Variable i : nat.
Variable F0 : list bool.
Variable new : list dupNode.
Hypothesis Hi : i < cnt.
Hypothesis Hinv : groups_inv fs size files i F0 new.
Hypothesis HF0i : F0 !!! i = false.

(** A later file with the content of the leader is not flagged yet. *)
Lemma twin_unflagged a : a < cnt → D a = D i → F0 !!! a = false.
Proof.
  intros Ha Hai. destruct Hinv as (Is & _ & _ & Hfl & _ & _ & _ & Hfull & _).
  destruct (F0 !!! a) eqn:E; [|done].
  apply Hfl in E; [|done]. apply list_elem_of_In, in_concat in E as (I & HI & HaI).
  apply list_elem_of_In in HI, HaI.
  assert (i ∈ I) as HiI by (apply (Hfull I a i); auto).
  assert (F0 !!! i = true); [|congruence].
  apply Hfl; [done|]. apply list_elem_of_In, in_concat. exists I.
  split; by apply list_elem_of_In.
Qed.

(** No earlier file has the content of the leader. *)
Lemma no_earlier_twin a : a < i → D a ≠ D i.
Proof.
  intros Ha Hai. destruct Hinv as (Is & _ & _ & Hfl & _ & _ & _ & Hfull & _ & Hdone).
  assert (a ∈ concat Is) as E by (apply (Hdone a i); [done|lia|done]).
  apply list_elem_of_In, in_concat in E as (I & HI & HaI).
  apply list_elem_of_In in HI, HaI.
  assert (i ∈ I) as HiI by (apply (Hfull I a i); auto).
  assert (F0 !!! i = true); [|congruence].
  apply Hfl; [done|]. apply list_elem_of_In, in_concat. exists I.
  split; by apply list_elem_of_In.
Qed.

Lemma baseline_pair_spec j flags dn :
  i < j < cnt → row_state fs size files F0 i j flags dn →
  ∃ flags' dn',
    baseline_pair fs size i j (files !!! i) (files !!! j) flags dn = (flags', dn') ∧
    row_state fs size files F0 i (S j) flags' dn'.
Proof.
  intros Hij (Hlen & Hfl & Hdn). unfold baseline_pair.
  assert (j ∉ twins fs files i j) as Hjt by (rewrite elem_of_twins; lia).
  assert (flags !!! j = true ↔ F0 !!! j = true) as Hfj.
  { rewrite Hfl by lia. split; [|tauto]. intros [?|[_ [?|?]]]; [done|lia|done]. }
  assert (flags !!! i = true ↔ twins fs files i j ≠ []) as Hfi.
  { rewrite Hfl by lia. split; [|tauto]. intros [?|[? _]]; [congruence|done]. }
  destruct (flags !!! j) eqn:Ej.
  { (* flagged: not a twin *)
    assert (D j ≠ D i) as Hne.
    { intros Heq. apply twin_unflagged in Heq; [|lia]. destruct Hfj as [Hfj _].
      rewrite Hfj in Heq; done. }
    exists flags, dn. split; [done|]. unfold row_state.
    rewrite twins_S by lia. destruct (decide (D j = D i)); [done|].
    rewrite app_nil_r. done. }
  rewrite same_content_dat. destruct (decide (D i = D j)) as [Heq|Hne].
  - rewrite bool_decide_eq_true_2 by done.
    eexists _, _. split; [reflexivity|]. unfold row_state.
    rewrite twins_S by lia. destruct (decide (D j = D i)); [|congruence].
    split_and!.
    + by rewrite !length_insert.
    + intros k Hk. rewrite !flag_insert_true by (rewrite ?length_insert; lia).
      rewrite Hfl by done. rewrite elem_of_app, list_elem_of_singleton.
      split.
      * intros [->|[->|[?|[? ?]]]]; try tauto.
        -- right. split; [by destruct (twins fs files i j)|auto].
        -- right. split; [by destruct (twins fs files i j)|auto].
        -- right. split; [by destruct (twins fs files i j)|tauto].
      * intros [?|[_ [?|[Hk'|?]]]]; try tauto.
        right. right. right. split; [|tauto].
        intros E. rewrite E in Hk'. by apply elem_of_nil in Hk'.
    + destruct (decide (twins fs files i j ++ [j] = [])) as [E|_];
        [by destruct (twins fs files i j)|].
      rewrite reverse_app. cbn [reverse rev_append app].
      destruct (decide (twins fs files i j = [])) as [E|NE].
      * rewrite E in *. subst dn.
        destruct (flags !!! i) eqn:Ei; [by destruct Hfi as [Hfi _]; specialize (Hfi eq_refl)|].
        unfold addDupNode, mk_group. cbn. by rewrite !copyFileNode_id.
      * subst dn. destruct (flags !!! i) eqn:Ei.
        2:{ destruct Hfi as [_ Hfi]. specialize (Hfi NE). congruence. }
        unfold addDupNode, mk_group. cbn. by rewrite !copyFileNode_id.
  - rewrite bool_decide_eq_false_2 by done.
    exists flags, dn. split; [done|]. unfold row_state.
    rewrite twins_S by lia. destruct (decide (D j = D i)); [congruence|].
    rewrite app_nil_r. done.
Qed.

Lemma baseline_j_spec n : ∀ j flags dn,
  cnt - j = n → i < j ≤ cnt → row_state fs size files F0 i j flags dn →
  ∃ flags' dn',
    baseline_j fs size i j (files !!! i) (drop j files) flags dn = (flags', dn') ∧
    row_state fs size files F0 i cnt flags' dn'.
Proof.
  induction n as [|n IH]; intros j flags dn Hn Hij Hst.
  - rewrite drop_ge by lia. exists flags, dn. split; [done|].
    by replace cnt with j by lia.
  - rewrite (drop_S files (files !!! j) j)
      by (apply list_lookup_lookup_total_lt; lia).
    cbn [baseline_j].
    destruct (baseline_pair_spec j flags dn) as (flags1 & dn1 & -> & Hst1); [lia|done|].
    apply IH; [lia|lia|done].
Qed.

Lemma in_concat_cons (I : list nat) Is k :
  k ∈ concat (I :: Is) ↔ k ∈ I ∨ k ∈ concat Is.
Proof. cbn [concat]. apply elem_of_app. Qed.

(** The row is done: the invariant of the next row. *)
Lemma row_done flags dn :
  row_state fs size files F0 i cnt flags dn →
  groups_inv fs size files (S i) flags
    (match dn with Some d => d :: new | None => new end).
Proof.
  intros (Hlen & Hfl & Hdn).
  pose proof twin_unflagged as Htu. pose proof no_earlier_twin as Hne.
  destruct Hinv as (Is & Hnew & HlenF & HF & Hnd & Hbd & Huni & Hfull & Hsz & Hdone).
  destruct (decide (twins fs files i cnt = [])) as [E|NE]; subst dn.
  - (* no twin: no group *)
    exists Is. split_and!; try done.
    + intros k Hk. rewrite Hfl by done. rewrite <- HF by done. rewrite E. tauto.
    + intros k k' Hk Hk' Hkk'. destruct (decide (k = i)) as [->|]; [|apply (Hdone k k'); [lia|done..]].
      assert (k' ∈ twins fs files i cnt) as Hin by (rewrite elem_of_twins; split; [lia|done]).
      rewrite E in Hin. by apply elem_of_nil in Hin.
  - set (T := twins fs files i cnt) in *.
    assert (∀ k, k ∈ reverse T ++ [i] ↔ k = i ∨ k ∈ T) as HI.
    { intros k. rewrite elem_of_app, elem_of_reverse, list_elem_of_singleton. tauto. }
    assert (∀ k, k ∈ reverse T ++ [i] → k < cnt ∧ D k = D i ∧ F0 !!! k = false) as HIp.
    { intros k [->|Hk]%HI; [done|]. apply elem_of_twins in Hk as [? ?].
      split; [lia|]. split; [done|]. apply Htu; [lia|done]. }
    exists ((reverse T ++ [i]) :: Is). split_and!.
    + by rewrite fmap_cons, Hnew.
    + done.
    + intros k Hk. rewrite Hfl, in_concat_cons, HI, <- HF by done. tauto.
    + cbn [concat]. apply NoDup_app. split_and!; [|intros k Hk Hk'|done].
      * apply NoDup_app. split_and!; [rewrite reverse_Permutation; apply NoDup_twins| |apply NoDup_singleton].
        intros k Hk ->%list_elem_of_singleton. apply elem_of_reverse, elem_of_twins in Hk. lia.
      * destruct (HIp k Hk) as (Hkc & _ & Hkf).
        apply HF in Hk'; [|done]. congruence.
    + intros k [Hk|Hk]%in_concat_cons; [by apply HIp|by apply Hbd].
    + intros I k k' [->|HI']%elem_of_cons Hk Hk'; [|by apply (Huni I)].
      destruct (HIp k Hk) as (_ & -> & _). by destruct (HIp k' Hk') as (_ & -> & _).
    + intros I k k' [->|HI']%elem_of_cons Hk Hk' Hkk'; [|by apply (Hfull I k)].
      destruct (HIp k Hk) as (_ & Hki & _). rewrite Hki in Hkk'. apply HI.
      destruct (Nat.lt_trichotomy k' i) as [Hlt|[->|Hgt]]; [|by left|].
      * by destruct (Hne k' Hlt).
      * right. apply elem_of_twins. split; [lia|done].
    + intros I [->|HI']%elem_of_cons; [|by apply Hsz].
      rewrite length_app, length_reverse. cbn. destruct T; [done|cbn; lia].
    + intros k k' Hk Hk' Hkk'. apply in_concat_cons.
      destruct (decide (k = i)) as [->|]; [left; apply HI; by left|].
      right. apply (Hdone k k'); [lia|done..].
Qed.

End Row.

Lemma row_flagged i F0 new :
  i < cnt → groups_inv fs size files i F0 new → F0 !!! i = true →
  groups_inv fs size files (S i) F0 new.
Proof.
  intros Hi (Is & Hnew & HlenF & HF & Hnd & Hbd & Huni & Hfull & Hsz & Hdone) Hf.
  exists Is. split_and!; try done.
  intros k k' Hk Hk' Hkk'. destruct (decide (k = i)) as [->|].
  - by apply HF.
  - apply (Hdone k k'); [lia|done..].
Qed.

Lemma row_state_init i F0 :
  length F0 = cnt → row_state fs size files F0 i (S i) F0 None.
Proof.
  intros Hlen. unfold row_state. rewrite twins_self. split_and!; try done.
  intros k Hk. split; [tauto|]. intros [?|[? _]]; done.
Qed.

Lemma baseline_i_spec n : ∀ i flags new,
  cnt - i = n → groups_inv fs size files i flags new →
  ∃ i' flags' new',
    (∀ retval0, baseline_i fs size cnt i (drop i files) flags (new ++ retval0)
                = (flags', new' ++ retval0)) ∧
    cnt - 1 ≤ i' ∧ groups_inv fs size files i' flags' new'.
Proof.
  induction n as [|n IH]; intros i flags new Hn Hinv.
  - rewrite drop_ge by lia. exists i, flags, new. split; [done|]. split; [lia|done].
  - rewrite (drop_S files (files !!! i) i) by (apply list_lookup_lookup_total_lt; lia).
    cbn [baseline_i]. case_bool_decide as Hlast.
    2:{ exists i, flags, new. split; [done|]. split; [lia|done]. }
    destruct (flags !!! i) eqn:Hf.
    { apply IH; [lia|]. apply row_flagged; [lia|done..]. }
    destruct (baseline_j_spec i flags new ltac:(lia) Hinv Hf (cnt - S i) (S i) flags None)
      as (flags1 & dn1 & -> & Hst); [done|lia| |].
    { apply row_state_init. by destruct Hinv as (Is & _ & ? & _). }
    pose proof (row_done i flags new ltac:(lia) Hinv Hf flags1 dn1 Hst) as Hinv1.
    destruct dn1 as [d|].
    + destruct (IH (S i) flags1 (d :: new)) as (i' & flags' & new' & Hrun & H'); [lia|done|].
      exists i', flags', new'. split; [exact Hrun|exact H'].
    + by apply IH; [lia|].
Qed.

Lemma groups_inv_init : groups_inv fs size files 0 (replicate cnt false) [].
Proof.
  exists []. split_and!; try done.
  - by rewrite length_replicate.
  - intros k Hk. rewrite lookup_total_replicate_2 by done. cbn. split; [done|].
    intros H. by apply elem_of_nil in H.
  - constructor.
  - intros k H. by apply elem_of_nil in H.
  - intros I k k' H. by apply elem_of_nil in H.
  - intros I k k' H. by apply elem_of_nil in H.
  - intros I H. by apply elem_of_nil in H.
  - intros k k' Hk. lia.
Qed.

(** The groups the baseline adds do not depend on the chain they are
    pushed on. *)
Lemma baseline_groups :
  ∃ i flags,
    (∀ retval, baseline fs size files retval = baseline fs size files [] ++ retval) ∧
    cnt - 1 ≤ i ∧ groups_inv fs size files i flags (baseline fs size files []).
Proof.
  destruct (baseline_i_spec cnt 0 (replicate cnt false) [])
    as (i & flags & new & Hrun & Hi & Hinv); [lia|apply groups_inv_init|].
  rewrite drop_0 in Hrun. cbn [app] in Hrun.
  assert (baseline fs size files [] = new) as Hnew.
  { unfold baseline. rewrite (Hrun []). apply app_nil_r. }
  exists i, flags. rewrite Hnew. split; [|done].
  intros retval. unfold baseline. by rewrite Hrun.
Qed.

(** A group of the baseline is made of files of one content. *)
Lemma baseline_uniform g f f' :
  g ∈ baseline fs size files [] → f ∈ dfiles g → f' ∈ dfiles g →
  data_of fs f = data_of fs f'.
Proof.
  destruct baseline_groups as (i & flags & _ & _ & Is & -> & _ & _ & _ & _ & Huni & _).
  intros (I & -> & HI)%list_elem_of_fmap.
  intros (k & -> & Hk)%list_elem_of_fmap (k' & -> & Hk')%list_elem_of_fmap.
  by apply (Huni I).
Qed.

(** Files of one content are all in one group of the baseline. *)
Lemma baseline_complete a b :
  a < b < cnt → D a = D b →
  ∃ g, g ∈ baseline fs size files [] ∧
       ∀ c, c < cnt → D c = D a → files !!! c ∈ dfiles g.
Proof.
  intros Hab Heq.
  destruct baseline_groups
    as (i & flags & _ & Hi & Is & -> & _ & _ & _ & _ & _ & Hfull & _ & Hdone).
  assert (a ∈ concat Is) as Ha by (apply (Hdone a b); [lia|done..]).
  apply list_elem_of_In, in_concat in Ha as (I & HI & HaI).
  apply list_elem_of_In in HI, HaI.
  exists (mk I). split; [by apply list_elem_of_fmap_2|].
  intros c Hc Hca. cbn [mk_group dfiles]. apply list_elem_of_fmap_2'  with c; [|done].
  by apply (Hfull I a c).
Qed.

Lemma concat_dfiles_mk (Is : list (list nat)) :
  concat (dfiles <$> (mk <$> Is)) = (λ k, files !!! k) <$> concat Is.
Proof.
  induction Is as [|I Is IH]; [done|]. cbn [fmap list_fmap concat].
  rewrite fmap_app. f_equal. exact IH.
Qed.

Lemma fmap_lookup_total_seq : (λ k, files !!! k) <$> seq 0 cnt = files.
Proof.
  apply list_eq. intros k. rewrite list_lookup_fmap.
  destruct (decide (k < cnt)) as [Hk|Hk].
  - rewrite lookup_seq_lt by done. cbn. symmetry.
    by apply list_lookup_lookup_total_lt.
  - rewrite lookup_seq_ge by lia. cbn. symmetry. apply lookup_ge_None_2. lia.
Qed.

(** No entry of the bucket is used twice. *)
Lemma baseline_submseteq :
  concat (dfiles <$> baseline fs size files []) ⊆+ files.
Proof.
  destruct baseline_groups as (i & flags & _ & _ & Is & -> & _ & _ & Hnd & Hbd & _).
  rewrite concat_dfiles_mk.
  assert ((λ k, files !!! k) <$> concat Is ⊆+ (λ k, files !!! k) <$> seq 0 cnt) as H.
  { apply fmap_submseteq, NoDup_submseteq; [done|].
    intros k Hk. apply elem_of_seq. specialize (Hbd k Hk). lia. }
  by rewrite fmap_lookup_total_seq in H.
Qed.

Lemma baseline_group_size g :
  g ∈ baseline fs size files [] → 2 ≤ length (dfiles g).
Proof.
  destruct baseline_groups as (i & flags & _ & _ & Is & -> & _ & _ & _ & _ & _ & _ & Hsz & _).
  intros (I & -> & HI)%list_elem_of_fmap. cbn. rewrite length_fmap. by apply Hsz.
Qed.

End Baseline.

(** * The resolver and the baseline *)

Section Refinement.

Variable BUFSIZE : nat.
Variable LOG_USER : Z.
Variable fs : string → option file.
Hypothesis BUFSIZE_ok : chunk_ok BUFSIZE.

(** A bucket of two files or more, whose sizes and number fit the
    integers of the resolver, is resolved: the call returns, with the
    groups of the byte-by-byte baseline in front of the chain. *)
Lemma resolve_bucket_spec size files retval :
  bucket_ok fs (size, files) →
  ∃ t, resolve_bucket BUFSIZE LOG_USER fs size files retval
       = (t, Ret (bucket_groups fs size files ++ retval)).
Proof.
  unfold bucket_ok, fits_int. cbn [fst snd]. intros (H2 & Hcnt & Hgen).
  unfold resolve_bucket, bucket_groups.
  rewrite bool_decide_eq_false_2 by lia.
  rewrite !(bool_decide_eq_false_2 (length files < 2)) by lia.
  destruct (Z.eqb_spec size 0) as [->|Hne]; cbn [negb]; [by exists []|].
  destruct (Hgen Hne) as [Hsq Hr].
  rewrite bool_decide_eq_true_2 by done.
  destruct (bucket_spec BUFSIZE LOG_USER fs size files BUFSIZE_ok Hr retval)
    as (t & s & groups & -> & _ & _ & ->).
  destruct (baseline_groups fs size files) as (i & flags & Hb & _).
  exists t. rewrite bind_Ret. unfold before. cbn [fst snd mret M_ret].
  by rewrite app_nil_r, (Hb retval).
Qed.

(** On such a bucket of a size other than 0, what [resolve_bucket]
    does is the run of the pair loops on the new ledger. *)
Lemma resolve_bucket_loop_i size files retval t s r :
  bucket_ok fs (size, files) → size ≠ 0%Z →
  loop_i BUFSIZE LOG_USER fs size (length files) 0 files
    (init_bstate (length files)) retval = (t, Ret (s, r)) →
  resolve_bucket BUFSIZE LOG_USER fs size files retval = (t, Ret r).
Proof.
  unfold bucket_ok, fits_int. cbn [fst snd]. intros (H2 & Hcnt & Hgen) Hne Hrun.
  destruct (Hgen Hne) as [Hsq _].
  unfold resolve_bucket.
  rewrite bool_decide_eq_false_2 by lia.
  rewrite bool_decide_eq_false_2 by lia.
  destruct (Z.eqb_spec size 0) as [|_]; [done|]. cbn [negb].
  rewrite bool_decide_eq_true_2 by done.
  rewrite Hrun, bind_Ret. unfold before. cbn [fst snd mret M_ret].
  by rewrite app_nil_r.
Qed.

Lemma tree_files_node size c files l r col :
  tree_files (MkNode size c files l r col) = tree_files l ++ files ++ tree_files r.
Proof.
  unfold tree_files. cbn [buckets]. by rewrite fmap_app, concat_app.
Qed.

(** On a tree of such buckets the resolver returns the groups of the
    byte-by-byte baseline. *)
Lemma chkForDups_spec node : ∀ retval,
  Forall (bucket_ok fs) (buckets node) →
  ∃ t, chkForDups BUFSIZE LOG_USER fs node retval
       = (t, Ret (tree_groups fs node ++ retval)).
Proof.
  induction node as [|size c files l IHl r IHr col]; intros retval Hr.
  - by exists [].
  - cbn [buckets] in Hr. rewrite Forall_app, Forall_cons in Hr.
    destruct Hr as (Hl & Hf & Hr).
    cbn [chkForDups tree_groups].
    destruct (IHl retval Hl) as (t1 & ->). rewrite bind_Ret.
    destruct (resolve_bucket_spec size files (tree_groups fs l ++ retval) Hf) as (t2 & ->).
    rewrite bind_Ret.
    destruct (IHr (bucket_groups fs size files ++ tree_groups fs l ++ retval) Hr)
      as (t3 & ->).
    exists (t1 ++ t2 ++ t3). unfold before. cbn [fst snd].
    by rewrite <- !app_assoc.
Qed.

Lemma bucket_groups_submseteq size files :
  concat (dfiles <$> bucket_groups fs size files) ⊆+ files.
Proof.
  unfold bucket_groups. case_bool_decide; [apply submseteq_nil_l|].
  destruct (negb (size =? 0)%Z); [apply baseline_submseteq|].
  cbn. by rewrite app_nil_r.
Qed.

(** No entry of the tree is in two groups, or twice in one. *)
Lemma tree_groups_submseteq node :
  concat (dfiles <$> tree_groups fs node) ⊆+ tree_files node.
Proof.
  induction node as [|size c files l IHl r IHr col]; [done|].
  rewrite tree_files_node. cbn [tree_groups].
  rewrite !fmap_app, !concat_app.
  set (Gr := concat (dfiles <$> tree_groups fs r)) in *.
  set (Gl := concat (dfiles <$> tree_groups fs l)) in *.
  set (Gb := concat (dfiles <$> bucket_groups fs size files)).
  assert (Gr ++ Gb ++ Gl ≡ₚ Gl ++ Gb ++ Gr) as ->.
  { rewrite (Permutation_app_comm Gr), !app_assoc.
    apply Permutation_app_tail, Permutation_app_comm. }
  apply submseteq_app; [exact IHl|].
  apply submseteq_app; [apply bucket_groups_submseteq|exact IHr].
Qed.

End Refinement.

(** * The ledger, the inference and the groups *)

Section ResolverClaims.

Variable BUFSIZE : nat.
Variable LOG_USER : Z.
Variable fs : string → option file.
Hypothesis BUFSIZE_ok : chunk_ok BUFSIZE.

(** The scan rules a pair out exactly when some row below [i], any
    row, holds different values in the columns [i] and [j]. *)
Lemma scan_rows_rules_out cnt i j (ar : list Z) :
  ((scan_rows i 0 cnt i j ar 0).1 < 0)%Z
  ↔ ∃ pr, pr < i ∧ cell cnt ar pr i ≠ cell cnt ar pr j.
Proof.
  split.
  - intros H. apply scan_rows_neg in H as [H1 H2]; [|lia].
    eexists. split; [|exact H2]. lia.
  - intros (pr & Hpr & Hne).
    destruct (Z.lt_ge_cases (scan_rows i 0 cnt i j ar 0).1 0) as [|Hge]; [done|].
    apply scan_rows_nonneg in Hge as [Hall _]. destruct Hne. apply Hall. lia.
Qed.

(** A group of a bucket is a group of the tree. *)
Lemma bucket_groups_in_tree node size files g :
  (size, files) ∈ buckets node → g ∈ bucket_groups fs size files →
  g ∈ tree_groups fs node.
Proof.
  induction node as [|s c fl l IHl r IHr col]; cbn [buckets tree_groups].
  - by intros ?%elem_of_nil.
  - intros Hb Hg. rewrite !elem_of_app.
    apply elem_of_app in Hb as [Hb|Hb]; [right; right; by apply IHl|].
    apply elem_of_cons in Hb as [[= <- <-]|Hb]; [by right; left|].
    left. by apply IHr.
Qed.

(** In a chain of lists with no repeated entry, an entry is at one
    position only. *)
Lemma NoDup_concat_lookup {A} (L : list (list A)) k k' x x' e :
  NoDup (concat L) → L !! k = Some x → L !! k' = Some x' →
  e ∈ x → e ∈ x' → k = k'.
Proof.
  revert k k'. induction L as [|y L IH]; intros k k'; [done|].
  cbn [concat]. intros [Hy [Hd HL]]%NoDup_app Hk Hk' Hx Hx'.
  assert (∀ n z, L !! n = Some z → e ∈ z → e ∈ concat L) as Hin.
  { intros n z Hn Hz. apply list_elem_of_In, in_concat. exists z.
    split; apply list_elem_of_In; [by eapply list_elem_of_lookup_2|done]. }
  destruct k as [|k], k' as [|k']; cbn in Hk, Hk'.
  - done.
  - injection Hk as <-. destruct (Hd e Hx). by apply (Hin k' x').
  - injection Hk' as <-. destruct (Hd e Hx'). by apply (Hin k x).
  - f_equal. by apply IH.
Qed.

Lemma submseteq_NoDup' {A} (l k : list A) : l ⊆+ k → NoDup k → NoDup l.
Proof.
  intros (k' & Hk)%submseteq_Permutation. rewrite Hk.
  by intros [? _]%NoDup_app.
Qed.

(** C1 (amended): take a bucket of two or more files of a size other
    than 0, all of which can be read, where the read size, the lengths
    of the files and the square of their number fit an [int].  The pair
    loops return, [resolve_bucket] returns what they return, and the
    groups they add are those of the byte-by-byte baseline.  Whenever
    the scan of the previous rows rules a pair [(i, j)] out without
    reading, the two files do differ; no group holds two files of
    different content (no false duplicate), and two files of equal
    content are in one group (no suppressed duplicate).  The scan
    consults every row below [i], whether any of its cells was ever
    written or not: it rules the pair out exactly when one of these
    rows holds different values in the two columns, a cell that was
    never written holding the 0 it was allocated with. *)
Theorem C1_inference_agrees_with_full_comparison
    (size : Z) (files : list fe) (retval : list dupNode) :
  bucket_ok fs (size, files) → size ≠ 0%Z →
  ∃ t s new,
    loop_i BUFSIZE LOG_USER fs size (length files) 0 files
      (init_bstate (length files)) retval = (t, Ret (s, new ++ retval)) ∧
    resolve_bucket BUFSIZE LOG_USER fs size files retval = (t, Ret (new ++ retval)) ∧
    new = baseline fs size files [] ∧
    (∀ i j pr, Inferred i j pr ∈ notes s →
       i < j < length files ∧ pr < i ∧
       data_of fs (files !!! i) ≠ data_of fs (files !!! j)) ∧
    (∀ g f f', g ∈ new → f ∈ dfiles g → f' ∈ dfiles g →
       data_of fs f = data_of fs f') ∧
    (∀ a b, a < b < length files →
       data_of fs (files !!! a) = data_of fs (files !!! b) →
       ∃ g, g ∈ new ∧ files !!! a ∈ dfiles g ∧ files !!! b ∈ dfiles g) ∧
    (∀ i j ar,
       ((scan_rows i 0 (length files) i j ar 0).1 < 0)%Z
       ↔ ∃ pr, pr < i ∧
               cell (length files) ar pr i ≠ cell (length files) ar pr j) ∧
    (∀ i j, i < length files → j < length files →
       (∀ v off, Wrote i j v off ∉ notes s) →
       cell (length files) (ar s) i j = 0%Z).
Proof.
  intros Hok Hsz.
  assert (Forall (file_ok fs) files) as Hr by (by apply Hok).
  destruct (bucket_spec BUFSIZE LOG_USER fs size files BUFSIZE_ok Hr retval)
    as (t & s & groups & Hrun & _ & [Hnotes Hcells] & ->).
  destruct (baseline_groups fs size files) as (n & flags & Happ & _).
  exists t, s, (baseline fs size files []). rewrite <- Happ.
  split; [done|].
  split; [by apply (resolve_bucket_loop_i BUFSIZE LOG_USER fs size files retval t s)|].
  split; [done|]. split_and!.
  - intros i j pr Hin. rewrite Forall_forall in Hnotes.
    exact (Hnotes _ Hin).
  - apply baseline_uniform.
  - intros a b Hab Heq.
    destruct (baseline_complete fs size files a b Hab Heq) as (g & Hg & Hall).
    exists g. split; [done|]. split; apply Hall; [lia|done|lia|done].
  - intros i j ar. apply scan_rows_rules_out.
  - intros i j Hi Hj Hnone.
    destruct (decide (cell (length files) (ar s) i j = 0%Z)) as [|Hne]; [done|].
    destruct (Hcells i j Hi Hj Hne) as [off Hin]. by destruct (Hnone _ _ Hin).
Qed.

(** C3 (amended): take a bucket of two or more files of a size other
    than 0, all of which can be read, where the read size, the lengths
    of the files and the square of their number fit an [int].  Every
    write of a ledger cell [(i, j)] is made during the comparison of
    the pair [(i, j)], with [i < j], and the value [v] it stores is the
    number of bytes that this comparison has read and found identical
    so far: the offset [off] the descriptors have reached less the
    prefix [skip] that the seek skipped, a prefix that is not counted
    in the cell.  The first [off] bytes of the two files are identical.
    At the end a cell that is not 0 holds the value of such a write,
    and no cell exceeds the length of the common prefix of its pair. *)
Theorem C3_ledger_counts_bytes_matched_after_the_seek
    (size : Z) (files : list fe) (retval : list dupNode) :
  bucket_ok fs (size, files) → size ≠ 0%Z →
  ∃ t s groups,
    loop_i BUFSIZE LOG_USER fs size (length files) 0 files
      (init_bstate (length files)) retval = (t, Ret (s, groups)) ∧
    resolve_bucket BUFSIZE LOG_USER fs size files retval = (t, Ret groups) ∧
    (∀ i j v off, Wrote i j v off ∈ notes s →
       i < j < length files ∧
       ∃ skip, Compared i j skip ∈ notes s ∧ (0 ≤ skip)%Z ∧
               v = (Z.of_nat off - skip)%Z ∧
               take off (data_of fs (files !!! i))
               = take off (data_of fs (files !!! j))) ∧
    (∀ i j, i < length files → j < length files →
       cell (length files) (ar s) i j ≠ 0%Z →
       ∃ off, Wrote i j (cell (length files) (ar s) i j) off ∈ notes s) ∧
    (∀ i j, i < j < length files →
       (0 ≤ cell (length files) (ar s) i j)%Z ∧
       take (Z.to_nat (cell (length files) (ar s) i j)) (data_of fs (files !!! i))
       = take (Z.to_nat (cell (length files) (ar s) i j)) (data_of fs (files !!! j))).
Proof.
  intros Hok Hsz.
  assert (Forall (file_ok fs) files) as Hr by (by apply Hok).
  destruct (bucket_spec BUFSIZE LOG_USER fs size files BUFSIZE_ok Hr retval)
    as (t & s & groups & Hrun & (_ & _ & Hled) & [Hnotes Hcells] & _).
  exists t, s, groups. split; [done|].
  split; [by apply (resolve_bucket_loop_i BUFSIZE LOG_USER fs size files retval t s)|].
  split_and!.
  - intros i j v off Hin. rewrite Forall_forall in Hnotes.
    exact (Hnotes _ Hin).
  - exact Hcells.
  - intros i j Hij. destruct (Hled i j Hij) as [[H0 _] Ht]. done.
Qed.

(** C4: take an index of distinct entries in which every bucket has
    two files or more and, unless its size is 0, files that can be
    read, where the read size, the lengths of the files and the square
    of their number fit an [int].  Let three entries of one bucket of a
    size other than 0 have the same content.  Then [chkForDups]
    returns, exactly one group of its chain holds any of the three, and
    it holds all three; and the entries of all the groups together are
    entries of the index, each used at most once, so that no entry is
    in two groups or twice in one. *)
Theorem C4_identical_files_share_one_group
    (root : Node) (size : Z) (files : list fe) (a b c : nat) (fa fb fc : fe) :
  Forall (bucket_ok fs) (buckets root) →
  NoDup (tree_files root) →
  (size, files) ∈ buckets root → size ≠ 0%Z →
  a < b < c →
  files !! a = Some fa → files !! b = Some fb → files !! c = Some fc →
  data_of fs fa = data_of fs fb → data_of fs fb = data_of fs fc →
  ∃ t groups,
    chkForDups BUFSIZE LOG_USER fs root [] = (t, Ret groups) ∧
    (∃ k g, groups !! k = Some g ∧
            fa ∈ dfiles g ∧ fb ∈ dfiles g ∧ fc ∈ dfiles g ∧
            ∀ k' g', groups !! k' = Some g' →
                     fa ∈ dfiles g' ∨ fb ∈ dfiles g' ∨ fc ∈ dfiles g' → k' = k) ∧
    concat (dfiles <$> groups) ⊆+ tree_files root ∧
    NoDup (concat (dfiles <$> groups)).
Proof.
  intros Hr Hnd Hb Hsz Habc Ha Hb' Hc Hab Hbc.
  destruct (chkForDups_spec BUFSIZE LOG_USER fs BUFSIZE_ok root [] Hr) as (t & Hrun).
  rewrite app_nil_r in Hrun. exists t, (tree_groups fs root).
  pose proof (tree_groups_submseteq fs root) as Hsub.
  pose proof (submseteq_NoDup' _ _ Hsub Hnd) as Hnd'.
  split; [done|]. split; [|done].
  pose proof (lookup_lt_Some _ _ _ Hc) as Hlen.
  assert (files !!! a = fa) as Ea by (by apply list_lookup_total_correct).
  assert (files !!! b = fb) as Eb by (by apply list_lookup_total_correct).
  assert (files !!! c = fc) as Ec by (by apply list_lookup_total_correct).
  destruct (baseline_complete fs size files a b) as (g & Hg & Hall);
    [lia|unfold dat; congruence|].
  assert (g ∈ tree_groups fs root) as Hgt.
  { apply (bucket_groups_in_tree root size files); [done|].
    unfold bucket_groups. case_bool_decide; [lia|].
    by destruct (Z.eqb_spec size 0). }
  apply list_elem_of_lookup in Hgt as [k Hk]. exists k, g.
  assert (fa ∈ dfiles g) as Hfa by (rewrite <- Ea; apply Hall; [lia|done]).
  assert (fb ∈ dfiles g) as Hfb
    by (rewrite <- Eb; apply Hall; [lia|unfold dat; congruence]).
  assert (fc ∈ dfiles g) as Hfc
    by (rewrite <- Ec; apply Hall; [lia|unfold dat; congruence]).
  split_and!; [done..|].
  intros k' g' Hk' Hin.
  assert (∀ e, e ∈ dfiles g → e ∈ dfiles g' → k' = k) as Huniq.
  { intros e He He'.
    apply (NoDup_concat_lookup (dfiles <$> tree_groups fs root) k' k
             (dfiles g') (dfiles g) e); [done| | |done..].
    - by rewrite list_lookup_fmap, Hk'.
    - by rewrite list_lookup_fmap, Hk. }
  destruct Hin as [?|[?|?]]; eauto.
Qed.

(** C5: on a bucket of two or more files of a size other than 0, all
    of which can be read, where the read size, the lengths of the files
    and the square of their number fit an [int], the resolver returns
    and none of the groups it adds holds two files whose contents
    differ.  In the read loop, when the two chunks read
    differ, in length or in a byte, the loop is left after these two
    reads with the flags, the ledger and the group under construction
    as they were. *)
Theorem C5_differing_files_share_no_group
    (size : Z) (files : list fe) (retval : list dupNode) :
  bucket_ok fs (size, files) → size ≠ 0%Z →
  (∃ t new,
     resolve_bucket BUFSIZE LOG_USER fs size files retval = (t, Ret (new ++ retval)) ∧
     ∀ fi fj, data_of fs fi ≠ data_of fs fj →
              ∀ g, g ∈ new → ¬ (fi ∈ dfiles g ∧ fj ∈ dfiles g)) ∧
  (∀ fuel cnt i j fi fj fdi fdj s,
     f_read_ok (fd_file fdi) (fd_pos fdi) = true →
     f_read_ok (fd_file fdj) (fd_pos fdj) = true →
     take BUFSIZE (drop (fd_pos fdi) (f_data (fd_file fdi)))
     ≠ take BUFSIZE (drop (fd_pos fdj) (f_data (fd_file fdj))) →
     read_loop BUFSIZE LOG_USER (S fuel) size cnt i j fi fj fdi fdj s
     = ([EvRead (fd_path fdi) (do_read BUFSIZE fdi).1.1;
         EvRead (fd_path fdj) (do_read BUFSIZE fdj).1.1], Ret s)).
Proof.
  intros Hr Hsz. split.
  - destruct (resolve_bucket_spec BUFSIZE LOG_USER fs BUFSIZE_ok size files retval Hr)
      as (t & Hrun).
    exists t, (bucket_groups fs size files). split; [done|].
    intros fi fj Hne g Hg [Hi Hj]. apply Hne.
    unfold bucket_groups in Hg. case_bool_decide; [by apply elem_of_nil in Hg|].
    destruct (Z.eqb_spec size 0); [done|]. cbn [negb] in Hg.
    by apply (baseline_uniform fs size files g).
  - intros fuel cnt i j fi fj fdi fdj s Hri Hrj Hne.
    cbn [read_loop]. unfold sys_read, do_read. rewrite Hri, Hrj.
    rewrite !bind_Ret. cbn [fst snd].
    rewrite !int_of_long_chunk by apply BUFSIZE_ok.
    rewrite !of_nat_ltb_0. cbn [orb].
    set (ci := take BUFSIZE (drop (fd_pos fdi) (f_data (fd_file fdi)))) in *.
    set (cj := take BUFSIZE (drop (fd_pos fdj) (f_data (fd_file fdj)))) in *.
    destruct (Z.eqb_spec (Z.of_nat (length ci)) (Z.of_nat (length cj))) as [E|E];
      cbn [negb]; [|done].
    unfold memcmp. rewrite Nat2Z.id.
    rewrite (take_ge ci) by lia. rewrite (take_ge cj) by lia.
    destruct (decide (ci = cj)); [done|]. done.
Qed.

End ResolverClaims.

Section ReportClaims.

Variable BUFSIZE : nat.
Variable LOG_USER : Z.
Variable fs : string → option file.
Variable FTW_F : Z.
Variable nftw : string → list (string * stat * Z) * Z.

(** C10: the value [nftw] returns is not looked at: a run in which a
    walk returns -1 is the run in which it returns 0 after the same
    visits.  [main] inserts what the walks of all the directories
    visited, the directories after a failed walk included, and
    resolves the tree.  Whenever the resolver returns a chain, [main]
    prints, for each group in turn, the line of its size and the name
    of each of its files, and returns 0.  The resolver does return,
    with the groups of the byte-by-byte baseline, when every bucket of
    the tree has two files or more and, unless its size is 0, files
    that can be read, the read size, the lengths of the files and the
    square of their number fitting an [int]. *)
Theorem C10_nftw_failure_is_ignored (argv : list string) :
  1 ≤ length argv →
  let report (d : dupNode) :=
    EvPrintf "duplicates of size %ld
" [ArgLong (dsize d)]
    :: ((λ fp, EvPrintf "%s
" [ArgStr (name fp)]) <$> dfiles d) in
  (∀ nftw' : string → list (string * stat * Z) * Z,
     (∀ d, (nftw' d).1 = (nftw d).1) →
     main BUFSIZE LOG_USER fs FTW_F nftw' argv = main BUFSIZE LOG_USER fs FTW_F nftw argv) ∧
  ∃ root,
    visit_all FTW_F NULL (concat ((λ d, (nftw d).1) <$> tail argv)) = Some root ∧
    (∀ t dups,
       chkForDups BUFSIZE LOG_USER fs root [] = (t, Ret dups) →
       main BUFSIZE LOG_USER fs FTW_F nftw argv
       = (t ++ concat (report <$> dups), Ret 0%Z)) ∧
    (chunk_ok BUFSIZE → Forall (bucket_ok fs) (buckets root) →
     ∃ t,
       chkForDups BUFSIZE LOG_USER fs root [] = (t, Ret (tree_groups fs root)) ∧
       main BUFSIZE LOG_USER fs FTW_F nftw argv
       = (t ++ concat (report <$> tree_groups fs root), Ret 0%Z)).
Proof.
  intros Hargc report. split.
  - intros nftw' Hsame. unfold main. case_bool_decide; [done|].
    rewrite !scan_dirs_visit_all.
    by rewrite (list_fmap_ext (λ d, (nftw' d).1) (λ d, (nftw d).1) (tail argv))
      by (intros; apply Hsame).
  - destruct (visit_all_tree_ok FTW_F (concat ((λ d, (nftw d).1) <$> tail argv))
                NULL tree_ok_NULL) as (root & E & _).
    exists root. split; [done|].
    assert (∀ t dups,
              chkForDups BUFSIZE LOG_USER fs root [] = (t, Ret dups) →
              main BUFSIZE LOG_USER fs FTW_F nftw argv
              = (t ++ concat (report <$> dups), Ret 0%Z)) as Hmain.
    { intros t dups Hrun. unfold main. case_bool_decide; [lia|].
      rewrite scan_dirs_visit_all, E, Hrun, bind_Ret. reflexivity. }
    split; [done|]. intros Hchunk Hok.
    destruct (chkForDups_spec BUFSIZE LOG_USER fs Hchunk root [] Hok) as (t & Hrun).
    rewrite app_nil_r in Hrun. exists t. split; [done|]. by apply Hmain.
Qed.

End ReportClaims.

(** The size of a group is the size of its bucket converted to [int]:
    [addDupNode] takes it as an [int]. *)
Example addDupNode_size :
  dsize (addDupNode 5 (FE "a" 1 1) None) = 5%Z ∧
  dsize (addDupNode (2 ^ 32 + 5) (FE "a" 1 1) None) = 5%Z.
Proof. split; reflexivity. Qed.

(** The example worlds are within the preconditions: their files can
    be read, and the numbers fit. *)
Ltac ex_file_ok :=
  split; [eexists; split; [reflexivity|split; reflexivity]|vm_compute; reflexivity].

Ltac ex_files_ok :=
  cbn; repeat (apply Forall_cons; split; [ex_file_ok|]); apply Forall_nil_2.

Ltac ex_chunk_ok := split; [lia|vm_compute; reflexivity].

Ltac ex_bucket_ok :=
  unfold bucket_ok; cbn [fst snd];
  split; [cbn; lia|];
  split; [vm_compute; reflexivity|];
  intros _; split; [vm_compute; reflexivity|ex_files_ok].

Ltac ex_buckets_ok :=
  cbn [buckets app];
  repeat (apply Forall_cons; split; [ex_bucket_ok|]); apply Forall_nil_2.

(** C1, as stated, fails in its last part.  In a bucket of four files
    of which the first two are equal, row 1 is passed over, its file
    being grouped already, and no cell of it is ever written; the scan
    for the pair [(2, 3)] reads the cells [(1, 2)] and [(1, 3)] all the
    same. *)
Lemma C1_counterexample :
  ∃ t s groups,
    loop_i 1024 8 ex_bucket_fs 5 4 0 ex_bucket (init_bstate 4) [] = (t, Ret (s, groups)) ∧
    resolve_bucket 1024 8 ex_bucket_fs 5 ex_bucket [] = (t, Ret groups) ∧
    Compared 2 3 0 ∈ notes s ∧
    (1, 2) ∈ consulted (Compared 2 3 0) ∧
    recorded (notes s) (1, 2) = false ∧
    consults_recorded_only (notes s) = false.
Proof.
  eexists _, _, _. split; [vm_compute; reflexivity|].
  split; [vm_compute; reflexivity|].
  split_and!; [apply list_elem_of_here| |reflexivity..].
  cbn. apply list_elem_of_further, list_elem_of_further, list_elem_of_here.
Qed.

Lemma C1_inference_agrees_with_full_comparison_witness :
  ∃ t s new,
    loop_i 1024 8 ex_chunked_fs 2049 (length ex_inferred) 0 ex_inferred
      (init_bstate (length ex_inferred)) [] = (t, Ret (s, new ++ [])) ∧
    resolve_bucket 1024 8 ex_chunked_fs 2049 ex_inferred [] = (t, Ret (new ++ [])) ∧
    new = baseline ex_chunked_fs 2049 ex_inferred [] ∧
    (∀ i j pr, Inferred i j pr ∈ notes s →
       i < j < length ex_inferred ∧ pr < i ∧
       data_of ex_chunked_fs (ex_inferred !!! i) ≠ data_of ex_chunked_fs (ex_inferred !!! j)) ∧
    (∀ g f f', g ∈ new → f ∈ dfiles g → f' ∈ dfiles g →
       data_of ex_chunked_fs f = data_of ex_chunked_fs f') ∧
    (∀ a b, a < b < length ex_inferred →
       data_of ex_chunked_fs (ex_inferred !!! a) = data_of ex_chunked_fs (ex_inferred !!! b) →
       ∃ g, g ∈ new ∧ ex_inferred !!! a ∈ dfiles g ∧ ex_inferred !!! b ∈ dfiles g) ∧
    (∀ i j ar,
       ((scan_rows i 0 (length ex_inferred) i j ar 0).1 < 0)%Z
       ↔ ∃ pr, pr < i ∧
               cell (length ex_inferred) ar pr i ≠ cell (length ex_inferred) ar pr j) ∧
    (∀ i j, i < length ex_inferred → j < length ex_inferred →
       (∀ v off, Wrote i j v off ∉ notes s) →
       cell (length ex_inferred) (ar s) i j = 0%Z).
Proof.
  apply (C1_inference_agrees_with_full_comparison 1024 8 ex_chunked_fs).
  - ex_chunk_ok.
  - ex_bucket_ok.
  - lia.
Defined.

(** The inference at work on that bucket: the pair of ["f1"] and
    ["f3"] is ruled out by row 0 and neither file is opened for it. *)
Example inference_rules_a_pair_out :
  ∃ t s groups,
    loop_i 1024 8 ex_chunked_fs 2049 3 0 ex_inferred (init_bstate 3) [] = (t, Ret (s, groups)) ∧
    notes s = [Inferred 1 2 0; Compared 0 2 0; Wrote 0 1 1024 1024; Compared 0 1 0] ∧
    compared_paths t = [("f0", "f1"); ("f0", "f3")]%string ∧
    groups = [].
Proof. eexists _, _, _. split; [vm_compute; reflexivity|]. by vm_compute. Qed.

(** C3, as stated, fails in its first part.  With the read size 1024,
    the files 1 and 2 of the bucket are found to share their first
    1024 bytes with file 0, so their own comparison seeks to 1024 and
    finds the next 1024 bytes identical: 2048 bytes are confirmed
    identical, and the cell [(1, 2)] holds 1024. *)
Lemma C3_counterexample :
  ∃ t s groups,
    loop_i 1024 8 ex_chunked_fs 2049 3 0 ex_chunked (init_bstate 3) [] = (t, Ret (s, groups)) ∧
    resolve_bucket 1024 8 ex_chunked_fs 2049 ex_chunked [] = (t, Ret groups) ∧
    EvLseek "f1" 1024 true ∈ t ∧
    Wrote 1 2 1024 2048 ∈ notes s ∧
    cell 3 (ar s) 1 2 = 1024%Z ∧
    take 2048 (data_of ex_chunked_fs (FE "f1" 1 2))
    = take 2048 (data_of ex_chunked_fs (FE "f2" 1 3)) ∧
    counts_skipped_prefix (notes s) = false.
Proof.
  eexists _, _, _. split; [vm_compute; reflexivity|].
  split; [vm_compute; reflexivity|].
  split_and!; [|apply list_elem_of_here|vm_compute; reflexivity..].
  repeat first [apply list_elem_of_here|apply list_elem_of_further].
Qed.

Lemma C3_ledger_counts_bytes_matched_after_the_seek_witness :
  ∃ t s groups,
    loop_i 1024 8 ex_chunked_fs 2049 (length ex_chunked) 0 ex_chunked
      (init_bstate (length ex_chunked)) [] = (t, Ret (s, groups)) ∧
    resolve_bucket 1024 8 ex_chunked_fs 2049 ex_chunked [] = (t, Ret groups) ∧
    (∀ i j v off, Wrote i j v off ∈ notes s →
       i < j < length ex_chunked ∧
       ∃ skip, Compared i j skip ∈ notes s ∧ (0 ≤ skip)%Z ∧
               v = (Z.of_nat off - skip)%Z ∧
               take off (data_of ex_chunked_fs (ex_chunked !!! i))
               = take off (data_of ex_chunked_fs (ex_chunked !!! j))) ∧
    (∀ i j, i < length ex_chunked → j < length ex_chunked →
       cell (length ex_chunked) (ar s) i j ≠ 0%Z →
       ∃ off, Wrote i j (cell (length ex_chunked) (ar s) i j) off ∈ notes s) ∧
    (∀ i j, i < j < length ex_chunked →
       (0 ≤ cell (length ex_chunked) (ar s) i j)%Z ∧
       take (Z.to_nat (cell (length ex_chunked) (ar s) i j))
         (data_of ex_chunked_fs (ex_chunked !!! i))
       = take (Z.to_nat (cell (length ex_chunked) (ar s) i j))
           (data_of ex_chunked_fs (ex_chunked !!! j))).
Proof.
  apply (C3_ledger_counts_bytes_matched_after_the_seek 1024 8 ex_chunked_fs).
  - ex_chunk_ok.
  - ex_bucket_ok.
  - lia.
Defined.

Lemma C4_identical_files_share_one_group_witness :
  ∃ t groups,
    chkForDups 1024 8 ex_bucket_fs ex_tree [] = (t, Ret groups) ∧
    (∃ k g, groups !! k = Some g ∧
            FE "p" 1 1 ∈ dfiles g ∧ FE "q" 1 2 ∈ dfiles g ∧ FE "r" 1 3 ∈ dfiles g ∧
            ∀ k' g', groups !! k' = Some g' →
                     FE "p" 1 1 ∈ dfiles g' ∨ FE "q" 1 2 ∈ dfiles g' ∨
                     FE "r" 1 3 ∈ dfiles g' → k' = k) ∧
    concat (dfiles <$> groups) ⊆+ tree_files ex_tree ∧
    NoDup (concat (dfiles <$> groups)).
Proof.
  apply (C4_identical_files_share_one_group 1024 8 ex_bucket_fs ltac:(ex_chunk_ok) ex_tree 5
           [FE "p" 1 1; FE "q" 1 2; FE "r" 1 3; FE "s" 1 4] 0 1 2).
  - unfold ex_tree. ex_buckets_ok.
  - apply (bool_decide_unpack _). vm_compute. exact I.
  - cbn. apply list_elem_of_further, list_elem_of_here.
  - lia.
  - lia.
  - reflexivity.
  - reflexivity.
  - reflexivity.
  - reflexivity.
  - reflexivity.
Defined.

Lemma C5_differing_files_share_no_group_witness :
  ∃ t new,
    resolve_bucket 1024 8 ex_bucket_fs 5 ex_bucket [] = (t, Ret (new ++ [])) ∧
    ∀ fi fj, data_of ex_bucket_fs fi ≠ data_of ex_bucket_fs fj →
             ∀ g, g ∈ new → ¬ (fi ∈ dfiles g ∧ fj ∈ dfiles g).
Proof.
  apply (C5_differing_files_share_no_group 1024 8 ex_bucket_fs).
  - ex_chunk_ok.
  - ex_bucket_ok.
  - lia.
Defined.

(** C10 on a walk of two directories, of which the first fails after
    one file was visited: the file is compared with those of the second
    directory, the group is printed and [main] returns 0, as in the run
    where the first walk succeeds. *)
Lemma C10_nftw_failure_is_ignored_witness :
  (∀ nftw' : string → list (string * stat * Z) * Z,
     (∀ d, (nftw' d).1 = (ex_nftw d).1) →
     main 1024 8 ex_fs 0 nftw' ["finddups"; "d1"; "d2"]%string
     = main 1024 8 ex_fs 0 ex_nftw ["finddups"; "d1"; "d2"]%string) ∧
  ∃ root,
    visit_all 0 NULL (concat ((λ d, (ex_nftw d).1) <$> tail ["finddups"; "d1"; "d2"]%string))
    = Some root ∧
    (∀ t dups,
       chkForDups 1024 8 ex_fs root [] = (t, Ret dups) →
       main 1024 8 ex_fs 0 ex_nftw ["finddups"; "d1"; "d2"]%string
       = (t ++ concat ((λ d, EvPrintf "duplicates of size %ld
" [ArgLong (dsize d)]
                             :: ((λ fp, EvPrintf "%s
" [ArgStr (name fp)]) <$> dfiles d)) <$> dups), Ret 0%Z)) ∧
    (chunk_ok 1024 → Forall (bucket_ok ex_fs) (buckets root) →
     ∃ t,
       chkForDups 1024 8 ex_fs root [] = (t, Ret (tree_groups ex_fs root)) ∧
       main 1024 8 ex_fs 0 ex_nftw ["finddups"; "d1"; "d2"]%string
       = (t ++ concat ((λ d, EvPrintf "duplicates of size %ld
" [ArgLong (dsize d)]
                             :: ((λ fp, EvPrintf "%s
" [ArgStr (name fp)]) <$> dfiles d)) <$> tree_groups ex_fs root), Ret 0%Z)).
Proof.
  apply (C10_nftw_failure_is_ignored 1024 8 ex_fs 0 ex_nftw
           ["finddups"; "d1"; "d2"]%string).
  simpl. lia.
Defined.

(** The tree of that walk is within the preconditions, and the run is
    the one the theorem gives. *)
Example failed_walk_tree_is_resolved :
  ∃ root,
    visit_all 0 NULL (concat ((λ d, (ex_nftw d).1) <$> ["d1"; "d2"]%string)) = Some root ∧
    buckets root = [(5%Z, [FE "c" 1 3; FE "b" 1 2; FE "a" 1 1])] ∧
    Forall (bucket_ok ex_fs) (buckets root) ∧
    tree_groups ex_fs root = [DupNode 5 [FE "a" 1 1; FE "b" 1 2]].
Proof.
  eexists. split; [vm_compute; reflexivity|]. split; [reflexivity|].
  split; [ex_buckets_ok|vm_compute; reflexivity].
Qed.

(** * More on the size index: balance and contents *)

Section TreeBalance.

Implicit Types (n : Node) (nm : string) (st : stat).

Lemma black_height_node s c fs l r col :
  black_height (MkNode s c fs l r col)
  = hl ← black_height l; hr ← black_height r;
    if decide (hl = hr) then Some (if (col =? 0)%Z then S hl else hl) else None.
Proof. done. Qed.

Local Ltac bh_cases :=
  rewrite ?black_height_node;
  repeat match goal with
         | |- context [black_height ?n] => is_var n; destruct (black_height n)
         end;
  repeat (cbn [mbind option_bind]; try case_decide; simplify_eq; try done).

(** A rotation about a red child leaves the black height as it is, and
    so do the fix-ups of [insertR]. *)
Lemma rotateLeft_black_height h h' :
  isRed (right_of h) = true → rotateLeft h = Some h' →
  black_height h' = black_height h.
Proof.
  destruct h as [|s c fs l [|xs xc xfs xl xr xcol] col]; try done.
  cbn [right_of isRed rotateLeft]. intros Hred [= <-].
  apply negb_true_iff in Hred. rewrite !black_height_node, Hred.
  change (1 =? 0)%Z with false. bh_cases.
Qed.

Lemma rotateRight_black_height h h' :
  isRed (left_of h) = true → rotateRight h = Some h' →
  black_height h' = black_height h.
Proof.
  destruct h as [|s c fs [|xs xc xfs xl xr xcol] r col]; try done.
  cbn [left_of isRed rotateRight]. intros Hred [= <-].
  apply negb_true_iff in Hred. rewrite !black_height_node, Hred.
  change (1 =? 0)%Z with false. bh_cases.
Qed.

Lemma fixUp_black_height n n' :
  fixUp n = Some n' → black_height n' = black_height n.
Proof.
  unfold fixUp.
  destruct (isRed (right_of n) && negb (isRed (left_of n))) eqn:E1; cbn [mbind option_bind].
  - apply andb_true_iff in E1 as [E1 _].
    destruct (rotateLeft n) as [n1|] eqn:Er; [|done]. cbn [mbind option_bind].
    rewrite <- (rotateLeft_black_height _ _ E1 Er).
    destruct (isRed (left_of n1) && isRed (left_of (left_of n1))) eqn:E2.
    + apply andb_true_iff in E2 as [E2 _]. by apply rotateRight_black_height.
    + by intros [= <-].
  - destruct (isRed (left_of n) && isRed (left_of (left_of n))) eqn:E2.
    + apply andb_true_iff in E2 as [E2 _]. by apply rotateRight_black_height.
    + by intros [= <-].
Qed.

Lemma black_height_set_color_id n : black_height (set_color (color_of n) n) = black_height n.
Proof. by destruct n. Qed.

(** [insertR] returns a tree of the black height of the tree it was
    given. *)
Lemma insertR_col_black_height nm st n : ∀ col n' k,
  insertR_col col n nm st = Some n' →
  black_height (set_color col n) = Some k → black_height n' = Some k.
Proof.
  induction n as [|s c fs l IHl r IHr col0]; intros col n' k.
  - cbn. by intros [= <-] [= <-].
  - cbn [insertR_col set_color].
    destruct (st_size st =? s)%Z; [destruct (sameInode fs st); by intros [= <-]|].
    destruct (isRed l && isRed r) eqn:Eflip; cbn [andb].
    + destruct (negb _) eqn:Eok; [done|]. apply negb_false_iff in Eok.
      apply andb_true_iff in Eok as [[Ec El]%andb_true_iff Er].
      apply Z.eqb_eq in Ec, El, Er. subst col.
      destruct l as [|ls lc lfs ll lr lcol]; [done|].
      destruct r as [|rs rc rfs rl rr rcol]; [by rewrite andb_false_r in Eflip|].
      cbn [color_of] in El, Er. subst lcol rcol.
      intros Hins Hk.
      assert (∃ x, black_height (MkNode ls lc lfs ll lr 0) = Some (S x) ∧
                   black_height (MkNode rs rc rfs rl rr 0) = Some (S x) ∧ k = S x)
        as (x & Hl & Hr & ->).
      { revert Hk. rewrite !black_height_node.
        change (1 =? 0)%Z with false. change (0 =? 0)%Z with true.
        destruct (black_height ll), (black_height lr), (black_height rl),
          (black_height rr); cbn [mbind option_bind]; try done;
          repeat (case_decide; cbn [mbind option_bind]; try done).
        intros [= <-]. subst. eauto. }
      destruct (st_size st <? s)%Z.
      * destruct (insertR_col 0%Z _ nm st) as [l'|] eqn:El'; [|done].
        cbn [mbind option_bind] in Hins.
        apply (IHl 0%Z l' (S x) El') in Hl.
        apply fixUp_black_height in Hins. rewrite Hins.
        cbn [set_color]. rewrite black_height_node, Hl, Hr. cbn.
        by rewrite decide_True.
      * destruct (insertR_col 0%Z _ nm st) as [r'|] eqn:Er'; [|done].
        cbn [mbind option_bind] in Hins.
        apply (IHr 0%Z r' (S x) Er') in Hr.
        apply fixUp_black_height in Hins. rewrite Hins.
        cbn [set_color]. rewrite black_height_node, Hl, Hr. cbn.
        by rewrite decide_True.
    + rewrite !set_color_id. intros Hins Hk.
      rewrite black_height_node in Hk.
      destruct (black_height l) as [hl|] eqn:Hl; [|done].
      destruct (black_height r) as [hr|] eqn:Hr; [|done].
      cbn [mbind option_bind] in Hk. case_decide; [subst hr|done].
      destruct (st_size st <? s)%Z.
      * destruct (insertR_col (color_of l) l nm st) as [l'|] eqn:El'; [|done].
        cbn [mbind option_bind] in Hins.
        apply (IHl _ l' hl) in El'; [|by rewrite black_height_set_color_id].
        apply fixUp_black_height in Hins. rewrite Hins.
        rewrite black_height_node, El', Hr. cbn. by rewrite decide_True.
      * destruct (insertR_col (color_of r) r nm st) as [r'|] eqn:Er'; [|done].
        cbn [mbind option_bind] in Hins.
        apply (IHr _ r' hl) in Er'; [|by rewrite black_height_set_color_id].
        apply fixUp_black_height in Hins. rewrite Hins.
        rewrite black_height_node, Hl, Er'. cbn. by rewrite decide_True.
Qed.

Lemma black_height_set_color_0 n k :
  black_height n = Some k → ∃ k', black_height (set_color 0 n) = Some k'.
Proof.
  destruct n as [|s c fs l r col]; [eauto|]. cbn [set_color].
  rewrite !black_height_node.
  destruct (black_height l), (black_height r); cbn; try done.
  case_decide; [eauto|done].
Qed.

Lemma insert_black_height root nm st root' k :
  insert root nm st = Some root' → black_height root = Some k →
  ∃ k', black_height root' = Some k'.
Proof.
  unfold insert, insertR. destruct (insertR_col _ _ _ _) as [n'|] eqn:E; [|done].
  cbn. intros [= <-] Hk.
  apply (insertR_col_black_height _ _ _ _ _ k) in E;
    [|by rewrite black_height_set_color_id].
  by apply (black_height_set_color_0 _ k).
Qed.

Lemma insert_all_black_height calls : ∀ root root' k,
  tree_ok root → insert_all root calls = Some root' → black_height root = Some k →
  ∃ k', black_height root' = Some k'.
Proof.
  induction calls as [|[nm st] calls IH]; cbn [insert_all]; intros root root' k Hok.
  - intros [= <-]. eauto.
  - destruct (insert_tree_ok root nm st Hok) as (root1 & E & Hok1). rewrite E. cbn.
    intros Hall Hk. destruct (insert_black_height _ _ _ _ _ E Hk) as [k1 Hk1].
    by apply (IH root1 root' k1).
Qed.

(** With the colour discipline, a tree of black height [k] has a height
    of at most [2k] (one more under a red root) and at least [2^k - 1]
    nodes. *)
Lemma rb_height n : ∀ k,
  rb n → black_height n = Some k →
  height n ≤ 2 * k + (if isRed n then 1 else 0) ∧ 2 ^ k ≤ S (length (buckets n)).
Proof.
  induction n as [|s c fs l IHl r IHr col]; intros k.
  - cbn. intros _ [= <-]. cbn. lia.
  - cbn [rb]. intros (Hcol & Hred & _ & Hl & Hr). rewrite black_height_node.
    destruct (black_height l) as [hl|]; [|done].
    destruct (black_height r) as [hr|]; [|done].
    cbn [mbind option_bind]. case_decide; [subst hr|done].
    destruct (IHl hl Hl eq_refl) as [Hhl Hsl].
    destruct (IHr hl Hr eq_refl) as [Hhr Hsr].
    cbn [height buckets isRed]. rewrite length_app. cbn [length].
    destruct Hcol as [->| ->].
    + change (0 =? 0)%Z with true. intros [= <-]. cbn [negb].
      split.
      * destruct (isRed l), (isRed r); lia.
      * change (2 ^ S hl) with (2 * 2 ^ hl). lia.
    + change (1 =? 0)%Z with false. intros [= <-]. cbn [negb].
      destruct (Hred eq_refl) as [El Er]. rewrite El in Hhl. rewrite Er in Hhr.
      split; lia.
Qed.

(** X1: no sequence of [insert] calls fails an [assert] of [colorFlip]
    or rotates about a null child.  The tree it leaves is a search tree
    on the sizes, strictly ascending in order, with a black root, where
    no red node has a red child and a red right child comes with a red
    left one. *)
Theorem X1_insert_keeps_the_tree_invariants (calls : list (string * stat)) :
  ∃ root, insert_all NULL calls = Some root ∧
          StronglySorted Z.lt (fst <$> buckets root) ∧
          rb root ∧ isRed root = false.
Proof.
  destruct (insert_all_tree_ok calls NULL tree_ok_NULL) as (root & E & Hs & Hrb & Hroot).
  by exists root.
Qed.

(** X2: the tree that any sequence of [insert] calls leaves is
    balanced: every path from the root down to a null pointer has the
    same number [k] of black nodes, the height is at most [2k], and
    there are at least [2^k - 1] nodes; so the height [h] and the
    number [b] of buckets satisfy [2^h <= (b + 1)^2]. *)
Theorem X2_insert_keeps_the_tree_balanced (calls : list (string * stat)) :
  ∃ root k, insert_all NULL calls = Some root ∧
            black_height root = Some k ∧
            height root ≤ 2 * k ∧
            2 ^ k ≤ S (length (buckets root)) ∧
            2 ^ height root ≤ S (length (buckets root)) ^ 2.
Proof.
  destruct (insert_all_tree_ok calls NULL tree_ok_NULL) as (root & E & Hs & Hrb & Hroot).
  destruct (insert_all_black_height calls NULL root 0 tree_ok_NULL E eq_refl) as [k Hk].
  destruct (rb_height root k Hrb Hk) as [Hh Hn]. rewrite Hroot in Hh.
  exists root, k. split_and!; [done|done|lia|done|].
  transitivity (2 ^ (2 * k)); [apply Nat.pow_le_mono_r; lia|].
  rewrite Nat.mul_comm, Nat.pow_mul_r. apply Nat.pow_le_mono_l. exact Hn.
Qed.

End TreeBalance.

Section TreeContents.

Implicit Types (n : Node) (nm : string) (st : stat) (bs : list (Z * list fe)).

Lemma ins_bucket_has_key nm st bs : st_size st ∈ fst <$> ins_bucket nm st bs.
Proof.
  induction bs as [|[s fs] bs IH]; cbn [ins_bucket].
  - apply list_elem_of_here.
  - destruct (Z.eqb_spec (st_size st) s) as [<-|Hne]; [apply list_elem_of_here|].
    destruct (st_size st <? s)%Z; [apply list_elem_of_here|].
    cbn. by apply list_elem_of_further.
Qed.

Lemma ins_bucket_keeps_keys nm st bs k :
  k ∈ fst <$> bs → k ∈ fst <$> ins_bucket nm st bs.
Proof.
  induction bs as [|[s fs] bs IH]; cbn [ins_bucket]; [by intros ?%elem_of_nil|].
  destruct (Z.eqb_spec (st_size st) s) as [<-|Hne]; [done|].
  destruct (st_size st <? s)%Z; [by apply list_elem_of_further|].
  cbn. rewrite !elem_of_cons. intros [->|Hin]; [by left|right; by apply IH].
Qed.

Lemma insert_all_keys calls : ∀ root root' k,
  tree_ok root → insert_all root calls = Some root' →
  k ∈ fst <$> buckets root' ↔
  k ∈ fst <$> buckets root ∨ ∃ nm st, (nm, st) ∈ calls ∧ st_size st = k.
Proof.
  induction calls as [|[nm st] calls IH]; cbn [insert_all]; intros root root' k Hok.
  - intros [= <-]. split; [by left|]. intros [?|(? & ? & ?%elem_of_nil & _)]; done.
  - destruct (insert_tree_ok root nm st Hok) as (root1 & E & Hok1). rewrite E. cbn.
    intros Hall. rewrite (IH root1 root' k Hok1 Hall).
    rewrite (insert_buckets _ _ _ _ (proj1 Hok) E). split.
    + intros [Hin|(nm' & st' & Hin & Hk)].
      * apply ins_bucket_keys in Hin as [->|Hin]; [|by left].
        right. exists nm, st. split; [apply list_elem_of_here|done].
      * right. exists nm', st'. split; [by apply list_elem_of_further|done].
    + intros [Hin|(nm' & st' & Hin & Hk)].
      * left. by apply ins_bucket_keeps_keys.
      * apply elem_of_cons in Hin as [[= -> ->]|Hin].
        -- left. subst k. apply ins_bucket_has_key.
        -- right. by exists nm', st'.
Qed.

Lemma sameInode_app fs1 fs2 st :
  sameInode (fs1 ++ fs2) st = sameInode fs1 st || sameInode fs2 st.
Proof.
  induction fs1 as [|f fs1 IH]; [done|]. cbn [app sameInode].
  by destruct (_ && _).
Qed.

Lemma arrivals_keeps sz calls : ∀ acc st,
  sameInode acc st = true → sameInode (arrivals sz calls acc) st = true.
Proof.
  induction calls as [|[nm' st'] calls IH]; intros acc st Hacc; cbn [arrivals]; [done|].
  destruct (_ && _); apply IH; [|done].
  by rewrite sameInode_app, Hacc.
Qed.

Lemma arrivals_has calls : ∀ acc nm st,
  (nm, st) ∈ calls → sameInode (arrivals (st_size st) calls acc) st = true.
Proof.
  induction calls as [|[nm' st'] calls IH]; intros acc nm st; [by intros ?%elem_of_nil|].
  rewrite elem_of_cons. cbn [arrivals]. intros [[= -> ->]|Hin].
  - rewrite Z.eqb_refl. cbn [andb].
    destruct (sameInode acc st') eqn:E; cbn [negb]; apply arrivals_keeps; [done|].
    rewrite sameInode_app. cbn [sameInode newFileNode dev inode].
    rewrite !Z.eqb_refl. cbn. apply orb_true_r.
  - destruct (_ && _); by apply (IH _ nm).
Qed.

Lemma arrivals_from sz calls : ∀ acc f,
  f ∈ arrivals sz calls acc →
  f ∈ acc ∨ ∃ nm st, (nm, st) ∈ calls ∧ st_size st = sz ∧ f = newFileNode nm st.
Proof.
  induction calls as [|[nm' st'] calls IH]; intros acc f; cbn [arrivals]; [by left|].
  destruct (Z.eqb_spec (st_size st') sz) as [Hsz|Hsz]; cbn [andb].
  - destruct (negb _); intros [Hin|(nm & st & Hin & ? & ?)]%IH.
    + apply elem_of_app in Hin as [Hin|Hin%list_elem_of_singleton]; [by left|].
      right. exists nm', st'. split; [apply list_elem_of_here|done].
    + right. exists nm, st. split; [by apply list_elem_of_further|done].
    + by left.
    + right. exists nm, st. split; [by apply list_elem_of_further|done].
  - intros [Hin|(nm & st & Hin & ? & ?)]%IH; [by left|].
    right. exists nm, st. split; [by apply list_elem_of_further|done].
Qed.

(** X3: after any sequence of [insert] calls the tree has one bucket
    for each size that was inserted and no other; every inserted
    identity is found in the bucket of its size, by its device and
    inode; and every entry of a bucket is the identity of one of the
    calls, of the size of the bucket. *)
Theorem X3_index_holds_what_was_inserted (calls : list (string * stat)) :
  ∃ root,
    insert_all NULL calls = Some root ∧
    (∀ k, k ∈ fst <$> buckets root ↔ ∃ nm st, (nm, st) ∈ calls ∧ st_size st = k) ∧
    (∀ nm st, (nm, st) ∈ calls →
       ∃ f, f ∈ bucket_of root (st_size st) ∧
            dev f = st_dev st ∧ inode f = st_ino st) ∧
    (∀ sz f, f ∈ bucket_of root sz →
       ∃ nm st, (nm, st) ∈ calls ∧ st_size st = sz ∧ f = newFileNode nm st).
Proof.
  destruct (insert_all_tree_ok calls NULL tree_ok_NULL) as (root & E & Hok).
  exists root. split; [done|].
  assert (∀ sz, bucket_of root sz = reverse (arrivals sz calls [])) as Hb.
  { intros sz. by apply (insert_all_arrivals calls NULL root (λ _, []) tree_ok_NULL). }
  split_and!.
  - intros k. rewrite (insert_all_keys calls NULL root k tree_ok_NULL E).
    split; [intros [?%elem_of_nil|?]; done|by right].
  - intros nm st Hin. pose proof (arrivals_has calls [] nm st Hin) as Hs.
    apply sameInode_spec, list_elem_of_fmap in Hs as (f & Hid & Hf).
    exists f. rewrite Hb, elem_of_reverse. split; [done|].
    injection Hid as Hd Hi. done.
  - intros sz f. rewrite Hb, elem_of_reverse.
    intros [?%elem_of_nil|?]%arrivals_from; done.
Qed.

End TreeContents.

(** * More on the runs: descriptors and system calls *)

Section Descriptors.

Variable BUFSIZE : nat.
Variable LOG_USER : Z.
Variable fs : string → option file.

Lemma fd_depth_app t1 : ∀ d t2,
  fd_depth d (t1 ++ t2) = fd_depth d t1 ≫= λ d', fd_depth d' t2.
Proof.
  induction t1 as [|e t1 IH]; intros d t2; [done|].
  destruct e as [p [|]|p off ok|p r|p|fmt args|s|pri msg]; cbn [app fd_depth];
    try apply IH.
  - case_decide; [apply IH|done].
  - case_decide; [apply IH|done].
  - case_decide; [apply IH|done].
  - destruct d; [done|apply IH].
Qed.

Lemma moves_mret {A} d (a : A) : moves d d (mret a).
Proof. exists d. by split. Qed.

Lemma moves_bind {A B} d d' d'' (m : M A) (f : A → M B) :
  moves d d' m → (∀ a, moves d' d'' (f a)) → moves d d'' (m ≫= f).
Proof.
  intros (e & He & Hret) Hf. destruct m as [t [a|c| |]];
    try (exists e; split; [exact He|done]).
  rewrite bind_Ret. destruct (Hf a) as (e' & He' & Hret').
  unfold moves, before, trace, result in *. cbn [fst snd] in *.
  exists e'. rewrite fd_depth_app, He. cbn. rewrite (Hret a eq_refl). by split.
Qed.

Lemma moves_before {A} d d1 d' t (m : M A) :
  fd_depth d t = Some d1 → moves d1 d' m → moves d d' (before t m).
Proof.
  intros Ht (e & He & Hret). exists e. unfold before, trace, result in *.
  cbn [fst snd] in *. rewrite fd_depth_app, Ht. by split.
Qed.

Lemma moves_stop {A} d d' e (m : M A) :
  fd_depth d (trace m) = Some e → (∀ a, result m ≠ Ret a) → moves d d' m.
Proof. intros Ht Hr. exists e. split; [done|]. intros a Ha. by destruct (Hr a). Qed.

Local Ltac stopped e :=
  apply (moves_stop _ _ e); unfold error_exit; destruct (has_percent _); done.

(** The read loop runs with both files open; when it gives up on a
    failed [read] it closes both. *)
Lemma moves_read_loop fuel size cnt i j fi fj : ∀ fdi fdj s,
  moves 2 2 (read_loop BUFSIZE LOG_USER fuel size cnt i j fi fj fdi fdj s).
Proof.
  induction fuel as [|fuel IH]; intros fdi fdj s.
  - exists 2. by split.
  - cbn [read_loop]. unfold sys_read. rewrite bind_Ret.
    destruct (do_read BUFSIZE fdi) as [[nri ibuff] fdi'].
    rewrite bind_Ret.
    destruct (do_read BUFSIZE fdj) as [[nrj jbuff] fdj'].
    cbn [fst snd].
    do 2 (apply (moves_before 2 2); [done|]).
    destruct ((nri <? 0)%Z || (nrj <? 0)%Z).
    { stopped 0. }
    destruct (negb (nri =? nrj)%Z); [apply moves_mret|].
    destruct (negb (memcmp ibuff jbuff (Z.to_nat nri) =? 0)%Z); [apply moves_mret|].
    destruct (nri =? 0)%Z; [apply moves_mret|apply IH].
Qed.

Lemma moves_compare_pair size cnt i j fi fj maxToSkip s :
  moves 0 0 (compare_pair BUFSIZE LOG_USER fs size cnt i j fi fj maxToSkip s).
Proof.
  unfold compare_pair, sys_open, do_open. rewrite bind_Ret.
  destruct (fs (name fi)) as [fli|]; cbn [fmap option_fmap option_map].
  2:{ stopped 0. }
  rewrite bind_Ret.
  destruct (fs (name fj)) as [flj|]; cbn [fmap option_fmap option_map].
  2:{ stopped 1. }
  apply (moves_before 0 1); [done|]. apply (moves_before 1 2); [done|].
  assert (∀ fdi fdj,
    moves 2 0 (s' ← read_loop BUFSIZE LOG_USER (S (length (f_data (fd_file fdi))))
                      size cnt i j fi fj fdi fdj s;
               sys_close fdj;; sys_close fdi;; mret s')) as Hloop.
  { intros fdi fdj. apply (moves_bind 2 2 0); [apply moves_read_loop|].
    intros s'. exists 0. by split. }
  destruct (maxToSkip >? 0)%Z.
  - unfold sys_lseek.
    destruct (do_lseek (Fd (name fi) fli 0) maxToSkip) as [lsi fdi'].
    destruct (do_lseek (Fd (name fj) flj 0) maxToSkip) as [lsj fdj'].
    repeat (rewrite ?bind_Ret, ?bind_before; cbn [fst snd]).
    do 2 (apply (moves_before 2 2); [done|]).
    destruct ((lsi <? 0)%Z || (lsj <? 0)%Z).
    + stopped 0.
    + rewrite bind_mret. apply Hloop.
  - rewrite bind_mret. apply Hloop.
Qed.

Lemma moves_pair_step size cnt i j fi fj s :
  moves 0 0 (pair_step BUFSIZE LOG_USER fs size cnt i j fi fj s).
Proof.
  unfold pair_step. destruct (fflags s !!! j); [apply moves_mret|].
  destruct (scan_rows _ _ _ _ _ _ _) as [maxToSkip pr].
  destruct (maxToSkip <? 0)%Z; [apply moves_mret|apply moves_compare_pair].
Qed.

Lemma moves_loop_j size cnt i fi fj : ∀ j s,
  moves 0 0 (loop_j BUFSIZE LOG_USER fs size cnt i j fi fj s).
Proof.
  induction fj as [|f next IH]; intros j s; cbn [loop_j]; [apply moves_mret|].
  apply (moves_bind 0 0 0); [apply moves_pair_step|]. intros s'. apply IH.
Qed.

Lemma moves_loop_i size cnt fi : ∀ i s retval,
  moves 0 0 (loop_i BUFSIZE LOG_USER fs size cnt i fi s retval).
Proof.
  induction fi as [|f next IH]; intros i s retval; cbn [loop_i]; [apply moves_mret|].
  case_bool_decide; [|apply moves_mret].
  destruct (fflags s !!! i); [apply IH|].
  apply (moves_bind 0 0 0); [apply moves_loop_j|]. intros s'.
  destruct (dn s'); apply IH.
Qed.

Lemma moves_resolve_bucket size files retval :
  moves 0 0 (resolve_bucket BUFSIZE LOG_USER fs size files retval).
Proof.
  assert (∀ A, moves 0 0 (([], Abort) : M A)) as Hk.
  { intros A. by apply (moves_stop _ _ 0). }
  unfold resolve_bucket. case_bool_decide; [apply Hk|].
  case_bool_decide; [destruct files; [apply moves_mret|apply Hk]|].
  destruct (negb (size =? 0)%Z); [|apply moves_mret].
  case_bool_decide; [|apply Hk].
  apply (moves_bind 0 0 0); [apply moves_loop_i|]. intros [s' r]. apply moves_mret.
Qed.

Lemma moves_chkForDups node : ∀ retval,
  moves 0 0 (chkForDups BUFSIZE LOG_USER fs node retval).
Proof.
  induction node as [|size c files l IHl r IHr col]; intros retval;
    cbn [chkForDups]; [apply moves_mret|].
  apply (moves_bind 0 0 0); [apply IHl|]. intros r1.
  apply (moves_bind 0 0 0); [apply moves_resolve_bucket|]. intros r2. apply IHr.
Qed.

Lemma fd_depth_printf d (t : list event) :
  Forall (λ e, path_of e = None) t → fd_depth d t = Some d.
Proof.
  induction 1 as [|e t He Ht IH]; [done|].
  destruct e; try done.
Qed.

Variable FTW_F : Z.
Variable nftw : string → list (string * stat * Z) * Z.

(** X4: in every run of [main], at no point are more than two files
    open, no [close] comes without an open file, every [lseek] and
    every [read] is made with exactly two files open, and when [main]
    returns every file that was opened has been closed. *)
Theorem X4_at_most_two_files_open (argv : list string) :
  ∃ d, fd_depth 0 (trace (main BUFSIZE LOG_USER fs FTW_F nftw argv)) = Some d ∧
       ∀ c, result (main BUFSIZE LOG_USER fs FTW_F nftw argv) = Ret c → d = 0.
Proof.
  unfold main. case_bool_decide; [by exists 0|].
  destruct (scan_dirs FTW_F nftw NULL (tail argv)) as [root|]; [|by exists 0].
  apply (moves_bind 0 0 0); [apply moves_chkForDups|].
  intros dups. exists 0. split; [|done]. unfold trace. cbn [fst].
  apply fd_depth_printf. apply Forall_forall. intros e He.
  apply list_elem_of_In, in_concat in He as (g & Hg & He).
  apply list_elem_of_In in He, Hg.
  apply list_elem_of_fmap in Hg as (dnode & -> & _).
  unfold print_group in He. apply elem_of_cons in He as [->|He]; [done|].
  by apply list_elem_of_fmap in He as (fp & -> & _).
Qed.

End Descriptors.

Section Calls.

Variable BUFSIZE : nat.
Variable LOG_USER : Z.
Variable fs : string → option file.

Implicit Types (N : string → Prop).

Lemma on_paths_mret N {A} (a : A) : on_paths N (mret a).
Proof. constructor. Qed.

Lemma on_paths_bind N {A B} (m : M A) (f : A → M B) :
  on_paths N m → (∀ a, on_paths N (f a)) → on_paths N (m ≫= f).
Proof.
  intros Hm Hf. destruct m as [t [a|c| |]]; try exact Hm.
  rewrite bind_Ret. unfold on_paths, before, trace in *. cbn [fst] in *.
  apply Forall_app. split; [exact Hm|apply Hf].
Qed.

Lemma on_paths_before N {A} t (m : M A) :
  Forall (λ e, ∀ p, path_of e = Some p → N p) t → on_paths N m →
  on_paths N (before t m).
Proof. intros Ht Hm. unfold on_paths, before, trace in *. by apply Forall_app. Qed.

Lemma on_paths_weaken N N' {A} (m : M A) :
  (∀ p, N p → N' p) → on_paths N m → on_paths N' m.
Proof.
  intros HN Hm. unfold on_paths in *. eapply Forall_impl; [exact Hm|].
  intros e He p Hp. by apply HN, He.
Qed.

Local Ltac paths :=
  repeat (apply Forall_cons; split; [intros ? [= <-]; auto; done|]);
  try apply Forall_nil_2.

Lemma on_paths_read_loop N fuel size cnt i j fi fj : ∀ fdi fdj s,
  N (fd_path fdi) → N (fd_path fdj) →
  on_paths N (read_loop BUFSIZE LOG_USER fuel size cnt i j fi fj fdi fdj s).
Proof.
  induction fuel as [|fuel IH]; intros fdi fdj s Hi Hj; [constructor|].
  cbn [read_loop]. unfold sys_read. rewrite bind_Ret.
  pose proof (do_read_path BUFSIZE fdi) as Hpi.
  destruct (do_read BUFSIZE fdi) as [[nri ibuff] fdi'].
  rewrite bind_Ret.
  pose proof (do_read_path BUFSIZE fdj) as Hpj.
  destruct (do_read BUFSIZE fdj) as [[nrj jbuff] fdj'].
  cbn [fst snd] in *.
  do 2 (apply on_paths_before; [paths|]).
  destruct ((nri <? 0)%Z || (nrj <? 0)%Z).
  { unfold on_paths, sys_close, emit. cbn. rewrite Hpi, Hpj. paths. }
  destruct (negb (nri =? nrj)%Z); [apply on_paths_mret|].
  destruct (negb (memcmp ibuff jbuff (Z.to_nat nri) =? 0)%Z); [apply on_paths_mret|].
  destruct (nri =? 0)%Z; [apply on_paths_mret|].
  apply IH; congruence.
Qed.

Lemma do_lseek_path d off : fd_path (do_lseek d off).2 = fd_path d.
Proof. unfold do_lseek. by destruct (f_seek_ok _ _). Qed.

Lemma on_paths_compare_pair N size cnt i j fi fj maxToSkip s :
  N (name fi) → N (name fj) →
  on_paths N (compare_pair BUFSIZE LOG_USER fs size cnt i j fi fj maxToSkip s).
Proof.
  intros Hi Hj. unfold compare_pair, sys_open, do_open. rewrite bind_Ret.
  destruct (fs (name fi)) as [fli|]; cbn [fmap option_fmap option_map].
  2:{ unfold on_paths. cbn. paths. }
  rewrite bind_Ret.
  destruct (fs (name fj)) as [flj|]; cbn [fmap option_fmap option_map].
  2:{ unfold on_paths. cbn. paths. }
  do 2 (apply on_paths_before; [paths|]).
  assert (∀ fdi fdj, fd_path fdi = name fi → fd_path fdj = name fj →
    on_paths N (s' ← read_loop BUFSIZE LOG_USER (S (length (f_data (fd_file fdi))))
                       size cnt i j fi fj fdi fdj s;
                sys_close fdj;; sys_close fdi;; mret s')) as Hloop.
  { intros fdi fdj Ei Ej. apply on_paths_bind.
    - apply on_paths_read_loop; congruence.
    - intros s'. unfold on_paths, sys_close, emit. cbn. rewrite Ei, Ej. paths. }
  destruct (maxToSkip >? 0)%Z.
  - unfold sys_lseek.
    pose proof (do_lseek_path (Fd (name fi) fli 0) maxToSkip) as Hpi.
    pose proof (do_lseek_path (Fd (name fj) flj 0) maxToSkip) as Hpj.
    destruct (do_lseek (Fd (name fi) fli 0) maxToSkip) as [lsi fdi'].
    destruct (do_lseek (Fd (name fj) flj 0) maxToSkip) as [lsj fdj'].
    repeat (rewrite ?bind_Ret, ?bind_before; cbn [fst snd]).
    do 2 (apply on_paths_before; [paths|]).
    destruct ((lsi <? 0)%Z || (lsj <? 0)%Z).
    + unfold error_exit. destruct (has_percent _); unfold on_paths; cbn; paths.
    + rewrite bind_mret. apply Hloop; [exact Hpi|exact Hpj].
  - rewrite bind_mret. by apply Hloop.
Qed.

Lemma on_paths_loop_j N size cnt i fi fj : ∀ j s,
  N (name fi) → Forall (λ f, N (name f)) fj →
  on_paths N (loop_j BUFSIZE LOG_USER fs size cnt i j fi fj s).
Proof.
  induction fj as [|f next IH]; intros j s Hi Hfj; cbn [loop_j]; [apply on_paths_mret|].
  apply Forall_cons in Hfj as [Hf Hnext].
  apply on_paths_bind; [|intros s'; by apply IH].
  unfold pair_step. destruct (fflags s !!! j); [apply on_paths_mret|].
  destruct (scan_rows _ _ _ _ _ _ _) as [maxToSkip pr].
  destruct (maxToSkip <? 0)%Z; [apply on_paths_mret|by apply on_paths_compare_pair].
Qed.

Lemma on_paths_loop_i N size cnt fi : ∀ i s retval,
  Forall (λ f, N (name f)) fi →
  on_paths N (loop_i BUFSIZE LOG_USER fs size cnt i fi s retval).
Proof.
  induction fi as [|f next IH]; intros i s retval Hfi; cbn [loop_i];
    [apply on_paths_mret|].
  apply Forall_cons in Hfi as [Hf Hnext].
  case_bool_decide; [|apply on_paths_mret].
  destruct (fflags s !!! i); [by apply IH|].
  apply on_paths_bind; [by apply on_paths_loop_j|]. intros s'.
  destruct (dn s'); by apply IH.
Qed.

(** The system calls made for a bucket are calls on its files, and
    none is made unless the pair loops are run on it. *)
Lemma on_paths_resolve_bucket size files retval :
  on_paths (λ p, compared_bucket (size, files) ∧ p ∈ name <$> files)
    (resolve_bucket BUFSIZE LOG_USER fs size files retval).
Proof.
  unfold resolve_bucket. case_bool_decide; [constructor|].
  case_bool_decide; [destruct files; constructor|].
  destruct (Z.eqb_spec size 0) as [|Hsz]; cbn [negb]; [apply on_paths_mret|].
  case_bool_decide; [|constructor].
  apply on_paths_bind; [|intros [s' r]; apply on_paths_mret].
  apply on_paths_loop_i. apply Forall_forall. intros f Hf.
  split; [split; cbn; [done|lia]|]. by apply list_elem_of_fmap_2.
Qed.

Lemma on_paths_chkForDups node : ∀ retval,
  on_paths (λ p, ∃ b, b ∈ buckets node ∧ compared_bucket b ∧ p ∈ name <$> b.2)
    (chkForDups BUFSIZE LOG_USER fs node retval).
Proof.
  induction node as [|size c files l IHl r IHr col]; intros retval;
    cbn [chkForDups buckets]; [apply on_paths_mret|].
  apply on_paths_bind.
  { eapply on_paths_weaken; [|apply IHl]. intros p (b & Hb & ?).
    exists b. rewrite elem_of_app. auto. }
  intros r1. apply on_paths_bind.
  { eapply on_paths_weaken; [|apply on_paths_resolve_bucket]. intros p [? ?].
    exists (size, files). rewrite elem_of_app, elem_of_cons. auto. }
  intros r2. eapply on_paths_weaken; [|apply IHr]. intros p (b & Hb & ?).
  exists b. rewrite elem_of_app, elem_of_cons. auto.
Qed.

(** X5: every [open], [lseek], [read] and [close] of the resolver is
    on a file of a bucket that holds at least two files and whose size
    is not 0: a file that is alone with its size, or empty, is never
    opened. *)
Theorem X5_only_files_of_compared_buckets_are_opened
    (node : Node) (retval : list dupNode) (e : event) (p : string) :
  e ∈ trace (chkForDups BUFSIZE LOG_USER fs node retval) → path_of e = Some p →
  ∃ size files, (size, files) ∈ buckets node ∧
                size ≠ 0%Z ∧ 2 ≤ length files ∧ p ∈ name <$> files.
Proof.
  intros He Hp. pose proof (on_paths_chkForDups node retval) as H.
  unfold on_paths in H. rewrite Forall_forall in H.
  destruct (H e He p Hp) as ([size files] & Hb & [Hsz Hlen] & Hin).
  by exists size, files.
Qed.

End Calls.

Section Opens.

Variable BUFSIZE : nat.
Variable LOG_USER : Z.
Variable fs : string → option file.

Lemma opens_app t1 t2 : opens (t1 ++ t2) = opens t1 + opens t2.
Proof. unfold opens. by rewrite filter_app, length_app. Qed.

Lemma opens_cons e t : opens (e :: t) = (if is_open e then 1 else 0) + opens t.
Proof.
  unfold opens. rewrite filter_cons. destruct (is_open e); by case_decide.
Qed.

Lemma opens_none t : Forall (λ e, is_open e = false) t → opens t = 0.
Proof.
  unfold opens. induction 1 as [|e t He Ht IH]; [done|].
  rewrite filter_cons_False by congruence. exact IH.
Qed.

Lemma opens_mret {A} (a : A) : opens (trace (mret a : M A)) = 0.
Proof. done. Qed.

Lemma opens_bind {A B} (m : M A) (f : A → M B) k :
  (∀ a, opens (trace (f a)) ≤ k) → opens (trace (m ≫= f)) ≤ opens (trace m) + k.
Proof.
  intros Hf. destruct m as [t [a|c| |]]; try (unfold trace; cbn; lia).
  rewrite bind_Ret. unfold before, trace in *. cbn [fst].
  rewrite opens_app. specialize (Hf a). lia.
Qed.

Lemma opens_compare_pair size cnt i j fi fj maxToSkip s :
  opens (trace (compare_pair BUFSIZE LOG_USER fs size cnt i j fi fj maxToSkip s)) ≤ 2.
Proof.
  unfold compare_pair, sys_open, do_open. rewrite bind_Ret.
  destruct (fs (name fi)) as [fli|]; cbn [fmap option_fmap option_map].
  2:{ cbn -[opens]. rewrite !opens_cons. cbn. lia. }
  rewrite bind_Ret.
  destruct (fs (name fj)) as [flj|]; cbn [fmap option_fmap option_map].
  2:{ cbn -[opens]. rewrite !opens_cons. cbn. lia. }
  match goal with
  | |- context [before _ (before _ ?X)] => set (rest := X)
  end.
  assert (Forall (λ e, is_open e = false) (trace rest)) as Hq.
  { subst rest. apply quiet_bind.
    - destruct (maxToSkip >? 0)%Z; [|constructor].
      unfold sys_lseek. rewrite bind_Ret.
      destruct (do_lseek _ _) as [lsi fdi']. rewrite bind_Ret.
      destruct (do_lseek _ _) as [lsj fdj'].
      unfold before, trace. cbn [fst snd].
      repeat (constructor; [done|]).
      destruct ((lsi <? 0)%Z || (lsj <? 0)%Z); cbn; by repeat constructor.
    - intros [fdi fdj]. apply quiet_bind; [apply quiet_read_loop|].
      intros s'. cbn. by repeat constructor. }
  unfold before, trace in *. cbn [fst snd].
  rewrite !opens_app, (opens_none _ Hq), !opens_cons. cbn. lia.
Qed.

Lemma opens_loop_j size cnt i fi fj : ∀ j s,
  opens (trace (loop_j BUFSIZE LOG_USER fs size cnt i j fi fj s)) ≤ 2 * length fj.
Proof.
  induction fj as [|f next IH]; intros j s; cbn [loop_j length]; [cbn; lia|].
  etransitivity; [apply (opens_bind _ _ (2 * length next)); intros s'; apply IH|].
  assert (opens (trace (pair_step BUFSIZE LOG_USER fs size cnt i j fi f s)) ≤ 2);
    [|lia].
  unfold pair_step. destruct (fflags s !!! j); [cbn; lia|].
  destruct (scan_rows _ _ _ _ _ _ _) as [maxToSkip pr].
  destruct (maxToSkip <? 0)%Z; [cbn; lia|apply opens_compare_pair].
Qed.

Lemma opens_loop_i size cnt fi : ∀ i s retval,
  opens (trace (loop_i BUFSIZE LOG_USER fs size cnt i fi s retval))
  ≤ length fi * (length fi - 1).
Proof.
  induction fi as [|f next IH]; intros i s retval; cbn [loop_i]; [cbn; lia|].
  assert (length next * (length next - 1) ≤ length (f :: next) * (length (f :: next) - 1))
    as Hmono by (cbn [length]; nia).
  case_bool_decide; [|cbn; lia].
  destruct (fflags s !!! i); [etransitivity; [apply IH|done]|].
  etransitivity;
    [apply (opens_bind _ _ (length next * (length next - 1))); intros s';
     destruct (dn s'); apply IH|].
  pose proof (opens_loop_j size cnt i f next (S i) s). cbn [length]. nia.
Qed.

Lemma opens_resolve_bucket size files retval :
  opens (trace (resolve_bucket BUFSIZE LOG_USER fs size files retval))
  ≤ length files * (length files - 1).
Proof.
  unfold resolve_bucket. case_bool_decide; [cbn; lia|].
  case_bool_decide; [destruct files; cbn; lia|].
  destruct (negb (size =? 0)%Z); [|cbn; lia].
  case_bool_decide; [|cbn; lia].
  etransitivity; [apply (opens_bind _ _ 0); intros [s' r]; cbn; lia|].
  pose proof (opens_loop_i size (length files) files 0 (init_bstate (length files)) retval).
  lia.
Qed.

(** X6: the resolver calls [open] at most [cnt * (cnt - 1)] times for a
    bucket of [cnt] files, twice for each pair at most; over the whole
    tree, at most the sum of that over the buckets. *)
Theorem X6_number_of_opens_is_bounded (node : Node) (retval : list dupNode) :
  opens (trace (chkForDups BUFSIZE LOG_USER fs node retval))
  ≤ sum_list_with (λ b, length b.2 * (length b.2 - 1)) (buckets node).
Proof.
  revert retval. induction node as [|size c files l IHl r IHr col]; intros retval;
    cbn [chkForDups buckets]; [cbn; lia|].
  rewrite sum_list_with_app. cbn [sum_list_with snd].
  etransitivity; [apply (opens_bind _ _
    (length files * (length files - 1)
     + sum_list_with (λ b, length b.2 * (length b.2 - 1)) (buckets r)))|].
  - intros r1. etransitivity; [apply (opens_bind _ _
      (sum_list_with (λ b, length b.2 * (length b.2 - 1)) (buckets r)))|].
    + intros r2. apply IHr.
    + pose proof (opens_resolve_bucket size files r1). lia.
  - specialize (IHl retval). lia.
Qed.

End Opens.

(** * More on the resolver: the scan, the groups and the output *)

Section Scan.

Implicit Types (ar : list Z).

(** What the scan of the previous rows returns, from row [pr] on with
    the bound [acc]: either -1 and the first row whose two cells
    differ, or the largest of [acc] and the cells of column [i], every
    row having equal cells. *)
Lemma scan_rows_spec cnt i j ar n : ∀ pr acc,
  (0 ≤ acc)%Z →
  ((scan_rows n pr cnt i j ar acc).1 = (-1)%Z ∧
   pr ≤ (scan_rows n pr cnt i j ar acc).2 < pr + n ∧
   cell cnt ar (scan_rows n pr cnt i j ar acc).2 i
   ≠ cell cnt ar (scan_rows n pr cnt i j ar acc).2 j ∧
   ∀ q, pr ≤ q < (scan_rows n pr cnt i j ar acc).2 →
        cell cnt ar q i = cell cnt ar q j) ∨
  ((acc ≤ (scan_rows n pr cnt i j ar acc).1)%Z ∧
   (scan_rows n pr cnt i j ar acc).2 = pr + n ∧
   (∀ q, pr ≤ q < pr + n →
         cell cnt ar q i = cell cnt ar q j ∧
         (cell cnt ar q i ≤ (scan_rows n pr cnt i j ar acc).1)%Z) ∧
   ((scan_rows n pr cnt i j ar acc).1 = acc ∨
    ∃ q, pr ≤ q < pr + n ∧ (scan_rows n pr cnt i j ar acc).1 = cell cnt ar q i)).
Proof.
  induction n as [|n IH]; intros pr acc Hacc; cbn [scan_rows fst snd].
  - right. split_and!; [lia|lia|intros; lia|by left].
  - destruct (Z.eqb_spec (cell cnt ar pr i) (cell cnt ar pr j)) as [E|NE];
      cbn [negb fst snd].
    + set (acc' := if (cell cnt ar pr i >? acc)%Z then cell cnt ar pr i else acc).
      assert (acc ≤ acc' ∧ cell cnt ar pr i ≤ acc' ∧
              (acc' = acc ∨ acc' = cell cnt ar pr i))%Z as (H1 & H2 & H3).
      { unfold acc'. destruct (Z.gtb_spec (cell cnt ar pr i) acc); lia. }
      destruct (IH (S pr) acc') as [(Hr & Hp & Hne & Heq)|(Hr & Hp & Hall & Hmax)];
        [lia| |].
      * left. split_and!; [done|lia|lia|done|].
        intros q Hq. destruct (decide (q = pr)) as [->|]; [done|]. apply Heq. lia.
      * right. split_and!; [lia|lia| |].
        -- intros q Hq. destruct (decide (q = pr)) as [->|]; [split; [done|lia]|].
           apply Hall. lia.
        -- destruct Hmax as [Hmax|(q & Hq & Hmax)].
           ++ rewrite Hmax. destruct H3 as [->| ->]; [by left|].
              right. exists pr. split; [lia|done].
           ++ right. exists q. split; [lia|done].
    + left. split_and!; [done|lia|lia|done|intros; lia].
Qed.

(** X7: the scan of the rows below [i] for the columns [i] and [j]
    either stops at the first row whose two cells differ, with
    [maxToSkip = -1], or goes through all of them and returns the
    largest cell of column [i], 0 if none is positive; in that case
    every row has equal cells in the two columns. *)
Theorem X7_scan_returns_the_largest_cell (cnt i j : nat) (ar : list Z) :
  ((scan_rows i 0 cnt i j ar 0).1 = (-1)%Z ∧
   (scan_rows i 0 cnt i j ar 0).2 < i ∧
   cell cnt ar (scan_rows i 0 cnt i j ar 0).2 i
   ≠ cell cnt ar (scan_rows i 0 cnt i j ar 0).2 j ∧
   ∀ q, q < (scan_rows i 0 cnt i j ar 0).2 → cell cnt ar q i = cell cnt ar q j) ∨
  ((0 ≤ (scan_rows i 0 cnt i j ar 0).1)%Z ∧
   (∀ q, q < i → cell cnt ar q i = cell cnt ar q j ∧
                 (cell cnt ar q i ≤ (scan_rows i 0 cnt i j ar 0).1)%Z) ∧
   ((scan_rows i 0 cnt i j ar 0).1 = 0%Z ∨
    ∃ q, q < i ∧ (scan_rows i 0 cnt i j ar 0).1 = cell cnt ar q i)).
Proof.
  destruct (scan_rows_spec cnt i j ar i 0 0%Z) as [(Hr & Hp & Hne & Heq)|(Hr & Hp & Hall & Hmax)];
    [lia| |].
  - left. split_and!; [done|lia|done|]. intros q Hq. apply Heq. lia.
  - right. split_and!; [done| |].
    + intros q Hq. apply Hall. lia.
    + destruct Hmax as [?|(q & Hq & ?)]; [by left|]. right. exists q. split; [lia|done].
Qed.

End Scan.

Section GroupsMore.

Variable BUFSIZE : nat.
Variable LOG_USER : Z.
Variable fs : string → option file.

(** A group of the baseline has the size of the bucket, as an [int],
    and its files are files of the bucket. *)
Lemma baseline_group_from size files g :
  g ∈ baseline fs size files [] →
  dsize g = int_of_long size ∧ ∀ f, f ∈ dfiles g → f ∈ files.
Proof.
  destruct (baseline_groups fs size files)
    as (i & flags & _ & _ & Is & -> & _ & _ & _ & Hbd & _).
  intros (I & -> & HI)%list_elem_of_fmap. split; [done|].
  intros f (k & -> & Hk)%list_elem_of_fmap.
  apply list_elem_of_lookup_total_2, Hbd.
  apply list_elem_of_In, in_concat. exists I. split; by apply list_elem_of_In.
Qed.

Lemma bucket_group_spec size files g :
  g ∈ bucket_groups fs size files →
  2 ≤ length (dfiles g) ∧ dsize g = int_of_long size ∧
  (∀ f, f ∈ dfiles g → f ∈ files) ∧
  (size ≠ 0%Z → ∀ f f', f ∈ dfiles g → f' ∈ dfiles g →
                        data_of fs f = data_of fs f') ∧
  (size = 0%Z → dfiles g = files).
Proof.
  unfold bucket_groups. case_bool_decide; [by intros ?%elem_of_nil|].
  destruct (Z.eqb_spec size 0) as [->|Hsz]; cbn [negb].
  - intros ->%list_elem_of_singleton. cbn. split_and!; try done. lia.
  - intros Hg. destruct (baseline_group_from size files g Hg) as [Hs Hf].
    split_and!; [by apply (baseline_group_size fs size files)|done|done| |done].
    intros _ f f'. by apply (baseline_uniform fs size files).
Qed.

Lemma tree_groups_from node g :
  g ∈ tree_groups fs node →
  ∃ size files, (size, files) ∈ buckets node ∧ g ∈ bucket_groups fs size files.
Proof.
  induction node as [|s c fl l IHl r IHr col]; cbn [tree_groups buckets];
    [by intros ?%elem_of_nil|].
  rewrite !elem_of_app.
  intros [(size & files & Hb & Hg)%IHr|[Hg|(size & files & Hb & Hg)%IHl]].
  - exists size, files. rewrite elem_of_app, elem_of_cons. auto.
  - exists s, fl. rewrite elem_of_app, elem_of_cons. auto.
  - exists size, files. rewrite elem_of_app. auto.
Qed.

(** X8: take a tree in which every bucket has two files or more and,
    unless its size is 0, files that can be read, where the read size,
    the lengths of the files and the square of their number fit an
    [int].  Then [chkForDups] returns, and every group of its chain
    comes from one bucket: it has at least two files, all of them
    entries of that bucket, and as its size the size of the bucket
    converted to [int] (the size itself when that is below [2^31]).
    The files of a group of a bucket of a size other than 0 have the
    same content; the group of the bucket of size 0 is the whole
    bucket. *)
Theorem X8_every_group_comes_from_one_bucket (root : Node) :
  chunk_ok BUFSIZE →
  Forall (bucket_ok fs) (buckets root) →
  ∃ t groups,
    chkForDups BUFSIZE LOG_USER fs root [] = (t, Ret groups) ∧
    ∀ g, g ∈ groups →
      ∃ size files,
        (size, files) ∈ buckets root ∧
        2 ≤ length (dfiles g) ∧
        dsize g = int_of_long size ∧
        ((- 2 ^ 31 ≤ size < 2 ^ 31)%Z → dsize g = size) ∧
        (∀ f, f ∈ dfiles g → f ∈ files) ∧
        (size ≠ 0%Z → ∀ f f', f ∈ dfiles g → f' ∈ dfiles g →
                              data_of fs f = data_of fs f') ∧
        (size = 0%Z → dfiles g = files).
Proof.
  intros Hchunk Hr.
  destruct (chkForDups_spec BUFSIZE LOG_USER fs Hchunk root [] Hr) as (t & Hrun).
  rewrite app_nil_r in Hrun. exists t, (tree_groups fs root). split; [done|].
  intros g (size & files & Hb & Hg)%tree_groups_from.
  destruct (bucket_group_spec size files g Hg) as (H1 & H2 & H3 & H4 & H5).
  exists size, files. split_and!; try done.
  intros Hrange. by rewrite H2, int_of_long_small.
Qed.

(** In a search tree whose sizes fit an [int], the chain of groups is
    in descending order of size. *)
Lemma tree_groups_sorted node :
  keys_sorted node →
  Forall (λ k, - 2 ^ 31 ≤ k < 2 ^ 31)%Z (fst <$> buckets node) →
  StronglySorted (λ a b, b ≤ a)%Z (dsize <$> tree_groups fs node) ∧
  ∀ z, z ∈ dsize <$> tree_groups fs node → z ∈ fst <$> buckets node.
Proof.
  induction node as [|s c fl l IHl r IHr col]; intros Hs Hrange.
  - split; [constructor|by intros z ?%elem_of_nil].
  - destruct (keys_sorted_inv _ _ _ _ _ _ Hs) as (Hsl & Hsr & Hl & Hr).
    cbn [buckets] in Hrange. rewrite fmap_app, fmap_cons in Hrange.
    apply Forall_app in Hrange as [Hrl Hrange].
    apply Forall_cons in Hrange as [Hrs Hrr]. cbn [fst] in Hrs.
    destruct (IHl Hsl Hrl) as [Hsortl Hinl]. destruct (IHr Hsr Hrr) as [Hsortr Hinr].
    assert (∀ z, z ∈ dsize <$> bucket_groups fs s fl → z = s) as Hb.
    { intros z (g & -> & Hg)%list_elem_of_fmap.
      destruct (bucket_group_spec s fl g Hg) as (_ & -> & _).
      by apply int_of_long_small. }
    rewrite Forall_forall in Hl, Hr.
    cbn [tree_groups buckets]. rewrite !fmap_app, fmap_cons. cbn [fst]. split.
    + apply StronglySorted_app_2; [|done|apply StronglySorted_app_2; [|  |done]].
      * intros x y Hx%Hinr. rewrite elem_of_app.
        intros [->%Hb|Hy%Hinl]; [specialize (Hr x Hx); lia|].
        specialize (Hr x Hx). specialize (Hl y Hy). lia.
      * intros x y ->%Hb Hy%Hinl. specialize (Hl y Hy). lia.
      * clear -Hb. induction (bucket_groups fs s fl) as [|g gs IH]; [constructor|].
        cbn [fmap list_fmap]. constructor.
        -- apply IH. intros z Hz. apply Hb. cbn. by apply list_elem_of_further.
        -- apply Forall_forall. intros z Hz.
           rewrite (Hb z) by (cbn; by apply list_elem_of_further).
           rewrite (Hb (dsize g)) by (cbn; apply list_elem_of_here). done.
    + intros z. rewrite !elem_of_app, elem_of_cons.
      intros [?%Hinr|[?%Hb|?%Hinl]]; auto.
Qed.

Lemma tree_files_elem node f :
  f ∈ tree_files node ↔ ∃ size files, (size, files) ∈ buckets node ∧ f ∈ files.
Proof.
  unfold tree_files. split.
  - intros (fl & Hfl & Hf)%list_elem_of_In%in_concat.
    apply list_elem_of_In in Hfl, Hf.
    apply list_elem_of_fmap in Hfl as ([size files] & -> & Hb). by exists size, files.
  - intros (size & files & Hb & Hf). apply list_elem_of_In, in_concat.
    exists files. split; apply list_elem_of_In; [|done].
    apply list_elem_of_fmap. by exists (size, files).
Qed.

(** X9: take a sequence of [insert] calls on files whose sizes fit an
    [int], such that in the tree it builds every bucket has two files
    or more and, unless its size is 0, files that can be read, where
    the read size, the lengths of the files and the square of their
    number fit an [int].  Then the chain of groups that [chkForDups]
    returns for the tree is in descending order of size: the groups of
    the largest files come first. *)
Theorem X9_groups_are_chained_largest_first
    (calls : list (string * stat)) (root : Node) :
  chunk_ok BUFSIZE →
  insert_all NULL calls = Some root →
  Forall (bucket_ok fs) (buckets root) →
  Forall (λ c, - 2 ^ 31 ≤ st_size c.2 < 2 ^ 31)%Z calls →
  ∃ t groups,
    chkForDups BUFSIZE LOG_USER fs root [] = (t, Ret groups) ∧
    StronglySorted (λ a b, b ≤ a)%Z (dsize <$> groups).
Proof.
  intros Hchunk E Hr Hrange.
  destruct (insert_all_tree_ok calls NULL tree_ok_NULL) as (root' & E' & Hok).
  assert (root' = root) as -> by congruence.
  destruct (chkForDups_spec BUFSIZE LOG_USER fs Hchunk root [] Hr) as (t & Hrun).
  rewrite app_nil_r in Hrun. exists t, (tree_groups fs root).
  split; [done|].
  apply tree_groups_sorted; [apply Hok|].
  apply Forall_forall. intros k Hk.
  apply (insert_all_keys calls NULL root k tree_ok_NULL E) in Hk
    as [?%elem_of_nil|(nm & st & Hin & <-)]; [done|].
  rewrite Forall_forall in Hrange. exact (Hrange _ Hin).
Qed.

(** X10: on a bucket of two or more files of a size other than 0, all
    of which can be read, where the read size, the lengths of the files
    and the square of their number fit an [int], the pair loops return,
    and whenever a pair is compared after a scan that returned
    [maxToSkip], the first [maxToSkip] bytes of the two files, which
    the seek skips, are identical: the comparison never skips a
    difference. *)
Theorem X10_the_skipped_prefix_is_identical
    (size : Z) (files : list fe) (retval : list dupNode) :
  chunk_ok BUFSIZE →
  bucket_ok fs (size, files) → size ≠ 0%Z →
  ∃ t s groups,
    loop_i BUFSIZE LOG_USER fs size (length files) 0 files
      (init_bstate (length files)) retval = (t, Ret (s, groups)) ∧
    resolve_bucket BUFSIZE LOG_USER fs size files retval = (t, Ret groups) ∧
    ∀ i j maxToSkip, Compared i j maxToSkip ∈ notes s →
      i < j < length files ∧ (0 ≤ maxToSkip)%Z ∧
      take (Z.to_nat maxToSkip) (data_of fs (files !!! i))
      = take (Z.to_nat maxToSkip) (data_of fs (files !!! j)).
Proof.
  intros Hchunk Hok Hsz.
  assert (Forall (file_ok fs) files) as Hr by (by apply Hok).
  destruct (bucket_spec BUFSIZE LOG_USER fs size files Hchunk Hr retval)
    as (t & s & groups & Hrun & _ & [Hnotes _] & _).
  exists t, s, groups. split; [done|].
  split; [by apply (resolve_bucket_loop_i BUFSIZE LOG_USER fs size files retval t s)|].
  intros i j m Hin. rewrite Forall_forall in Hnotes. exact (Hnotes _ Hin).
Qed.

End GroupsMore.

Section HardLinks.

Variable BUFSIZE : nat.
Variable LOG_USER : Z.
Variable fs : string → option file.

Lemma elem_submseteq_concat {A} (x : list A) (L : list (list A)) :
  x ∈ L → x ⊆+ concat L.
Proof.
  induction L as [|y L IH]; [by intros ?%elem_of_nil|].
  cbn [concat]. intros [->|Hin]%elem_of_cons.
  - by apply submseteq_inserts_r.
  - by apply submseteq_inserts_l, IH.
Qed.

(** X13: take a sequence of [insert] calls such that in the tree it
    builds every bucket has two files or more and, unless its size is
    0, files that can be read, where the read size, the lengths of the
    files and the square of their number fit an [int].  No group that
    [chkForDups] returns holds two entries of one device and inode:
    two hard links of a file are never reported as duplicates of each
    other. *)
Theorem X13_hard_links_are_not_reported_as_duplicates
    (calls : list (string * stat)) (root : Node) :
  chunk_ok BUFSIZE →
  insert_all NULL calls = Some root →
  Forall (bucket_ok fs) (buckets root) →
  ∃ t groups,
    chkForDups BUFSIZE LOG_USER fs root [] = (t, Ret groups) ∧
    ∀ g, g ∈ groups → NoDup (ident <$> dfiles g).
Proof.
  intros Hchunk E Hr.
  destruct (chkForDups_spec BUFSIZE LOG_USER fs Hchunk root [] Hr) as (t & Hrun).
  rewrite app_nil_r in Hrun. exists t, (tree_groups fs root).
  split; [done|].
  intros g (size & files & Hb & Hg)%tree_groups_from.
  pose proof (insert_all_buckets_NoDup calls NULL root tree_ok_NULL
                (Forall_nil_2 _) E) as Hnd.
  rewrite Forall_forall in Hnd. specialize (Hnd _ Hb). cbn [snd] in Hnd.
  apply (submseteq_NoDup' (ident <$> dfiles g) (ident <$> files)); [|done].
  apply fmap_submseteq. etransitivity; [|apply (bucket_groups_submseteq fs size files)].
  apply elem_submseteq_concat. by apply list_elem_of_fmap_2.
Qed.

End HardLinks.

(** * More on [main] *)

Section MainMore.

Variable BUFSIZE : nat.
Variable LOG_USER : Z.
Variable fs : string → option file.
Variable FTW_F : Z.
Variable nftw : string → list (string * stat * Z) * Z.

(** Only the calls of [visit] with the flag [FTW_F] change the tree. *)
Lemma visit_all_regular calls : ∀ root,
  visit_all FTW_F root calls = insert_all root (regular FTW_F calls).
Proof.
  unfold regular.
  induction calls as [|[[nm st] flag] calls IH]; intros root; [done|].
  cbn [visit_all omap list_omap fst snd]. unfold visit.
  destruct (flag =? FTW_F)%Z; cbn [insert_all mbind option_bind]; [|apply IH].
  destruct (insert root nm st); cbn [mbind option_bind]; [apply IH|done].
Qed.

(** X11: take the tree of the regular files that the walks of the
    directories visit, and let every bucket of it have two files or
    more and, unless its size is 0, files that can be read, where the
    read size, the lengths of the files and the square of their number
    fit an [int].  Then [main] makes the system calls of the resolver,
    none of which fails, then prints the groups of the byte-by-byte
    baseline for that tree, each as a line with its size followed by a
    line for each of its files, and returns 0. *)
Theorem X11_main_prints_the_groups_of_the_readable_files
    (argv : list string) (root : Node) :
  chunk_ok BUFSIZE → 1 ≤ length argv →
  insert_all NULL (regular FTW_F (concat ((λ d, (nftw d).1) <$> tail argv)))
  = Some root →
  Forall (bucket_ok fs) (buckets root) →
  ∃ t,
    chkForDups BUFSIZE LOG_USER fs root [] = (t, Ret (tree_groups fs root)) ∧
    Forall (λ e, ¬ group_output e ∧ failure_of e = None) t ∧
    main BUFSIZE LOG_USER fs FTW_F nftw argv
    = (t ++ concat ((λ d, EvPrintf "duplicates of size %ld
" [ArgLong (dsize d)]
                          :: ((λ fp, EvPrintf "%s
" [ArgStr (name fp)]) <$> dfiles d)) <$> tree_groups fs root), Ret 0%Z).
Proof.
  intros Hchunk Hargc E Hr.
  destruct (chkForDups_spec BUFSIZE LOG_USER fs Hchunk root [] Hr) as (t & Hrun).
  rewrite app_nil_r in Hrun. exists t. split; [done|].
  split.
  - destruct (clean_chkForDups BUFSIZE LOG_USER fs root []) as [Hg Hm].
    rewrite Hrun in Hg, Hm. unfold trace, result in *. cbn [fst snd] in *.
    rewrite Forall_forall in Hg, Hm. apply Forall_forall. intros e He.
    split; [by apply Hg|by apply Hm].
  - unfold main. case_bool_decide; [lia|].
    rewrite scan_dirs_visit_all, visit_all_regular, E.
    by rewrite Hrun, bind_Ret.
Qed.

(** X12: the usage message is printed, and the status is 64, only when
    [argv] is empty, [argv[0]] missing too; called with no directory,
    [main] makes no system call, prints nothing and returns 0. *)
Theorem X12_no_directory_is_no_error (argv : list string) :
  (argv = [] →
   main BUFSIZE LOG_USER fs FTW_F nftw argv
   = ([EvStderr "usage: finddups dir1 [dir2 ... [dirN]]"], Exit 64)) ∧
  (length argv = 1 → main BUFSIZE LOG_USER fs FTW_F nftw argv = ([], Ret 0%Z)) ∧
  (result (main BUFSIZE LOG_USER fs FTW_F nftw argv) = Exit 64 → argv = []).
Proof.
  split_and!.
  - by intros ->.
  - destruct argv as [|prog [|dir argv]]; by intros [=].
  - destruct argv as [|prog argv]; [done|]. unfold main.
    case_bool_decide; [cbn in *; lia|].
    destruct (scan_dirs FTW_F nftw NULL (tail (prog :: argv))) as [root|]; [|done].
    destruct (clean_chkForDups BUFSIZE LOG_USER fs root []) as [_ Hm].
    destruct (chkForDups BUFSIZE LOG_USER fs root []) as [t [dups|c| |]];
      unfold result in *; cbn [fst snd] in *; try done.
    destruct Hm as [-> _]. done.
Qed.

End MainMore.

(** * The further properties on the example worlds *)

Local Ltac found := repeat first [apply list_elem_of_here|apply list_elem_of_further].

(** The discipline of [fd_depth] is not kept by every sequence of
    events: not by a third [open], and not by a [read] with one file
    open. *)
Example fd_depth_rejects :
  fd_depth 0 [EvOpen "a" true; EvOpen "b" true; EvOpen "c" true] = None ∧
  fd_depth 0 [EvOpen "a" true; EvRead "a" 5] = None ∧
  fd_depth 0 [EvOpen "a" true; EvOpen "b" false] = Some 1.
Proof. by split_and!. Qed.

Lemma X5_only_files_of_compared_buckets_are_opened_witness :
  ∃ size files, (size, files) ∈ buckets ex_tree ∧
                size ≠ 0%Z ∧ 2 ≤ length files ∧ "p"%string ∈ name <$> files.
Proof.
  apply (X5_only_files_of_compared_buckets_are_opened 1024 8 ex_bucket_fs ex_tree []
           (EvOpen "p" true) "p").
  - vm_compute. found.
  - reflexivity.
Defined.

Lemma X8_every_group_comes_from_one_bucket_witness :
  ∃ t groups,
    chkForDups 1024 8 ex_bucket_fs ex_tree [] = (t, Ret groups) ∧
    ∀ g, g ∈ groups →
      ∃ size files,
        (size, files) ∈ buckets ex_tree ∧
        2 ≤ length (dfiles g) ∧
        dsize g = int_of_long size ∧
        ((- 2 ^ 31 ≤ size < 2 ^ 31)%Z → dsize g = size) ∧
        (∀ f, f ∈ dfiles g → f ∈ files) ∧
        (size ≠ 0%Z → ∀ f f', f ∈ dfiles g → f' ∈ dfiles g →
                              data_of ex_bucket_fs f = data_of ex_bucket_fs f') ∧
        (size = 0%Z → dfiles g = files).
Proof.
  apply (X8_every_group_comes_from_one_bucket 1024 8 ex_bucket_fs).
  - ex_chunk_ok.
  - unfold ex_tree. ex_buckets_ok.
Defined.

Lemma X9_groups_are_chained_largest_first_witness :
  ∃ t groups,
    chkForDups 2 8 ex_sizes_fs ex_sizes_tree [] = (t, Ret groups) ∧
    StronglySorted (λ a b, b ≤ a)%Z (dsize <$> groups).
Proof.
  apply (X9_groups_are_chained_largest_first 2 8 ex_sizes_fs ex_sizes_calls).
  - ex_chunk_ok.
  - reflexivity.
  - unfold ex_sizes_tree. ex_buckets_ok.
  - unfold ex_sizes_calls. repeat (apply Forall_cons; split; [cbn; lia|]). apply Forall_nil_2.
Defined.

(** The groups of that example: two groups, of the sizes 5 and 3 in
    this order, read with chunks of two bytes. *)
Example groups_largest_first :
  insert_all NULL ex_sizes_calls = Some ex_sizes_tree ∧
  buckets ex_sizes_tree
  = [(3%Z, [FE "u2" 1 8; FE "v" 1 7; FE "u" 1 6]); (5%Z, [FE "q" 1 2; FE "p" 1 1])] ∧
  ∃ t,
    chkForDups 2 8 ex_sizes_fs ex_sizes_tree []
    = (t, Ret [DupNode 5 [FE "p" 1 1; FE "q" 1 2]; DupNode 3 [FE "u" 1 6; FE "u2" 1 8]]).
Proof.
  split; [reflexivity|]. split; [reflexivity|].
  eexists. vm_compute. reflexivity.
Qed.

Lemma X10_the_skipped_prefix_is_identical_witness :
  ∃ t s groups,
    loop_i 1024 8 ex_chunked_fs 2049 (length ex_chunked) 0 ex_chunked
      (init_bstate (length ex_chunked)) [] = (t, Ret (s, groups)) ∧
    resolve_bucket 1024 8 ex_chunked_fs 2049 ex_chunked [] = (t, Ret groups) ∧
    ∀ i j maxToSkip, Compared i j maxToSkip ∈ notes s →
      i < j < length ex_chunked ∧ (0 ≤ maxToSkip)%Z ∧
      take (Z.to_nat maxToSkip) (data_of ex_chunked_fs (ex_chunked !!! i))
      = take (Z.to_nat maxToSkip) (data_of ex_chunked_fs (ex_chunked !!! j)).
Proof.
  apply (X10_the_skipped_prefix_is_identical 1024 8 ex_chunked_fs).
  - ex_chunk_ok.
  - ex_bucket_ok.
  - lia.
Defined.

Lemma X11_main_prints_the_groups_of_the_readable_files_witness :
  ∃ t,
    chkForDups 1024 8 ex_fs ex_plain_tree [] = (t, Ret (tree_groups ex_fs ex_plain_tree)) ∧
    Forall (λ e, ¬ group_output e ∧ failure_of e = None) t ∧
    main 1024 8 ex_fs 0 ex_nftw_plain ["finddups"; "d"]%string
    = (t ++ concat ((λ d, EvPrintf "duplicates of size %ld
" [ArgLong (dsize d)]
                          :: ((λ fp, EvPrintf "%s
" [ArgStr (name fp)]) <$> dfiles d)) <$> tree_groups ex_fs ex_plain_tree), Ret 0%Z).
Proof.
  apply (X11_main_prints_the_groups_of_the_readable_files 1024 8 ex_fs 0 ex_nftw_plain
           ["finddups"; "d"]%string ex_plain_tree).
  - ex_chunk_ok.
  - cbn. lia.
  - reflexivity.
  - unfold ex_plain_tree. ex_buckets_ok.
Defined.

(** That run: the directory ["sub"] is not filed, the three files are
    compared, and the one group is printed. *)
Example main_prints_one_group :
  tree_groups ex_fs ex_plain_tree = [DupNode 5 [FE "a" 1 1; FE "b" 1 2]] ∧
  main 1024 8 ex_fs 0 ex_nftw_plain ["finddups"; "d"]%string
  = ([EvOpen "c" true; EvOpen "b" true; EvRead "c" 5; EvRead "b" 5;
      EvClose "b"; EvClose "c";
      EvOpen "c" true; EvOpen "a" true; EvRead "c" 5; EvRead "a" 5;
      EvClose "a"; EvClose "c";
      EvOpen "b" true; EvOpen "a" true; EvRead "b" 5; EvRead "a" 5;
      EvRead "b" 0; EvRead "a" 0; EvClose "a"; EvClose "b";
      EvPrintf "duplicates of size %ld
" [ArgLong 5];
      EvPrintf "%s
" [ArgStr "a"];
      EvPrintf "%s
" [ArgStr "b"]], Ret 0%Z).
Proof. split; vm_compute; reflexivity. Qed.

Lemma X13_hard_links_are_not_reported_as_duplicates_witness :
  ∃ t groups,
    chkForDups 1024 8 ex_bucket_fs ex_links_tree [] = (t, Ret groups) ∧
    ∀ g, g ∈ groups → NoDup (ident <$> dfiles g).
Proof.
  apply (X13_hard_links_are_not_reported_as_duplicates 1024 8 ex_bucket_fs ex_links_calls).
  - ex_chunk_ok.
  - reflexivity.
  - unfold ex_links_tree. ex_buckets_ok.
Defined.

(** The hard link ["r"] of ["p"] is not in the tree, and the group has
    the two files. *)
Example hard_link_is_dropped :
  buckets ex_links_tree = [(5%Z, [FE "q" 1 2; FE "p" 1 1])] ∧
  ∃ t, chkForDups 1024 8 ex_bucket_fs ex_links_tree []
       = (t, Ret [DupNode 5 [FE "p" 1 1; FE "q" 1 2]]).
Proof. split; [reflexivity|]. eexists. vm_compute. reflexivity. Qed.
